(** * vite-plugin-conditional-imports: a shallow embedding

    The development follows the layout of the repository:

    - [Swc]              the part of the SWC syntax tree the plugin inspects;
    - [ImportAttributes] src/importAttributes.ts;
    - [Transform]        src/transform.ts, the per-file strip transform (in
                         this checkout the second half of the file
                         src/src/importAttributes.ts);
    - [Check]            src/check.ts, the bundle verifier (in this checkout
                         src/unnamed/part_000);
    - [Plugin]           src/index.ts, the hooks wiring both together.

    External collaborators (SWC's parser and printer, Rollup's resolver,
    node:path, ESLint, trace-mapping) are interfaces: type classes whose
    methods the embedded code calls and about which nothing is assumed. *)

From Stdlib Require Import String Ascii List ZArith Lia Floats.
From stdpp Require Import base option list gmap strings sorting.

Set Default Proof Using "Type".

(** ** JavaScript primitives used by the sources *)

Module Js.

(** An exception value or a rejection reason. *)
Definition Error := string.

(** [s.startsWith(p)] *)
Definition startsWith (s p : string) : bool := String.prefix p s.

(** [s.endsWith(p)] *)
Definition endsWith (s p : string) : bool :=
  let n := String.length s in
  let k := String.length p in
  if Nat.leb k n then String.eqb (String.substring (n - k) k s) p else false.

(** Truthiness of a value of type [string | undefined | null]: the empty
    string is falsy like [undefined]. *)
Definition truthy (o : option string) : option string :=
  match o with
  | Some EmptyString => None
  | Some s => Some s
  | None => None
  end.

(** The pieces of [s.split(sep)] for a one-character separator. *)
Fixpoint split (sep : ascii) (s : string) : list string :=
  match s with
  | EmptyString => [EmptyString]
  | String c rest =>
      if Ascii.eqb c sep then EmptyString :: split sep rest
      else match split sep rest with
           | piece :: pieces => String c piece :: pieces
           | [] => [String c EmptyString]
           end
  end.

(** [xs.join(sep)] *)
Definition join (sep : string) (xs : list string) : string :=
  String.concat sep xs.

(** The order of [Array.prototype.sort()] without a comparator: strings
    compared code unit by code unit. Strings are sequences of 8-bit
    characters here. *)
Definition str_le (a b : string) : Prop := String.leb a b = true.

#[export] Instance str_le_dec a b : Decision (str_le a b).
Proof. unfold str_le. apply _. Defined.

(** [xs.sort()] on an array of strings. *)
Definition sort (xs : list string) : list string := merge_sort str_le xs.

(** [new Set()] with [add]: insertion ordered, no duplicates. *)
Definition set_add (x : string) (s : list string) : list string :=
  if decide (x ∈ s) then s else s ++ [x].

Definition newline : string := String (ascii_of_nat 10) EmptyString.

End Js.

(** ** The SWC syntax tree, as far as the plugin reads it *)

Module Swc.

(** Expressions. The first six node kinds carry a [value] field; the
    others (null, templates, regular expressions, calls and all the rest)
    do not. The tree reaches JavaScript as JSON, so the [value] of a numeric
    literal that is not finite ([1e400]) arrives as [null]: [None] here.
    [BigIntLiteral] holds the integer the literal denotes. *)
Inductive Expression :=
| StringLiteral (value : string)
| BooleanLiteral (value : bool)
| NumericLiteral (value : option float)
| BigIntLiteral (value : Z)
| JSXText (value : string)
| Identifier (value : string)
| NullLiteral
| TemplateLiteral (raw : string)
| OtherExpression (type : string).

(** The keys of a member: SWC's [PropertyName]. *)
Inductive PropertyName :=
| KeyIdentifier (value : string)
| KeyStringLiteral (value : string)
| KeyNumericLiteral (value : option float)
| KeyBigIntLiteral (value : Z)
| KeyComputed (expression : Expression).

(** Members of an object expression. [ShorthandProperty] is SWC's bare
    [Identifier] member: it has no [key], and its [value] is a string.
    [MethodProperty] stands for getters, setters and methods, which have a
    [key] and no [value]. *)
Inductive Property :=
| KeyValueProperty (key : PropertyName) (value : Expression)
| AssignmentProperty (key : string) (value : Expression)
| ShorthandProperty (value : string)
| MethodProperty (key : PropertyName)
| SpreadElement (arguments : Expression).

Record ObjectExpression := { properties : list Property }.

Inductive ImportSpecifier :=
| ImportNamedSpecifier (local : string) (imported : option string)
                       (isTypeOnly : bool)
| ImportDefaultSpecifier (local : string)
| ImportNamespaceSpecifier (local : string).

(** [spec.local.value] *)
Definition local_value (spec : ImportSpecifier) : string :=
  match spec with
  | ImportNamedSpecifier l _ _ => l
  | ImportDefaultSpecifier l => l
  | ImportNamespaceSpecifier l => l
  end.

(** [source] is [node.source.value]; [with_] is the runtime field [with],
    [asserts] the one the type declarations still have. *)
Record ImportDeclaration := {
  source : string;
  specifiers : list ImportSpecifier;
  typeOnly : bool;
  with_ : option ObjectExpression;
  asserts : option ObjectExpression;
}.

(** A top-level statement: an import declaration or any other item, kept
    opaque (its node type and its text). *)
Inductive ModuleItem :=
| ImportDeclarationItem (node : ImportDeclaration)
| OtherItem (type : string) (text : string).

End Swc.

(** ** src/importAttributes.ts *)

Module ImportAttributes.
Import Swc.

(** What a [value] field holds when it is not [null]: the values an
    attribute is mapped to. [VBigInt] is the value of a BigInt literal, in
    whatever form SWC hands it over. *)
Inductive JsValue :=
| VString (s : string)
| VBoolean (b : bool)
| VNumber (n : float)
| VBigInt (n : Z).

(** [ToString] of a number and of the value of a BigInt literal, needed
    when such a key names a property. *)
Class NumberToString := {
  Number_toString : float -> string;
  BigInt_toString : Z -> string;
}.

(** [node.with ?? node.asserts] *)
Definition getWithObject (node : ImportDeclaration) : option ObjectExpression :=
  match with_ node with
  | Some o => Some o
  | None => asserts node
  end.

(** [(withObj?.properties as Property[]) ?? []] *)
Definition getAttrList (node : ImportDeclaration) : list Property :=
  match getWithObject node with
  | Some withObj => properties withObj
  | None => []
  end.

(** [k.value] when the key node has a [value] field. [None] stands for
    [undefined] and for [null], which the caller's [key != null] does not
    tell apart. *)
Definition getKey (attr : Property) : option JsValue :=
  match attr with
  | KeyValueProperty k _ | MethodProperty k =>
      match k with
      | KeyIdentifier v => Some (VString v)
      | KeyStringLiteral v => Some (VString v)
      | KeyNumericLiteral v => VNumber <$> v
      | KeyBigIntLiteral v => Some (VBigInt v)
      | KeyComputed _ => None
      end
  | AssignmentProperty k _ => Some (VString k)
  | ShorthandProperty _ | SpreadElement _ => None
  end.

(** [v.value] when [attr.value] is an object with a [value] field. The
    [value] of a shorthand member is a string, not an object. [None]
    stands for [undefined] and for [null], as in [getKey]. *)
Definition getVal (attr : Property) : option JsValue :=
  match attr with
  | KeyValueProperty _ v | AssignmentProperty _ v =>
      match v with
      | StringLiteral s => Some (VString s)
      | BooleanLiteral b => Some (VBoolean b)
      | NumericLiteral n => VNumber <$> n
      | BigIntLiteral n => Some (VBigInt n)
      | JSXText s => Some (VString s)
      | Identifier x => Some (VString x)
      | NullLiteral | TemplateLiteral _ | OtherExpression _ => None
      end
  | ShorthandProperty _ | MethodProperty _ | SpreadElement _ => None
  end.

Section WithNumbers.
Context `{!NumberToString}.

(** The property name [out[key]] addresses. *)
Definition property_key (key : JsValue) : string :=
  match key with
  | VString s => s
  | VBoolean true => "true"
  | VBoolean false => "false"
  | VNumber n => Number_toString n
  | VBigInt n => BigInt_toString n
  end.

(** [out[key] = val] on a plain object, seen as the mapping of its own
    properties. Assigning to [__proto__] reaches the inherited setter,
    which ignores a primitive and takes an object as the new prototype:
    either way no own property is written. *)
Definition assign (out : gmap string JsValue) (key : JsValue) (val : JsValue)
  : gmap string JsValue :=
  let name := property_key key in
  if String.eqb name "__proto__" then out else <[name := val]> out.

(** The body of the [for ... of] loop. *)
Definition step (out : gmap string JsValue) (attr : Property)
  : gmap string JsValue :=
  match getKey attr, getVal attr with
  | Some key, Some val => assign out key val
  | _, _ => out
  end.

Definition getImportAttributes (node : ImportDeclaration)
  : gmap string JsValue :=
  fold_left step (getAttrList node) ∅.

End WithNumbers.

End ImportAttributes.

(** ** External collaborators *)

Module Host.
Import Swc.

(** node:path and vite's [normalizePath]. *)
Class NodePath := {
  path_relative : string -> string -> string;
  path_isAbsolute : string -> bool;
  path_join : string -> string -> string;
  normalizePath : string -> string;
}.

(** [parse] and [print] of @swc/core; [parse] may reject, [print] returns
    the code and the optional map. *)
Class SwcCore := {
  parse : string -> bool -> Js.Error + list ModuleItem;
  print : list ModuleItem -> string -> string * option string;
}.

(** Rollup's [this.resolve(target, importer)]: rejects, or yields
    [r?.id]. *)
Class Resolver := resolve : string -> string -> Js.Error + option string.

Record ResolvedConfig := { root : string; config_mode : string }.
Record ConfigEnv := { command : string; env_mode : string }.

End Host.

(** ** src/transform.ts *)

Module Transform.
Import Swc ImportAttributes Host.

(** The fields of [ShouldStripContext] that are plain data. The accessor
    [resolvedTarget] is [get_resolvedTarget] below. *)
Record ShouldStripContext := {
  target : string;
  ctx_source : string;
  withObject : gmap string JsValue;
  config : ResolvedConfig;
  env : ConfigEnv;
}.

(** What the promise of one predicate call settles to. *)
Inductive Settlement :=
| Fulfils (strip : bool)
| Rejects (e : Js.Error).

(** What the call [shouldStrip(ctx)] itself does: throw, or return a
    boolean or a promise, both of which [Promise.resolve] turns into a
    promise. *)
Inductive Returned :=
| Throws (e : Js.Error)
| Returns (s : Settlement).

(** One call of the predicate: how often its synchronous part reads
    [ctx.resolvedTarget], and what it returns. *)
Record PredicateCall := { syncReads : nat; returned : Returned }.

(** The caller's predicate. It is arbitrary JavaScript and may keep state,
    so a call is determined by the context and by the number of calls made
    before it in this transform. *)
Definition ShouldStripFn := nat -> ShouldStripContext -> PredicateCall.

Record TransformContext := {
  tc_config : ResolvedConfig;
  tc_env : ConfigEnv;
}.

Record TransformResult := {
  code : string;
  map : option string;
  strippedImportTargets : list string;
  strippedImportSymbols : list string;
  relativeSource : string;
}.

(** An entry of the local array [body]. *)
Inductive Slot :=
| Plain (item : ModuleItem)
| Waiting (node : ImportDeclaration) (s : Settlement)
| Settled (result : option ModuleItem)
| Failed (e : Js.Error).

(** Calls that leave the transform, and reads of the accessor. *)
Inductive Effect :=
| EParse (code : string) (tsx : bool)
| EShouldStrip (pos : nat) (ctx : ShouldStripContext)
| EGetResolvedTarget (pos : nat) (target : string) (promise : nat)
| EResolve (target importer : string)
| EPrint (body : list ModuleItem) (filename : string).

(** What happens after the loop has started every predicate: a pending
    predicate promise settles, or a predicate reads [ctx.resolvedTarget]
    of the context it was given. *)
Inductive Event :=
| Settle (pos : nat)
| Read (pos : nat).

(** The local variables of one call of [transform]. A promise of the
    resolve cache is its index in [promises], which holds what each one
    settles to. *)
Record State := {
  resolveCache : gmap string nat;
  promises : list (Js.Error + string);
  targets : list string;
  symbols : list string;
  body : list Slot;
  calls : nat;
  thrown : option Js.Error;
  rejected : option Js.Error;
  trace : list Effect;
}.

Definition init : State :=
  {| resolveCache := ∅; promises := []; targets := []; symbols := [];
     body := []; calls := 0; thrown := None; rejected := None; trace := [] |}.

Definition log (es : list Effect) (st : State) : State :=
  {| resolveCache := resolveCache st; promises := promises st;
     targets := targets st; symbols := symbols st; body := body st;
     calls := calls st; thrown := thrown st; rejected := rejected st;
     trace := trace st ++ es |}.

Definition set_body (b : list Slot) (st : State) : State :=
  {| resolveCache := resolveCache st; promises := promises st;
     targets := targets st; symbols := symbols st; body := b;
     calls := calls st; thrown := thrown st; rejected := rejected st;
     trace := trace st |}.

Definition push (s : Slot) (st : State) : State := set_body (body st ++ [s]) st.

Definition set_stripped (ts ss : list string) (st : State) : State :=
  {| resolveCache := resolveCache st; promises := promises st;
     targets := ts; symbols := ss; body := body st;
     calls := calls st; thrown := thrown st; rejected := rejected st;
     trace := trace st |}.

Definition set_thrown (e : Js.Error) (st : State) : State :=
  {| resolveCache := resolveCache st; promises := promises st;
     targets := targets st; symbols := symbols st; body := body st;
     calls := calls st; thrown := Some e; rejected := rejected st;
     trace := trace st |}.

Definition set_rejected (e : Js.Error) (st : State) : State :=
  {| resolveCache := resolveCache st; promises := promises st;
     targets := targets st; symbols := symbols st; body := body st;
     calls := calls st; thrown := thrown st; rejected := Some e;
     trace := trace st |}.

Definition count_call (st : State) : State :=
  {| resolveCache := resolveCache st; promises := promises st;
     targets := targets st; symbols := symbols st; body := body st;
     calls := S (calls st); thrown := thrown st; rejected := rejected st;
     trace := trace st |}.

Definition cache_promise (t : string) (settles : Js.Error + string) (st : State)
  : State :=
  {| resolveCache := <[t := length (promises st)]> (resolveCache st);
     promises := promises st ++ [settles];
     targets := targets st; symbols := symbols st; body := body st;
     calls := calls st; thrown := thrown st; rejected := rejected st;
     trace := trace st |}.

(** How a promise of an asynchronous call ends. *)
Inductive Outcome (A : Type) :=
| Pending
| Rejected (e : Js.Error)
| Resolved (a : A).
Arguments Pending {A}.
Arguments Rejected {A} e.
Arguments Resolved {A} a.

Section WithHost.
Context `{!NodePath, !SwcCore, !Resolver, !NumberToString}.

Definition relativeToRoot (filePath root : string) : string :=
  let rel := path_relative root filePath in
  if Js.startsWith rel ".." || path_isAbsolute rel then filePath
  else normalizePath rel.

Section OneFile.
Variable id : string.
Variable shouldStrip : ShouldStripFn.
Variable context : TransformContext.

(** [context.resolve(target, id).then(r => relativeToRoot(r?.id ??
    target, context.config.root))] *)
Definition resolution (t : string) : Js.Error + string :=
  match resolve t id with
  | inl e => inl e
  | inr r => inr (relativeToRoot (default t r) (root (tc_config context)))
  end.

(** The getter [resolvedTarget] of the context built at position
    [pos], whose [target] is [t]. *)
Definition get_resolvedTarget (pos : nat) (t : string) (st : State)
  : nat * State :=
  match resolveCache st !! t with
  | Some promise => (promise, log [EGetResolvedTarget pos t promise] st)
  | None =>
      let promise := length (promises st) in
      (promise,
       log [EGetResolvedTarget pos t promise]
         (cache_promise t (resolution t) (log [EResolve t id] st)))
  end.

Definition read_resolvedTarget (pos : nat) (t : string) (st : State) : State :=
  snd (get_resolvedTarget pos t st).

Definition make_ctx (item : ImportDeclaration) : ShouldStripContext :=
  {| target := Swc.source item;
     ctx_source := relativeToRoot id (root (tc_config context));
     withObject := getImportAttributes item;
     config := tc_config context;
     env := tc_env context |}.

(** The loop [for (const item of mod.body)]: it ends early when the
    predicate throws. *)
Fixpoint scatter (items : list ModuleItem) (st : State) : State :=
  match items with
  | [] => st
  | item :: rest =>
      match item with
      | ImportDeclarationItem node =>
          if typeOnly node then scatter rest (push (Plain item) st)
          else
            let pos := length (body st) in
            let ctx := make_ctx node in
            let call := shouldStrip (calls st) ctx in
            let st1 := count_call (log [EShouldStrip pos ctx] st) in
            let st2 := Nat.iter (syncReads call)
                         (read_resolvedTarget pos (target ctx)) st1 in
            match returned call with
            | Throws e => set_thrown e st2
            | Returns s => scatter rest (push (Waiting node s) st2)
            end
      | OtherItem _ _ => scatter rest (push (Plain item) st)
      end
  end.

(** The callback given to [.then] runs when the promise at [pos] is
    fulfilled; a rejection is passed on to [Promise.all], which keeps
    the first one. *)
Definition settle (pos : nat) (st : State) : State :=
  match body st !! pos with
  | Some (Waiting node (Fulfils false)) =>
      set_body (<[pos := Settled (Some (ImportDeclarationItem node))]> (body st)) st
  | Some (Waiting node (Fulfils true)) =>
      set_body (<[pos := Settled None]> (body st))
        (set_stripped
           (Js.set_add (Swc.source node) (targets st))
           (fold_left (fun s spec => Js.set_add (local_value spec) s)
              (specifiers node) (symbols st))
           st)
  | Some (Waiting node (Rejects e)) =>
      let st1 := set_body (<[pos := Failed e]> (body st)) st in
      match rejected st with
      | Some _ => st1
      | None => set_rejected e st1
      end
  | _ => st
  end.

(** A read of [ctx.resolvedTarget] needs the context of position
    [pos], which exists once the loop has passed that position. *)
Definition read (mod_body : list ModuleItem) (pos : nat) (st : State) : State :=
  match mod_body !! pos with
  | Some (ImportDeclarationItem node) =>
      if typeOnly node then st
      else if decide (pos < length (body st))
           then read_resolvedTarget pos (Swc.source node) st
           else st
  | _ => st
  end.

Definition step (mod_body : list ModuleItem) (st : State) (ev : Event) : State :=
  match ev with
  | Settle pos => settle pos st
  | Read pos => read mod_body pos st
  end.

Definition gather (mod_body : list ModuleItem) (sched : list Event) (st : State)
  : State :=
  fold_left (step mod_body) sched st.

(** The value an entry contributes to [Promise.all(body)], once it has
    one. *)
Definition slot_value (s : Slot) : option (option ModuleItem) :=
  match s with
  | Plain item => Some (Some item)
  | Settled r => Some r
  | Waiting _ _ | Failed _ => None
  end.

(** [await Promise.all(body)] *)
Definition promise_all (st : State) : Outcome (list (option ModuleItem)) :=
  match rejected st with
  | Some e => Rejected e
  | None =>
      match mapM slot_value (body st) with
      | Some results => Resolved results
      | None => Pending
      end
  end.

(** One call of [transform], seen from outside: how its promise ends,
    the [body] of the parsed module when it does, and the effects. *)
Record Run := {
  outcome : Outcome (option TransformResult);
  mod_body : option (list ModuleItem);
  effects : list Effect;
}.

Definition run_state (parsed : list ModuleItem) (sched : list Event) : State :=
  gather parsed sched (scatter parsed init).

Definition transform_parsed (parsed : list ModuleItem) (sched : list Event)
  : Run :=
  let st := run_state parsed sched in
  match thrown st with
  | Some e =>
      {| outcome := Rejected e; mod_body := Some parsed; effects := trace st |}
  | None =>
      match promise_all st with
      | Pending =>
          {| outcome := Pending; mod_body := Some parsed; effects := trace st |}
      | Rejected e =>
          {| outcome := Rejected e; mod_body := Some parsed; effects := trace st |}
      | Resolved results =>
          let kept := omap (fun r => r) results in
          if Nat.eqb (length (symbols st)) 0 then
            {| outcome := Resolved None; mod_body := Some kept;
               effects := trace st |}
          else
            let filename := relativeToRoot id (root (tc_config context)) in
            let out := print kept filename in
            {| outcome :=
                 Resolved (Some {| code := fst out;
                                   map := snd out;
                                   strippedImportTargets := targets st;
                                   strippedImportSymbols := symbols st;
                                   relativeSource := filename |});
               mod_body := Some kept;
               effects := trace st ++ [EPrint kept filename] |}
      end
  end.

Definition transform (code : string) (sched : list Event) : Run :=
  let tsx := Js.endsWith id ".tsx" in
  match parse code tsx with
  | inl e =>
      {| outcome := Rejected e; mod_body := None;
         effects := [EParse code tsx] |}
  | inr parsed =>
      let r := transform_parsed parsed sched in
      {| outcome := outcome r; mod_body := mod_body r;
         effects := EParse code tsx :: effects r |}
  end.

End OneFile.
End WithHost.

End Transform.

(** ** src/check.ts *)

Module Check.
Import Host.

(** A message of ESLint's [Linter.verify]. *)
Record LintMessage := {
  ruleId : option string;
  message : string;
  msg_line : nat;
  msg_column : nat;
}.

Class Eslint := verify : string -> list LintMessage.

(** The source-map payload a chunk carries. *)
Record SourceMap := { sm_sources : list string; sm_mappings : string }.

(** @jridgewell/trace-mapping: [new TraceMap(map, mapUrl)] and
    [originalPositionFor(traceMap, {line, column}).source]. *)
Class TraceMapping := {
  TraceMap : Type;
  new_TraceMap : SourceMap -> option string -> TraceMap;
  originalPositionFor : TraceMap -> nat -> nat -> option string;
}.

Record UndefinedRef := {
  name : string;
  line : option nat;
  column : option nat;
}.

(** [modules] holds [Object.keys(chunk.modules)]. *)
Record OutputChunk := {
  chunk_code : string;
  moduleIds : option (list string);
  modules : option (list string);
  chunk_map : option SourceMap;
  sourcemapFileName : option string;
  fileName : string;
}.

Record OutputAsset := { asset_fileName : string; asset_source : string }.

Inductive Output :=
| Chunk (chunk : OutputChunk)
| Asset (asset : OutputAsset).

(** [Record<string, OutputChunk | OutputAsset>], in property order. *)
Definition Bundle := list (string * Output).

(** [msg.message.split("'")[1] ?? null] *)
Definition quoted_name (msg : string) : option string :=
  Js.split "'"%char msg !! 1.

Section WithHost.
Context `{!NodePath, !Eslint, !TraceMapping}.

(** The loop of [findUndefinedRefs] over the linter's messages. *)
Fixpoint collect (messages : list LintMessage) (seen : gset string)
                 (refs : list UndefinedRef) : list UndefinedRef :=
  match messages with
  | [] => refs
  | msg :: rest =>
      if negb (bool_decide (ruleId msg = Some "no-undef")) then
        collect rest seen refs
      else
        match Js.truthy (quoted_name (message msg)) with
        | None => collect rest seen refs
        | Some n =>
            if decide (n ∈ seen) then collect rest seen refs
            else collect rest ({[n]} ∪ seen)
                   (refs ++ [{| name := n;
                                line := Some (msg_line msg);
                                column := Some (msg_column msg) |}])
        end
  end.

Definition findUndefinedRefs (code : string) : list UndefinedRef :=
  collect (verify code) ∅ [].

(** [chunk.moduleIds ?? Object.keys(chunk.modules ?? {})] *)
Definition moduleIdsInChunk (chunk : OutputChunk) : list string :=
  match moduleIds chunk with
  | Some ids => ids
  | None => default [] (modules chunk)
  end.

(** The template string of the error. *)
Definition describe (n : string) (relativeSourceIds : list string) : string :=
  "Stripped conditional import binding '" +:+ n +:+ "' still in output ("
    +:+ Js.join ", " (Js.sort relativeSourceIds) +:+ ")".

(** [relativeToRoot] is imported from ./transform. *)
Definition relativeToRoot := Transform.relativeToRoot.

(** The state of the loop of [checkChunk]: [errors] and [traceMap]. *)
Definition LoopState : Type := list string * option TraceMap.

(** The second argument of [new TraceMap]. *)
Definition mapUrl (chunk : OutputChunk) (outputDir : option string)
    : option string :=
  match Js.truthy outputDir with
  | Some dir =>
      Some (path_join dir
              (default (fileName chunk +:+ ".map") (sourcemapFileName chunk)))
  | None => None
  end.

(** The block guarded by [chunk.map && undefinedRef.line != null &&
    undefinedRef.column != null]: [sourceOfError] and the [traceMap] it
    leaves, built on first use ([traceMap ??= ...]). *)
Definition locate (chunk : OutputChunk) (outputDir : option string)
    (traceMap : option TraceMap) (undefinedRef : UndefinedRef)
    : option string * option TraceMap :=
  match chunk_map chunk, line undefinedRef, column undefinedRef with
  | Some m, Some l, Some c =>
      let tm := default (new_TraceMap m (mapUrl chunk outputDir)) traceMap in
      (originalPositionFor tm l c, Some tm)
  | _, _, _ => (None, traceMap)
  end.

(** One iteration of [for (const undefinedRef of undefinedRefs)]. *)
Definition check_ref (chunk : OutputChunk)
    (importSymbolsToSource : gmap string (list string))
    (root : string) (outputDir : option string)
    (acc : LoopState) (undefinedRef : UndefinedRef) : LoopState :=
  let '(errors, traceMap) := acc in
  match importSymbolsToSource !! name undefinedRef with
  | None => acc
  | Some sourceIds =>
      let relevantSourceIds :=
        filter (fun id => id ∈ moduleIdsInChunk chunk) sourceIds in
      match relevantSourceIds with
      | [] => acc
      | _ :: _ =>
          let '(sourceOfError, traceMap') :=
            locate chunk outputDir traceMap undefinedRef in
          let errorSourceIds :=
            match Js.truthy sourceOfError with
            | Some s => [s]
            | None => relevantSourceIds
            end in
          let relativeSourceIds :=
            match Js.truthy outputDir with
            | Some _ => (fun id => relativeToRoot id root) <$> errorSourceIds
            | None => errorSourceIds
            end in
          (errors ++ [describe (name undefinedRef) relativeSourceIds], traceMap')
      end
  end.

Definition checkChunk (chunk : OutputChunk)
    (importSymbolsToSource : gmap string (list string))
    (root : string) (outputDir : option string) : list string :=
  let undefinedRefs := findUndefinedRefs (chunk_code chunk) in
  match undefinedRefs with
  | [] => []
  | _ :: _ =>
      fst (fold_left (check_ref chunk importSymbolsToSource root outputDir)
             undefinedRefs ([], None))
  end.

Definition checkBundle (bundle : Bundle)
    (importSymbolsToSource : gmap string (list string))
    (root : string) (outputDir : option string) : list string :=
  if decide (size importSymbolsToSource = 0) then []
  else
    fold_left
      (fun errors entry =>
         match snd entry with
         | Chunk chunk =>
             errors ++ checkChunk chunk importSymbolsToSource root outputDir
         | Asset _ => errors
         end)
      bundle [].

End WithHost.

End Check.

(** ** src/index.ts *)

Module Plugin.
Import Swc ImportAttributes Host Transform Check.

Record Options := {
  autoSourceMaps : option bool;
  applyInServe : option bool;
}.

(** [userConfig.build?.sourcemap] *)
Inductive Sourcemap := SmBool (b : bool) | SmInline | SmHidden.

(** The variables the hooks close over. *)
Record PluginState := {
  pluginRequestedSourcemap : bool;
  importSymbolsToSource : gmap string (list string);
  cachedConfig : option ResolvedConfig;
  cachedEnv : option ConfigEnv;
}.

Definition initial : PluginState :=
  {| pluginRequestedSourcemap := false; importSymbolsToSource := ∅;
     cachedConfig := None; cachedEnv := None |}.

Definition set_registry (reg : gmap string (list string)) (st : PluginState)
  : PluginState :=
  {| pluginRequestedSourcemap := pluginRequestedSourcemap st;
     importSymbolsToSource := reg;
     cachedConfig := cachedConfig st; cachedEnv := cachedEnv st |}.

(** What the [transform] hook hands back to the host. *)
Inductive HookResult :=
| HookError (message : string)
| HookRejected (e : Js.Error)
| HookPending
| HookNull
| HookCode (code : string) (map : option string).

Inductive PluginEffect :=
| Inner (e : Transform.Effect)
| Log (relativeSource target : string).

Record HookRun := {
  result : HookResult;
  after : PluginState;
  hook_effects : list PluginEffect;
}.

(** The regular expression [/\.(tsx?|jsx?|mts|mjs)$/], spelled out. *)
Definition extensions : list string :=
  [".ts"; ".tsx"; ".js"; ".jsx"; ".mts"; ".mjs"].

Definition matches_extension (id : string) : bool :=
  existsb (Js.endsWith id) extensions.

(** The body of [for (const name of result.strippedImportSymbols)]. *)
Definition record_symbol (id : string) (reg : gmap string (list string))
    (n : string) : gmap string (list string) :=
  <[n := default [] (reg !! n) ++ [id]]> reg.

Section WithHost.
Context `{!NodePath, !SwcCore, !Resolver, !NumberToString,
          !Eslint, !TraceMapping}.
Variable shouldStrip : ShouldStripFn.
Variable options : option Options.

Definition opt_autoSourceMaps : bool :=
  match options with
  | Some {| autoSourceMaps := Some false |} => false
  | _ => true
  end.

Definition opt_applyInServe : bool :=
  match options with
  | Some {| applyInServe := Some true |} => true
  | _ => false
  end.

(** [config(userConfig, env)]: the new state and whether the hook
    returns [{ build: { sourcemap: 'hidden' } }]. *)
Definition config_hook (sourcemap : option Sourcemap) (env : ConfigEnv)
    (st : PluginState) : PluginState * bool :=
  let st1 := {| pluginRequestedSourcemap := pluginRequestedSourcemap st;
                importSymbolsToSource := importSymbolsToSource st;
                cachedConfig := cachedConfig st; cachedEnv := Some env |} in
  if negb opt_autoSourceMaps then (st1, false)
  else if String.eqb (command env) "build"
          && match sourcemap with
             | None | Some (SmBool false) => true
             | _ => false
             end
  then ({| pluginRequestedSourcemap := true;
           importSymbolsToSource := importSymbolsToSource st;
           cachedConfig := cachedConfig st; cachedEnv := Some env |}, true)
  else (st1, false).

Definition configResolved (cfg : ResolvedConfig) (st : PluginState)
    : PluginState :=
  {| pluginRequestedSourcemap := pluginRequestedSourcemap st;
     importSymbolsToSource := importSymbolsToSource st;
     cachedConfig := Some cfg; cachedEnv := cachedEnv st |}.

Definition buildStart (st : PluginState) : PluginState := set_registry ∅ st.

(** The [transform] hook. [sched] is what happens while the inner
    [transform] is awaited. *)
Definition transform_hook (code id : string) (sched : list Event)
    (st : PluginState) : HookRun :=
  match cachedConfig st, cachedEnv st with
  | Some cfg, Some env =>
      if negb (matches_extension id) then
        {| result := HookNull; after := st; hook_effects := [] |}
      else
        let r := transform id shouldStrip
                   {| tc_config := cfg; tc_env := env |} code sched in
        match outcome r with
        | Pending =>
            {| result := HookPending; after := st;
               hook_effects := Inner <$> effects r |}
        | Rejected e =>
            {| result := HookRejected e; after := st;
               hook_effects := Inner <$> effects r |}
        | Resolved None =>
            {| result := HookNull; after := st;
               hook_effects := Inner <$> effects r |}
        | Resolved (Some res) =>
            {| result := HookCode (Transform.code res) (Transform.map res);
               after :=
                 set_registry
                   (fold_left (record_symbol id) (strippedImportSymbols res)
                      (importSymbolsToSource st))
                   st;
               hook_effects :=
                 (Inner <$> effects r)
                   ++ (Log (relativeSource res) <$> strippedImportTargets res) |}
        end
  | _, _ =>
      {| result :=
           HookError "vite-plugin-conditional-imports: config or env not resolved";
         after := st; hook_effects := [] |}
  end.

(** [generateBundle(options, bundle)]: the message of the error it
    raises with [this.error], if it raises one. *)
Definition generateBundle (outputDir : option string) (bundle : Bundle)
    (st : PluginState) : option string :=
  match cachedConfig st with
  | None => None
  | Some cfg =>
      let errors :=
        checkBundle bundle (importSymbolsToSource st) (root cfg) outputDir in
      if decide (0 < length errors) then Some (Js.join Js.newline errors)
      else None
  end.

(** [writeBundle(options, bundle)]: the files it unlinks. *)
Definition writeBundle (outputDir : option string) (bundle : Bundle)
    (st : PluginState) : list string :=
  match pluginRequestedSourcemap st, Js.truthy outputDir with
  | true, Some dir =>
      path_join dir <$> filter (fun n => Js.endsWith n ".map" = true) (fst <$> bundle)
  | _, _ => []
  end.

(** The hooks that change the plugin's state, as the host calls them. *)
Inductive HookCall :=
| CallConfig (sourcemap : option Sourcemap) (env : ConfigEnv)
| CallConfigResolved (cfg : ResolvedConfig)
| CallBuildStart
| CallTransform (code id : string) (sched : list Event).

Definition call (st : PluginState) (h : HookCall) : PluginState :=
  match h with
  | CallConfig sm env => fst (config_hook sm env st)
  | CallConfigResolved cfg => configResolved cfg st
  | CallBuildStart => buildStart st
  | CallTransform code id sched => after (transform_hook code id sched st)
  end.

(** The states a plugin instance can be in. *)
Definition reachable (st : PluginState) : Prop :=
  exists calls : list HookCall, st = fold_left call calls initial.

End WithHost.

End Plugin.

(** ** Fixtures

    Concrete collaborators and the files of the repository's test fixtures,
    used to run the embedding. *)

Module Fixtures.
Import Swc ImportAttributes Host Transform Check Plugin.

Definition app_root : string := "/app".

(** POSIX paths under one root, enough for the fixture ids. *)
Definition posix : NodePath :=
  {| path_relative from to :=
       if String.prefix (from +:+ "/") to
       then String.substring (S (String.length from))
              (String.length to - S (String.length from)) to
       else "../" +:+ to;
     path_isAbsolute p := String.prefix "/" p;
     path_join a b := a +:+ "/" +:+ b;
     normalizePath p := p |}.

Definition number_to_string : NumberToString :=
  {| Number_toString := fun _ => "0"; BigInt_toString := fun _ => "0" |}.

Definition no_resolver : Resolver := fun _ _ => inr None.

Definition only_dev : ObjectExpression :=
  {| properties := [KeyValueProperty (KeyIdentifier "only") (StringLiteral "dev")] |}.

(** [import { debug } from './devOnly' with { only: 'dev' }] *)
Definition import_debug : ImportDeclaration :=
  {| source := "./devOnly";
     specifiers := [ImportNamedSpecifier "debug" None false];
     typeOnly := false; with_ := Some only_dev; asserts := None |}.

(** [import util from './util'] *)
Definition import_util : ImportDeclaration :=
  {| source := "./util";
     specifiers := [ImportDefaultSpecifier "util"];
     typeOnly := false; with_ := None; asserts := None |}.

(** [import type { DevType } from './devOnly'] *)
Definition import_type : ImportDeclaration :=
  {| source := "./devOnly";
     specifiers := [ImportNamedSpecifier "DevType" None false];
     typeOnly := true; with_ := None; asserts := None |}.

(** [import './devOnly' with { only: 'dev' }] *)
Definition import_side_effect : ImportDeclaration :=
  {| source := "./devOnly"; specifiers := [];
     typeOnly := false; with_ := Some only_dev; asserts := None |}.

(** [import * as devOnly from './devOnly' with { only: 'dev' }] *)
Definition import_namespace : ImportDeclaration :=
  {| source := "./devOnly";
     specifiers := [ImportNamespaceSpecifier "devOnly"];
     typeOnly := false; with_ := Some only_dev; asserts := None |}.

(** [import foo from 'bar' with { only: dev }]: the value is an identifier. *)
Definition import_identifier_value : ImportDeclaration :=
  {| source := "bar";
     specifiers := [ImportDefaultSpecifier "foo"];
     typeOnly := false;
     with_ := Some {| properties :=
                        [KeyValueProperty (KeyIdentifier "only") (Identifier "dev")] |};
     asserts := None |}.

(** [import { devValue } from './devOnly' with { only: 'dev' }] *)
Definition import_devValue : ImportDeclaration :=
  {| source := "./devOnly";
     specifiers := [ImportNamedSpecifier "devValue" None false];
     typeOnly := false; with_ := Some only_dev; asserts := None |}.

Definition guarded_call : ModuleItem :=
  OtherItem "IfStatement" "if (import.meta.env.MODE === 'development') { debug() }".

Definition hello : ModuleItem :=
  OtherItem "ExpressionStatement" "console.log('Hello')".

Definition hello_util : ModuleItem :=
  OtherItem "ExpressionStatement" "console.log('Hello', util())".

(** The fixture with two imports, one of them for development only
    (src/unnamed/part_001 in this checkout). *)
Definition multiple_imports : list ModuleItem :=
  [ImportDeclarationItem import_debug; ImportDeclarationItem import_util;
   guarded_call; hello_util].

(** test/fixtures/type-only/index.ts *)
Definition type_only : list ModuleItem :=
  [ImportDeclarationItem import_type; ImportDeclarationItem import_devValue;
   OtherItem "VariableDeclaration" "const x: DevType = { dev: true }";
   OtherItem "IfStatement"
     "if (import.meta.env.MODE === 'development') { console.log(devValue) }";
   OtherItem "ExpressionStatement" "console.log('Hello', x)"].

(** A file whose only import is a side-effect import. *)
Definition side_effect_only : list ModuleItem :=
  [ImportDeclarationItem import_side_effect; hello].

(** The same file with a named import next to the side-effect import. *)
Definition side_effect_and_named : list ModuleItem :=
  [ImportDeclarationItem import_side_effect; ImportDeclarationItem import_debug;
   hello].

(** A file that uses a namespace import for development only without a
    guard, as the tests on unguarded namespace imports and on several
    source files describe. *)
Definition stray_call : ModuleItem :=
  OtherItem "ExpressionStatement" "devOnly.run()".

Definition namespace_not_guarded : list ModuleItem :=
  [ImportDeclarationItem import_namespace; stray_call].

(** The parser and printer, on the fixture files. The text of a fixture
    file is abbreviated to the fixture's name; the printed text joins the
    statements. *)
Definition item_text (item : ModuleItem) : string :=
  match item with
  | ImportDeclarationItem node =>
      (if typeOnly node then "import type '" else "import '") +:+ source node +:+ "'"
  | OtherItem _ text => text
  end.

Definition swc : SwcCore :=
  {| parse code tsx :=
       if String.eqb code "multiple-imports" then inr multiple_imports
       else if String.eqb code "type-only" then inr type_only
       else if String.eqb code "side-effect-only" then inr side_effect_only
       else if String.eqb code "side-effect-and-named" then inr side_effect_and_named
       else if String.eqb code "namespace-not-guarded" then inr namespace_not_guarded
       else inl "SyntaxError";
     print items filename := (Js.join "; " (item_text <$> items), Some filename) |}.

(** [ctx => ctx.withObject?.only === 'dev'] *)
Definition strip_dev : ShouldStripFn :=
  fun _ ctx =>
    {| syncReads := 0;
       returned :=
         Returns (Fulfils match withObject ctx !! "only" with
                          | Some (VString s) => String.eqb s "dev"
                          | _ => false
                          end) |}.

(** [() => false] *)
Definition strip_nothing : ShouldStripFn :=
  fun _ _ => {| syncReads := 0; returned := Returns (Fulfils false) |}.

(** [async ctx => { throw new Error('boom') }] *)
Definition strip_rejects : ShouldStripFn :=
  fun _ _ => {| syncReads := 0; returned := Returns (Rejects "boom") |}.

(** [async ctx => (await ctx.resolvedTarget).includes('/dev/')] reads the
    accessor once in its synchronous part. *)
Definition strip_by_path : ShouldStripFn :=
  fun _ _ => {| syncReads := 1; returned := Returns (Fulfils false) |}.

Definition production : ConfigEnv := {| command := "build"; env_mode := "production" |}.

Definition app_config : ResolvedConfig := {| root := app_root; config_mode := "production" |}.

Definition app_context : TransformContext :=
  {| tc_config := app_config; tc_env := production |}.

(** A plugin instance after [config] and [configResolved]. *)
Definition configured : PluginState :=
  {| pluginRequestedSourcemap := true; importSymbolsToSource := ∅;
     cachedConfig := Some app_config; cachedEnv := Some production |}.

(** The linter on the fixture chunks: the chunk text is its name. *)
Definition stray_devOnly : LintMessage :=
  {| ruleId := Some "no-undef"; message := "'devOnly' is not defined.";
     msg_line := 3; msg_column := 1 |}.

Definition eslint : Eslint :=
  fun code => if String.eqb code "stray-devOnly" then [stray_devOnly] else [].

(** A source map reader that attributes every position to the first
    source of the map. *)
Definition first_source : TraceMapping :=
  {| TraceMap := SourceMap;
     new_TraceMap m _ := m;
     originalPositionFor tm _ _ := head (sm_sources tm) |}.

Definition chunk_without_map : OutputChunk :=
  {| chunk_code := "stray-devOnly";
     moduleIds := Some ["/app/a.ts"; "/app/b.ts"];
     modules := None; chunk_map := None; sourcemapFileName := None;
     fileName := "index.js" |}.

Definition chunk_with_map : OutputChunk :=
  {| chunk_code := "stray-devOnly";
     moduleIds := Some ["/app/a.ts"; "/app/b.ts"];
     modules := None;
     chunk_map := Some {| sm_sources := ["/app/a.ts"]; sm_mappings := "AAAA" |};
     sourcemapFileName := None;
     fileName := "index.js" |}.

Definition stylesheet : OutputAsset :=
  {| asset_fileName := "index.css"; asset_source := "body {}" |}.

(** The reference the linter reports in the fixture chunks. *)
Definition stray_ref : UndefinedRef :=
  {| name := "devOnly"; line := Some 3; column := Some 1 |}.

(** [devOnly] stripped from a.ts and from b.ts. *)
Definition stripped_in_a_and_b : gmap string (list string) :=
  {["devOnly" := ["/app/b.ts"; "/app/a.ts"]]}.

(** [devOnly] recorded twice for a.ts. *)
Definition stripped_twice_in_a : gmap string (list string) :=
  {["devOnly" := ["/app/b.ts"; "/app/a.ts"; "/app/a.ts"]]}.

Definition bundle_without_map : Bundle :=
  [("index.css", Asset stylesheet); ("index.js", Chunk chunk_without_map)].

(** The hooks of a build of a.ts and b.ts. *)
Definition build_a_and_b : list HookCall :=
  [CallConfig None production; CallConfigResolved app_config; CallBuildStart;
   CallTransform "namespace-not-guarded" "/app/b.ts" [Settle 0];
   CallTransform "namespace-not-guarded" "/app/a.ts" [Settle 0]].

End Fixtures.

(** * Properties *)

(** ** JavaScript primitives *)

Module JsFacts.
Import Js.

#[export] Instance str_le_total : Total str_le.
Proof. intros a b. unfold str_le. apply String.leb_total. Qed.

(** [sort] returns its argument rearranged, in order. *)
Lemma sort_sorted (xs : list string) : Sorted str_le (sort xs).
Proof. apply Sorted_merge_sort, _. Qed.

Lemma sort_permutation (xs : list string) : sort xs ≡ₚ xs.
Proof. apply merge_sort_Permutation. Qed.

Lemma sort_singleton (x : string) : sort [x] = [x].
Proof. reflexivity. Qed.

Lemma join_singleton (sep x : string) : join sep [x] = x.
Proof. reflexivity. Qed.

Lemma append_assoc (a b c : string) : (a +:+ b) +:+ c = a +:+ (b +:+ c).
Proof.
  induction a as [|ch a IH]; [reflexivity|].
  change (String ch ((a +:+ b) +:+ c) = String ch (a +:+ (b +:+ c))).
  by rewrite IH.
Qed.

Lemma length_append (a b : string) :
  String.length (a +:+ b) = String.length a + String.length b.
Proof.
  induction a as [|ch a IH]; [reflexivity|].
  change (S (String.length (a +:+ b)) = S (String.length a + String.length b)).
  by rewrite IH.
Qed.

Lemma substring_all (s : string) : String.substring 0 (String.length s) s = s.
Proof. induction s as [|ch s IH]; simpl; [done | by rewrite IH]. Qed.

Lemma substring_append (a b : string) :
  String.substring (String.length a) (String.length b) (a +:+ b) = b.
Proof.
  induction a as [|ch a IH]; [apply substring_all|].
  change (String.substring (String.length a) (String.length b) (a +:+ b) = b).
  exact IH.
Qed.

Lemma substring_split (s : string) (n k : nat) :
  n + k = String.length s ->
  s = String.substring 0 n s +:+ String.substring n k s.
Proof.
  revert n. induction s as [|ch s IH]; intros n Hlen; simpl in Hlen.
  - assert (n = 0) as -> by lia. assert (k = 0) as -> by lia. reflexivity.
  - destruct n as [|n].
    + simpl in Hlen. subst k.
      change (String ch s = String.substring 0 (S (String.length s)) (String ch s)).
      simpl. by rewrite substring_all.
    + change (String ch s
              = String ch (String.substring 0 n s +:+ String.substring n k s)).
      f_equal. apply IH. lia.
Qed.

(** [endsWith] holds exactly of the strings with that suffix. *)
Lemma endsWith_spec (s p : string) :
  endsWith s p = true <-> exists stem, s = stem +:+ p.
Proof.
  unfold endsWith. split.
  - destruct (Nat.leb_spec (String.length p) (String.length s)) as [Hle|]; [|done].
    intros Heq. apply String.eqb_eq in Heq.
    exists (String.substring 0 (String.length s - String.length p) s).
    transitivity
      (String.substring 0 (String.length s - String.length p) s
         +:+ String.substring (String.length s - String.length p) (String.length p) s).
    + apply substring_split. lia.
    + by rewrite Heq.
  - intros (stem & ->). rewrite length_append.
    destruct (Nat.leb_spec (String.length p) (String.length stem + String.length p))
      as [_|]; [|lia].
    replace (String.length stem + String.length p - String.length p)
      with (String.length stem) by lia.
    rewrite substring_append. apply String.eqb_refl.
Qed.

Lemma truthy_Some (o : option string) (s : string) :
  truthy o = Some s <-> o = Some s /\ s <> EmptyString.
Proof.
  destruct o as [[|c r]|]; simpl.
  - split; [discriminate | intros [[= <-] Hne]; congruence].
  - split; [intros [= <-]; split; [reflexivity | discriminate] | intros [[= <-] _]; reflexivity].
  - split; [discriminate | intros [? _]; discriminate].
Qed.

Lemma set_add_elem (x y : string) (s : list string) :
  y ∈ set_add x s <-> y = x \/ y ∈ s.
Proof.
  unfold set_add. case_decide.
  - split; [auto | intros [-> | ?]; auto].
  - rewrite elem_of_app, list_elem_of_singleton. tauto.
Qed.

Lemma set_add_nil (x : string) (s : list string) : set_add x s <> [].
Proof.
  unfold set_add. case_decide as H.
  - intros ->. by apply not_elem_of_nil in H.
  - destruct s; discriminate.
Qed.

End JsFacts.


(** ** The attribute extractor *)

Module ImportAttributesFacts.
Import Swc ImportAttributes.

(** A literal that denotes a value: a string, a boolean, a number or a
    BigInt. *)
Definition scalar_literal (v : Expression) : bool :=
  match v with
  | StringLiteral _ | BooleanLiteral _ | NumericLiteral _ | BigIntLiteral _ => true
  | _ => false
  end.

(** The value node of an entry written [key: value] or [key = value]. *)
Definition value_node (attr : Property) : option Expression :=
  match attr with
  | KeyValueProperty _ v | AssignmentProperty _ v => Some v
  | ShorthandProperty _ | MethodProperty _ | SpreadElement _ => None
  end.

(** An entry written [key: literal]. *)
Definition has_literal_value (attr : Property) : bool :=
  match attr with
  | KeyValueProperty _ v | AssignmentProperty _ v => scalar_literal v
  | _ => false
  end.

(** The nodes that carry a [value] field that is not [null]. *)
Definition key_has_value (k : PropertyName) : bool :=
  match k with
  | KeyIdentifier _ | KeyStringLiteral _ | KeyBigIntLiteral _
  | KeyNumericLiteral (Some _) => true
  | KeyNumericLiteral None | KeyComputed _ => false
  end.

Definition expression_has_value (v : Expression) : bool :=
  match v with
  | StringLiteral _ | BooleanLiteral _ | BigIntLiteral _ | JSXText _
  | Identifier _ | NumericLiteral (Some _) => true
  | NumericLiteral None | NullLiteral | TemplateLiteral _ | OtherExpression _ =>
      false
  end.

(** An entry with a key node and a value node that both carry a [value]
    field that is not [null]. *)
Definition readable (attr : Property) : bool :=
  match attr with
  | KeyValueProperty k v => key_has_value k && expression_has_value v
  | AssignmentProperty _ v => expression_has_value v
  | ShorthandProperty _ | MethodProperty _ | SpreadElement _ => false
  end.

(** [readable] is the test [key != null && val != null] of the loop. *)
Lemma readable_spec attr :
  readable attr = true
  <-> exists key val, getKey attr = Some key /\ getVal attr = Some val.
Proof.
  split.
  - destruct attr as [[s|s|[n|]|n|e] [s'|b|[n'|]|n'|s'|x| |r|t]
                     |k [s'|b|[n'|]|n'|s'|x| |r|t]|x|k|a];
      simpl; try done; eauto.
  - intros (key & val & Hk & Hv).
    destruct attr as [[s|s|[n|]|n|e] [s'|b|[n'|]|n'|s'|x| |r|t]
                     |k [s'|b|[n'|]|n'|s'|x| |r|t]|x|k|a];
      simpl in *; done.
Qed.

Section WithNumbers.
Context {number_to_string : NumberToString}.

(** The mapping read from the entries of one clause. *)
Definition attributes_of (props : list Property) : gmap string JsValue :=
  fold_left step props ∅.

(** The entry [attr] writes the property [k]. *)
Definition writes (k : string) (attr : Property) : Prop :=
  exists key v, getKey attr = Some key /\ getVal attr = Some v
                /\ property_key key = k.

Lemma step_unreadable out attr : readable attr = false -> step out attr = out.
Proof.
  intros Hno. unfold step.
  destruct (getKey attr) as [key|] eqn:Hk; [|done].
  destruct (getVal attr) as [val|] eqn:Hv; [|done].
  assert (Hyes : readable attr = true) by (apply readable_spec; eauto).
  congruence.
Qed.

Lemma fold_unreadable props out :
  Forall (fun attr => readable attr = false) props -> fold_left step props out = out.
Proof.
  intros Hall. revert out.
  induction Hall as [|attr props Hattr _ IH]; intros out; [done|].
  simpl. by rewrite step_unreadable.
Qed.

Lemma fold_readable props out :
  fold_left step props out
  = fold_left step (filter (fun attr => readable attr = true) props) out.
Proof.
  revert out. induction props as [|attr props IH]; intros out; [done|].
  rewrite filter_cons. case_decide as Hr; simpl.
  - apply IH.
  - rewrite step_unreadable by (by destruct (readable attr)). apply IH.
Qed.

(** A literal entry is read unless its key is computed or a number in it
    is not finite. *)
Lemma literal_is_readable attr :
  has_literal_value attr = true ->
  readable attr = true
  \/ (exists e v, attr = KeyValueProperty (KeyComputed e) v)
  \/ (exists v, attr = KeyValueProperty (KeyNumericLiteral None) v)
  \/ value_node attr = Some (NumericLiteral None).
Proof.
  destruct attr as [[s|s|[n|]|n|e] [s'|b|[n'|]|n'|s'|x| |r|t]
                   |k [s'|b|[n'|]|n'|s'|x| |r|t]|x|k|a];
    simpl; try done; eauto 6.
Qed.

Lemma step_lookup out attr k :
  step out attr !! k
  = match getKey attr, getVal attr with
    | Some key, Some v =>
        if String.eqb (property_key key) "__proto__" then out !! k
        else if decide (property_key key = k) then Some v else out !! k
    | _, _ => out !! k
    end.
Proof.
  unfold step, assign.
  destruct (getKey attr) as [key|]; [|done].
  destruct (getVal attr) as [v|]; [|done].
  destruct (String.eqb (property_key key) "__proto__"); [done|].
  case_decide as Hk.
  - subst k. by rewrite lookup_insert_eq.
  - by rewrite lookup_insert_ne.
Qed.

Lemma fold_sound props out k v :
  fold_left step props out !! k = Some v ->
  out !! k = Some v
  \/ exists attr key, attr ∈ props /\ getKey attr = Some key
                      /\ property_key key = k /\ getVal attr = Some v.
Proof.
  revert out. induction props as [|attr props IH]; intros out Hl; [by left|].
  simpl in Hl. apply IH in Hl as [Hl | (a & key & Hin & Hk & Hp & Hv)].
  - rewrite step_lookup in Hl.
    destruct (getKey attr) as [key|] eqn:Hkey; [|by left].
    destruct (getVal attr) as [v'|] eqn:Hval; [|by left].
    destruct (String.eqb (property_key key) "__proto__"); [by left|].
    case_decide as Hk; [|by left].
    right. exists attr, key. simplify_eq. repeat split; [left | done..].
  - right. exists a, key. repeat split; [by right | done..].
Qed.

Lemma fold_untouched props out k :
  (forall attr, attr ∈ props -> ~ writes k attr) ->
  fold_left step props out !! k = out !! k.
Proof.
  revert out. induction props as [|attr props IH]; intros out Hno; [done|].
  simpl. rewrite IH by (intros a Ha; apply Hno; by right).
  rewrite step_lookup.
  destruct (getKey attr) as [key|] eqn:Hkey; [|done].
  destruct (getVal attr) as [v|] eqn:Hval; [|done].
  destruct (String.eqb (property_key key) "__proto__"); [done|].
  case_decide as Hk; [|done].
  destruct (Hno attr); [left|]. by exists key, v.
Qed.

Lemma fold_no_proto props out :
  out !! "__proto__" = None -> fold_left step props out !! "__proto__" = None.
Proof.
  revert out. induction props as [|attr props IH]; intros out Hout; [done|].
  simpl. apply IH. rewrite step_lookup.
  destruct (getKey attr) as [key|]; [|done].
  destruct (getVal attr) as [v|]; [|done].
  destruct (String.eqb (property_key key) "__proto__") eqn:Heq; [done|].
  case_decide as Hk; [|done].
  rewrite Hk in Heq. discriminate.
Qed.

(** The last entry that writes a property gives it its value. *)
Lemma fold_last_write before attr after key v :
  getKey attr = Some key -> getVal attr = Some v ->
  property_key key <> "__proto__" ->
  (forall later, later ∈ after -> ~ writes (property_key key) later) ->
  fold_left step (before ++ attr :: after) ∅ !! property_key key = Some v.
Proof.
  intros Hkey Hval Hproto Hafter. rewrite fold_left_app. simpl.
  rewrite fold_untouched by done. rewrite step_lookup, Hkey, Hval.
  apply String.eqb_neq in Hproto. rewrite Hproto.
  by case_decide.
Qed.

(** C9, as the code has it. The extractor reads the [with] clause when
    there is one, whatever [asserts] holds, and the [asserts] clause
    otherwise; without either clause the mapping is empty. Entries without
    a key node and a value node that both carry a [value] field that is not
    [null] are passed over, so the mapping is empty when every entry is
    such. An entry whose value is a bare identifier is not passed over: it
    is mapped to the identifier's name, under its key when that is not
    [__proto__], unless a later entry writes the same property. The
    function is total: it raises nothing. *)
Theorem attributes_read_with_then_asserts (node : ImportDeclaration) :
  (forall w, with_ node = Some w ->
             getImportAttributes node = attributes_of (properties w))
  /\ (forall a, with_ node = None -> asserts node = Some a ->
                getImportAttributes node = attributes_of (properties a))
  /\ (with_ node = None -> asserts node = None -> getImportAttributes node = ∅)
  /\ (Forall (fun attr => readable attr = false) (getAttrList node) ->
      getImportAttributes node = ∅)
  /\ getImportAttributes node
     = attributes_of (filter (fun attr => readable attr = true) (getAttrList node))
  /\ (forall before attr after key x,
        getAttrList node = before ++ attr :: after ->
        value_node attr = Some (Identifier x) ->
        getKey attr = Some key ->
        property_key key <> "__proto__" ->
        (forall later, later ∈ after -> ~ writes (property_key key) later) ->
        getImportAttributes node !! property_key key = Some (VString x)).
Proof.
  unfold getImportAttributes, getAttrList, getWithObject, attributes_of.
  split; [by intros w ->|]. split; [by intros a -> ->|].
  split; [by intros -> ->|]. split; [apply fold_unreadable|].
  split; [apply fold_readable|].
  intros before attr after key x -> Hnode Hkey Hproto Hafter.
  apply fold_last_write; try done.
  destruct attr as [k v|k v|y|k|a]; simpl in Hnode |- *; by simplify_eq.
Qed.

End WithNumbers.
End ImportAttributesFacts.

(** ** The strip transform *)

Module TransformFacts.
Import Swc ImportAttributes Host Transform.

(** The import declarations the loop hands to the predicate. *)
Definition candidate (item : ModuleItem) : option ImportDeclaration :=
  match item with
  | ImportDeclarationItem node => if typeOnly node then None else Some node
  | OtherItem _ _ => None
  end.

(** How the entries of [body] relate to the statements once the loop is
    through. *)
Inductive aligned : ModuleItem -> Slot -> Prop :=
| aligned_plain item :
    candidate item = None -> aligned item (Plain item)
| aligned_waiting node s :
    typeOnly node = false -> aligned (ImportDeclarationItem node) (Waiting node s).

(** What an entry contributes to the result of [Promise.all] if it ever
    contributes: fixed when the entry is pushed. *)
Definition fate (s : Slot) : option (option ModuleItem) :=
  match s with
  | Plain item => Some (Some item)
  | Waiting node (Fulfils false) => Some (Some (ImportDeclarationItem node))
  | Waiting node (Fulfils true) => Some None
  | Waiting node (Rejects _) => None
  | Settled r => Some r
  | Failed _ => None
  end.

(** The predicate's decision for the statement at [pos] is "strip". *)
Definition decided_strip (slots : list Slot) (pos : nat) : bool :=
  match slots !! pos with
  | Some (Waiting _ (Fulfils true)) => true
  | _ => false
  end.

(** [results.filter(item => item != null)] *)
Definition compact (results : list (option ModuleItem)) : list ModuleItem :=
  omap (fun r => r) results.

(** The statements of [items] without those at a position [drop] marks,
    in the order of [items]. *)
Definition without (drop : nat -> bool) (items : list ModuleItem) : list ModuleItem :=
  compact (imap (fun pos item => if drop pos then None else Some item) items).

(** An entry of [body] as the loop left it, and the same entry later. *)
Inductive evolves : Slot -> Slot -> Prop :=
| evolves_same s : evolves s s
| evolves_kept node :
    evolves (Waiting node (Fulfils false))
            (Settled (Some (ImportDeclarationItem node)))
| evolves_stripped node :
    evolves (Waiting node (Fulfils true)) (Settled None)
| evolves_failed node e :
    evolves (Waiting node (Rejects e)) (Failed e).

(** The local names a list of specifiers binds. *)
Definition names (specs : list ImportSpecifier) : list string :=
  local_value <$> specs.

(** [n] is bound by an import whose callback has run and returned null. *)
Definition stripped_names (slots0 slots : list Slot) (n : string) : Prop :=
  exists pos node,
    slots0 !! pos = Some (Waiting node (Fulfils true))
    /\ slots !! pos = Some (Settled None)
    /\ n ∈ names (specifiers node).

Definition stripped_targets (slots0 slots : list Slot) (t : string) : Prop :=
  exists pos node,
    slots0 !! pos = Some (Waiting node (Fulfils true))
    /\ slots !! pos = Some (Settled None)
    /\ t = Swc.source node.

(** The state while promises settle, relative to the entries [slots0] the
    loop pushed. *)
Record gathered (slots0 : list Slot) (st : State) : Prop := {
  gathered_evolves : Forall2 evolves slots0 (body st);
  gathered_symbols : forall n, n ∈ symbols st <-> stripped_names slots0 (body st) n;
  gathered_targets : forall t, t ∈ targets st <-> stripped_targets slots0 (body st) t;
}.

(** The specifiers for which the resolver was called, in call order. *)
Definition resolve_calls (tr : list Effect) : list string :=
  omap (fun e => match e with EResolve t _ => Some t | _ => None end) tr.

(** The reads of the accessor: the specifier of the context read, and the
    promise the accessor returned. *)
Definition accessor_reads (tr : list Effect) : list (string * nat) :=
  omap (fun e => match e with
                 | EGetResolvedTarget _ t p => Some (t, p)
                 | _ => None
                 end) tr.

(** The resolve cache and the record of effects agree. *)
Record cache_ok (st : State) : Prop := {
  cache_ok_length : length (promises st) = length (resolve_calls (trace st));
  cache_ok_cache : forall t p,
    resolveCache st !! t = Some p <-> resolve_calls (trace st) !! p = Some t;
  cache_ok_reads : forall t p,
    (t, p) ∈ accessor_reads (trace st) -> resolveCache st !! t = Some p;
  cache_ok_calls : forall t,
    t ∈ resolve_calls (trace st) -> exists p, (t, p) ∈ accessor_reads (trace st);
}.

Lemma fate_aligned (items : list ModuleItem) (slots : list Slot)
    (results : list (option ModuleItem)) (f : nat -> ModuleItem -> option ModuleItem) :
  Forall2 aligned items slots ->
  Forall2 (fun s r => fate s = Some r) slots results ->
  (forall pos item node,
      items !! pos = Some item -> slots !! pos = Some (Waiting node (Fulfils true)) ->
      f pos item = None) ->
  (forall pos item,
      items !! pos = Some item ->
      (forall node, slots !! pos <> Some (Waiting node (Fulfils true))) ->
      f pos item = Some item) ->
  results = imap f items.
Proof.
  intros Hal. revert results f.
  induction Hal as [|item slot items slots Hhd _ IH]; intros results f Hfate Hs Hk.
  - by inversion Hfate.
  - inversion Hfate as [|? r ? results' Hr Hrest]; subst. simpl. f_equal.
    + destruct Hhd as [item Hc | node [[]|e] Ht]; simpl in Hr; simplify_eq.
      * symmetry. by apply Hk.
      * symmetry. by eapply Hs.
      * symmetry. by apply Hk.
    + apply IH; [done | |].
      * intros pos it node Hi Hw. by apply (Hs (S pos) it node).
      * intros pos it Hi Hw. by apply (Hk (S pos) it).
Qed.

Lemma without_sublist (drop : nat -> bool) (items : list ModuleItem) :
  sublist (without drop items) items.
Proof.
  unfold without, compact. revert drop.
  induction items as [|item items IH]; intros drop; simpl; [constructor|].
  destruct (drop 0); simpl.
  - apply sublist_cons, (IH (drop ∘ S)).
  - apply sublist_skip, (IH (drop ∘ S)).
Qed.

Lemma without_keeps (drop : nat -> bool) (items : list ModuleItem) pos item :
  items !! pos = Some item -> drop pos = false -> item ∈ without drop items.
Proof.
  unfold without, compact. revert drop pos.
  induction items as [|x items IH]; intros drop pos Hl Hd; [done|].
  destruct pos as [|pos]; simpl in *.
  - simplify_eq. rewrite Hd. simpl. left.
  - assert (item ∈ omap (fun r => r)
              (imap (fun p it => if (drop ∘ S) p then None else Some it) items))
      by (by apply (IH (drop ∘ S) pos)).
    destruct (drop 0); simpl; [done | by right].
Qed.

Lemma without_none (items : list ModuleItem) :
  without (fun _ => false) items = items.
Proof.
  unfold without, compact. induction items as [|x items IH]; [done|].
  simpl. f_equal. exact IH.
Qed.

Section OneFile.
Context {node_path : NodePath} {swc_core : SwcCore} {resolver : Resolver}
        {number_to_string : NumberToString}.
Variable id : string.
Variable shouldStrip : ShouldStripFn.
Variable context : TransformContext.

(** *** Reading the accessor leaves the rest of the state alone *)

Lemma read_resolvedTarget_frame pos t st :
  let st' := read_resolvedTarget id context pos t st in
  body st' = body st /\ targets st' = targets st /\ symbols st' = symbols st
  /\ calls st' = calls st /\ thrown st' = thrown st /\ rejected st' = rejected st.
Proof.
  unfold read_resolvedTarget, get_resolvedTarget.
  destruct (resolveCache st !! t); simpl; repeat split.
Qed.

Lemma iter_read_frame n pos t st :
  let st' := Nat.iter n (read_resolvedTarget id context pos t) st in
  body st' = body st /\ targets st' = targets st /\ symbols st' = symbols st
  /\ calls st' = calls st /\ thrown st' = thrown st /\ rejected st' = rejected st.
Proof.
  induction n as [|n IH]; simpl; [repeat split|].
  destruct IH as (Hb & Ht & Hs & Hc & Hth & Hr).
  destruct (read_resolvedTarget_frame pos t
              (Nat.iter n (read_resolvedTarget id context pos t) st))
    as (Hb' & Ht' & Hs' & Hc' & Hth' & Hr').
  simpl in *. repeat split; congruence.
Qed.

Lemma read_frame parsed pos st :
  let st' := read id context parsed pos st in
  body st' = body st /\ targets st' = targets st /\ symbols st' = symbols st
  /\ calls st' = calls st /\ thrown st' = thrown st /\ rejected st' = rejected st.
Proof.
  unfold read.
  destruct (parsed !! pos) as [[node|]|]; try (simpl; repeat split; fail).
  destruct (typeOnly node); [simpl; repeat split|].
  case_decide; [apply read_resolvedTarget_frame | simpl; repeat split].
Qed.

(** *** The loop *)

Lemma scatter_aligned items st done :
  Forall2 aligned done (body st) ->
  thrown (scatter id shouldStrip context items st) = None ->
  Forall2 aligned (done ++ items) (body (scatter id shouldStrip context items st)).
Proof.
  revert st done.
  induction items as [|item items IH]; intros st done Hal Hth; simpl in *.
  - by rewrite app_nil_r.
  - rewrite cons_middle, app_assoc.
    destruct item as [node|ty text].
    + destruct (typeOnly node) eqn:Hty.
      * apply IH; [|done]. simpl. apply Forall2_app; [done|].
        repeat constructor. simpl. by rewrite Hty.
      * set (pos := length (body st)) in *.
        set (ctx := make_ctx id context node) in *.
        set (st1 := count_call (log [EShouldStrip pos ctx] st)) in *.
        destruct (iter_read_frame (syncReads (shouldStrip (calls st) ctx))
                    pos (Swc.source node) st1) as (Hb & _).
        destruct (returned (shouldStrip (calls st) ctx)) as [e|s]; [done|].
        apply IH; [|done]. simpl. rewrite Hb. simpl.
        apply Forall2_app; [done|]. repeat constructor. done.
    + apply IH; [|done]. simpl. apply Forall2_app; [done|]. by repeat constructor.
Qed.

(** *** Settling *)

Lemma settle_fate pos st : fate <$> body (settle pos st) = fate <$> body st.
Proof.
  unfold settle.
  destruct (body st !! pos) as [[item|node [[]|e]|r|e]|] eqn:Hpos; try done.
  - simpl. rewrite list_fmap_insert. apply list_insert_id.
    by rewrite list_lookup_fmap, Hpos.
  - simpl. rewrite list_fmap_insert. apply list_insert_id.
    by rewrite list_lookup_fmap, Hpos.
  - destruct (rejected st); simpl; rewrite list_fmap_insert; apply list_insert_id;
      by rewrite list_lookup_fmap, Hpos.
Qed.

Lemma gather_fate parsed sched st :
  fate <$> body (gather id context parsed sched st) = fate <$> body st.
Proof.
  revert st. induction sched as [|ev sched IH]; intros st; [done|].
  unfold gather in *. simpl. rewrite IH. destruct ev as [pos|pos]; simpl.
  - apply settle_fate.
  - by destruct (read_frame parsed pos st) as (-> & _).
Qed.

Lemma promise_all_values st results :
  promise_all st = Resolved results ->
  Forall2 (fun s r => slot_value s = Some r) (body st) results.
Proof.
  unfold promise_all. destruct (rejected st); [done|].
  destruct (mapM slot_value (body st)) as [rs|] eqn:Hm; [|done].
  intros [= <-]. by apply mapM_Some in Hm.
Qed.

Lemma slot_value_fate s r : slot_value s = Some r -> fate s = Some r.
Proof. destruct s as [item|node st|r'|e]; simpl; congruence. Qed.

(** *** What the callbacks have recorded *)

Lemma names_fold (specs : list ImportSpecifier) (syms : list string) (n : string) :
  n ∈ fold_left (fun s spec => Js.set_add (local_value spec) s) specs syms
  <-> n ∈ names specs \/ n ∈ syms.
Proof.
  unfold names. revert syms.
  induction specs as [|spec specs IH]; intros syms; simpl.
  - split; [auto | intros [Hn|Hn]; [by apply not_elem_of_nil in Hn | done]].
  - rewrite IH, JsFacts.set_add_elem, elem_of_cons. tauto.
Qed.

Lemma evolves_waiting s0 node s : evolves s0 (Waiting node s) -> s0 = Waiting node s.
Proof. by inversion 1. Qed.

Lemma evolves_insert slots0 slots pos node s new :
  Forall2 evolves slots0 slots ->
  slots !! pos = Some (Waiting node s) ->
  evolves (Waiting node s) new ->
  Forall2 evolves slots0 (<[pos := new]> slots)
  /\ slots0 !! pos = Some (Waiting node s).
Proof.
  intros Hev Hpos Hnew.
  destruct (Forall2_lookup_r _ _ _ _ _ Hev Hpos) as (s0 & Hs0 & Hs).
  apply evolves_waiting in Hs. subst s0. split; [|done].
  rewrite <- (list_insert_id slots0 pos (Waiting node s)) by done.
  by apply Forall2_insert.
Qed.

Lemma gathered_settle slots0 pos st :
  gathered slots0 st -> gathered slots0 (settle pos st).
Proof.
  intros [Hev Hsym Htar]. unfold settle.
  destruct (body st !! pos) as [[item|node [[]|e]|r|e]|] eqn:Hpos;
    try (by constructor).
  - (* strip *)
    destruct (evolves_insert _ _ _ _ _ (Settled None) Hev Hpos) as [Hev' Hs0];
      [constructor|].
    assert (Hlt : pos < length (body st)) by (by eapply lookup_lt_Some).
    constructor; simpl; [done | |].
    + intros n. rewrite names_fold, Hsym. unfold stripped_names. split.
      * intros [Hn | (p & nd & Hp0 & Hp & Hn)].
        -- exists pos, node. by rewrite list_lookup_insert_eq.
        -- exists p, nd. rewrite list_lookup_insert_ne; [done|]. congruence.
      * intros (p & nd & Hp0 & Hp & Hn). destruct (decide (p = pos)) as [->|Hne].
        -- left. congruence.
        -- right. exists p, nd. by rewrite list_lookup_insert_ne in Hp.
    + intros t. rewrite JsFacts.set_add_elem, Htar. unfold stripped_targets. split.
      * intros [-> | (p & nd & Hp0 & Hp & Hn)].
        -- exists pos, node. by rewrite list_lookup_insert_eq.
        -- exists p, nd. rewrite list_lookup_insert_ne; [done|]. congruence.
      * intros (p & nd & Hp0 & Hp & Hn). destruct (decide (p = pos)) as [->|Hne].
        -- left. congruence.
        -- right. exists p, nd. by rewrite list_lookup_insert_ne in Hp.
  - (* keep *)
    destruct (evolves_insert _ _ _ _ _ (Settled (Some (ImportDeclarationItem node)))
                Hev Hpos) as [Hev' Hs0]; [constructor|].
    assert (Hlt : pos < length (body st)) by (by eapply lookup_lt_Some).
    constructor; simpl; [done | |].
    + intros n. rewrite Hsym. unfold stripped_names. split.
      * intros (p & nd & Hp0 & Hp & Hn). exists p, nd.
        rewrite list_lookup_insert_ne; [done|]. congruence.
      * intros (p & nd & Hp0 & Hp & Hn). exists p, nd.
        destruct (decide (p = pos)) as [->|Hne].
        -- by rewrite list_lookup_insert_eq in Hp.
        -- by rewrite list_lookup_insert_ne in Hp.
    + intros t. rewrite Htar. unfold stripped_targets. split.
      * intros (p & nd & Hp0 & Hp & Hn). exists p, nd.
        rewrite list_lookup_insert_ne; [done|]. congruence.
      * intros (p & nd & Hp0 & Hp & Hn). exists p, nd.
        destruct (decide (p = pos)) as [->|Hne].
        -- by rewrite list_lookup_insert_eq in Hp.
        -- by rewrite list_lookup_insert_ne in Hp.
  - (* reject *)
    destruct (evolves_insert _ _ _ _ _ (Failed e) Hev Hpos) as [Hev' Hs0];
      [constructor|].
    assert (Hlt : pos < length (body st)) by (by eapply lookup_lt_Some).
    assert (gathered slots0 (set_body (<[pos:=Failed e]> (body st)) st)) as Hg.
    { constructor; simpl; [done | |].
      + intros n. rewrite Hsym. unfold stripped_names. split.
        * intros (p & nd & Hp0 & Hp & Hn). exists p, nd.
          rewrite list_lookup_insert_ne; [done|]. congruence.
        * intros (p & nd & Hp0 & Hp & Hn). exists p, nd.
          destruct (decide (p = pos)) as [->|Hne].
          -- by rewrite list_lookup_insert_eq in Hp.
          -- by rewrite list_lookup_insert_ne in Hp.
      + intros t. rewrite Htar. unfold stripped_targets. split.
        * intros (p & nd & Hp0 & Hp & Hn). exists p, nd.
          rewrite list_lookup_insert_ne; [done|]. congruence.
        * intros (p & nd & Hp0 & Hp & Hn). exists p, nd.
          destruct (decide (p = pos)) as [->|Hne].
          -- by rewrite list_lookup_insert_eq in Hp.
          -- by rewrite list_lookup_insert_ne in Hp. }
    destruct (rejected st); [done|]. destruct Hg. by constructor.
Qed.

Lemma gathered_read slots0 parsed pos st :
  gathered slots0 st -> gathered slots0 (read id context parsed pos st).
Proof.
  intros [Hev Hsym Htar].
  destruct (read_frame parsed pos st) as (Hb & Ht & Hs & _).
  constructor; simpl in *.
  - by rewrite Hb.
  - intros n. by rewrite Hs, Hb.
  - intros t. by rewrite Ht, Hb.
Qed.

Lemma gathered_gather slots0 parsed sched st :
  gathered slots0 st -> gathered slots0 (gather id context parsed sched st).
Proof.
  revert st. induction sched as [|[pos|pos] sched IH]; intros st Hg; [done| |].
  - apply IH. by apply gathered_settle.
  - apply IH. by apply gathered_read.
Qed.

Lemma scatter_untouched items st :
  let st' := scatter id shouldStrip context items st in
  symbols st' = symbols st /\ targets st' = targets st /\ rejected st' = rejected st.
Proof.
  revert st. induction items as [|[node|ty text] items IH]; intros st; simpl;
    [done| |].
  - destruct (typeOnly node); [apply (IH (push _ st))|].
    set (pos := length (body st)).
    set (ctx := make_ctx id context node).
    set (st1 := count_call (log [EShouldStrip pos ctx] st)).
    destruct (iter_read_frame (syncReads (shouldStrip (calls st) ctx))
                pos (Swc.source node) st1) as (_ & Ht & Hs & _ & _ & Hr).
    destruct (returned (shouldStrip (calls st) ctx)) as [e|s].
    + simpl. by rewrite Ht, Hs, Hr.
    + destruct (IH (push (Waiting node s)
                      (Nat.iter (syncReads (shouldStrip (calls st) ctx))
                         (read_resolvedTarget id context pos (Swc.source node)) st1)))
        as (-> & -> & ->).
      simpl. by rewrite Ht, Hs, Hr.
  - apply (IH (push _ st)).
Qed.

Lemma settle_thrown pos st : thrown (settle pos st) = thrown st.
Proof.
  unfold settle.
  destruct (body st !! pos) as [[item|node [[]|e]|r|e]|]; try done.
  by destruct (rejected st).
Qed.

Lemma gather_thrown parsed sched st :
  thrown (gather id context parsed sched st) = thrown st.
Proof.
  revert st. induction sched as [|[pos|pos] sched IH]; intros st; [done| |];
    unfold gather in *; simpl; rewrite IH.
  - apply settle_thrown.
  - by destruct (read_frame parsed pos st) as (_ & _ & _ & _ & -> & _).
Qed.

Lemma aligned_gathered parsed st :
  Forall2 aligned parsed (body st) -> symbols st = [] -> targets st = [] ->
  gathered (body st) st.
Proof.
  intros Hal Hs Ht. constructor.
  - apply Forall2_same_length_lookup_2; [done|].
    intros i x y Hx Hy. simplify_eq. constructor.
  - intros n. rewrite Hs. split; [by intros ?%not_elem_of_nil|].
    intros (pos & node & H1 & H2 & _). congruence.
  - intros t. rewrite Ht. split; [by intros ?%not_elem_of_nil|].
    intros (pos & node & H1 & H2 & _). congruence.
Qed.

(** The statements the transform keeps, by position: all but the imports
    the predicate decided to strip. *)
Definition retained (parsed : list ModuleItem) : list ModuleItem :=
  without (decided_strip (body (scatter id shouldStrip context parsed init))) parsed.

(** [n] is bound by an import the predicate decided to strip. *)
Definition stripped_symbol (parsed : list ModuleItem) (n : string) : Prop :=
  exists pos node,
    body (scatter id shouldStrip context parsed init) !! pos
      = Some (Waiting node (Fulfils true))
    /\ n ∈ names (specifiers node).

(** Once every promise is fulfilled, the results and the recorded names
    are those the loop fixed: the schedule has no part in them. *)
Lemma run_resolved parsed sched results :
  thrown (run_state id shouldStrip context parsed sched) = None ->
  promise_all (run_state id shouldStrip context parsed sched) = Resolved results ->
  compact results = retained parsed
  /\ (forall n, n ∈ symbols (run_state id shouldStrip context parsed sched)
                <-> stripped_symbol parsed n).
Proof.
  unfold run_state. set (st1 := scatter id shouldStrip context parsed init).
  intros Hth Hall.
  rewrite gather_thrown in Hth.
  pose proof (scatter_aligned parsed init [] (Forall2_nil_2 _ _ aligned) Hth) as Hal.
  simpl in Hal. fold st1 in Hal.
  destruct (scatter_untouched parsed init) as (Hsym & Htar & _).
  simpl in Hsym, Htar. fold st1 in Hsym, Htar.
  pose proof (gathered_gather _ parsed sched _ (aligned_gathered _ _ Hal Hsym Htar))
    as [Hev Hsyms _].
  apply promise_all_values in Hall.
  assert (Hfate : Forall2 (fun s r => fate s = Some r) (body st1) results).
  { apply (Forall2_fmap_1 fate Some eq), list_eq_Forall2.
    rewrite <- (gather_fate parsed sched st1).
    apply list_eq_Forall2, Forall2_fmap_2.
    eapply Forall2_impl; [exact Hall|]. apply slot_value_fate. }
  split.
  - unfold retained, without. fold st1. f_equal.
    apply (fate_aligned parsed (body st1)); [done..| |].
    + intros pos item node _ Hw. unfold decided_strip. by rewrite Hw.
    + intros pos item _ Hw. unfold decided_strip.
      destruct (body st1 !! pos) as [[|nd [[]|]| |]|]; try done.
      by destruct (Hw nd).
  - intros n. rewrite Hsyms. unfold stripped_names, stripped_symbol. fold st1.
    split.
    + intros (pos & node & H0 & _ & Hn). eauto.
    + intros (pos & node & H0 & Hn). exists pos, node. split; [done|]. split; [|done].
      destruct (Forall2_lookup_l _ _ _ _ _ Hev H0) as (s & Hs & Hevs).
      destruct (Forall2_lookup_l _ _ _ _ _ Hall Hs) as (r & _ & Hr).
      inversion Hevs; subst; simpl in Hr; done.
Qed.

(** The name under which the file is printed. *)
Definition filename : string := relativeToRoot id (root (tc_config context)).

(** What a fulfilled transform returns, up to the order in which the
    stripped names were recorded. *)
Definition resolved_as (parsed : list ModuleItem) (res : option TransformResult)
    : Prop :=
  match res with
  | None => forall n, ~ stripped_symbol parsed n
  | Some r =>
      (Transform.code r, Transform.map r) = print (retained parsed) filename
      /\ relativeSource r = filename
      /\ (exists n, stripped_symbol parsed n)
      /\ (forall n, n ∈ strippedImportSymbols r <-> stripped_symbol parsed n)
  end.

Lemma transform_parsed_resolved parsed sched res :
  outcome (transform_parsed id shouldStrip context parsed sched) = Resolved res ->
  mod_body (transform_parsed id shouldStrip context parsed sched)
    = Some (retained parsed)
  /\ resolved_as parsed res.
Proof.
  unfold transform_parsed.
  destruct (thrown (run_state id shouldStrip context parsed sched)) eqn:Hth;
    [done|].
  destruct (promise_all (run_state id shouldStrip context parsed sched))
    as [|e|results] eqn:Hall; [done..|].
  destruct (run_resolved parsed sched results Hth Hall) as [Hkept Hsyms].
  fold (compact results). rewrite Hkept.
  destruct (symbols (run_state id shouldStrip context parsed sched))
    as [|n syms] eqn:Hs; simpl.
  - intros [= <-]. split; [done|]. simpl.
    intros n Hn. apply Hsyms in Hn. by apply not_elem_of_nil in Hn.
  - intros [= <-]. split; [done|]. simpl. fold filename.
    split; [by destruct (print (retained parsed) filename)|].
    split; [done|]. split; [|done].
    exists n. apply Hsyms. left.
Qed.

Lemma resolved_as_agree parsed res res' :
  resolved_as parsed res -> resolved_as parsed res' ->
  Transform.code <$> res' = Transform.code <$> res
  /\ Transform.map <$> res' = Transform.map <$> res.
Proof.
  destruct res as [r|], res' as [r'|]; simpl.
  - intros (Hp & _) (Hp' & _). rewrite <- Hp in Hp'.
    injection Hp' as -> ->. done.
  - intros (_ & _ & (n & Hn) & _) Hno. by destruct (Hno n).
  - intros Hno (_ & _ & (n & Hn) & _). by destruct (Hno n).
  - done.
Qed.

Lemma transform_resolved text sched res :
  outcome (transform id shouldStrip context text sched) = Resolved res ->
  exists parsed,
    parse text (Js.endsWith id ".tsx") = inr parsed
    /\ mod_body (transform id shouldStrip context text sched)
       = Some (retained parsed)
    /\ resolved_as parsed res.
Proof.
  unfold transform.
  destruct (parse text (Js.endsWith id ".tsx")) as [e|parsed]; [done|].
  simpl. intros Hres. exists parsed. split; [done|].
  by apply transform_parsed_resolved.
Qed.

(** C1. Whatever the order in which the predicate's promises settle, a
    transform that completes leaves the statements it retains in their
    source order: the new body is the parsed body without the imports the
    predicate decided to strip, position by position, the printed code is
    the print of that body, and any other completion order yields the same
    body, code and map. *)
Theorem retained_statements_keep_source_order text sched res :
  outcome (transform id shouldStrip context text sched) = Resolved res ->
  exists parsed,
    parse text (Js.endsWith id ".tsx") = inr parsed
    /\ mod_body (transform id shouldStrip context text sched)
       = Some (retained parsed)
    /\ sublist (retained parsed) parsed
    /\ (forall r, res = Some r ->
          (Transform.code r, Transform.map r) = print (retained parsed) filename)
    /\ (forall sched' res',
          outcome (transform id shouldStrip context text sched') = Resolved res' ->
          mod_body (transform id shouldStrip context text sched')
            = mod_body (transform id shouldStrip context text sched)
          /\ Transform.code <$> res' = Transform.code <$> res
          /\ Transform.map <$> res' = Transform.map <$> res).
Proof.
  intros Hres.
  destruct (transform_resolved text sched res Hres) as (parsed & Hp & Hbody & Has).
  exists parsed. split; [done|]. split; [done|].
  split; [apply without_sublist|]. split.
  - intros r ->. by destruct Has.
  - intros sched' res' Hres'.
    destruct (transform_resolved text sched' res' Hres')
      as (parsed' & Hp' & Hbody' & Has').
    rewrite Hp in Hp'. simplify_eq. split; [congruence|].
    by apply (resolved_as_agree parsed').
Qed.

(** *** The effects of a run *)

(** The effects the state records are calls of the predicate on contexts
    of imports that are not type-only, reads of the accessor of such a
    context, and calls of the resolver for this file. *)
Definition ok_effect (parsed : list ModuleItem) (e : Effect) : Prop :=
  match e with
  | EShouldStrip pos ctx =>
      exists node, parsed !! pos = Some (ImportDeclarationItem node)
                   /\ typeOnly node = false /\ ctx = make_ctx id context node
  | EGetResolvedTarget pos t _ =>
      exists node, parsed !! pos = Some (ImportDeclarationItem node)
                   /\ typeOnly node = false /\ t = Swc.source node
  | EResolve _ importer => importer = id
  | EParse _ _ | EPrint _ _ => False
  end.

Lemma read_resolvedTarget_trace pos t st :
  exists p,
    trace (read_resolvedTarget id context pos t st)
    = trace st ++ [EGetResolvedTarget pos t p]
    \/ trace (read_resolvedTarget id context pos t st)
       = trace st ++ [EResolve t id; EGetResolvedTarget pos t p].
Proof.
  unfold read_resolvedTarget, get_resolvedTarget.
  destruct (resolveCache st !! t) as [p|]; simpl.
  - exists p. by left.
  - exists (length (promises st)). right. by rewrite <- app_assoc.
Qed.

Lemma read_resolvedTarget_ok parsed pos node st :
  parsed !! pos = Some (ImportDeclarationItem node) -> typeOnly node = false ->
  Forall (ok_effect parsed) (trace st) ->
  Forall (ok_effect parsed)
    (trace (read_resolvedTarget id context pos (Swc.source node) st)).
Proof.
  intros Hpos Hty Hok.
  destruct (read_resolvedTarget_trace pos (Swc.source node) st) as (p & [-> | ->]);
    apply Forall_app; (split; [done|]); repeat constructor; simpl; eauto.
Qed.

Lemma iter_read_ok parsed pos node n st :
  parsed !! pos = Some (ImportDeclarationItem node) -> typeOnly node = false ->
  Forall (ok_effect parsed) (trace st) ->
  Forall (ok_effect parsed)
    (trace (Nat.iter n (read_resolvedTarget id context pos (Swc.source node)) st)).
Proof.
  intros Hpos Hty Hok. induction n as [|n IH]; [done|].
  simpl. by apply read_resolvedTarget_ok.
Qed.

Lemma scatter_ok items st before :
  length (body st) = length before ->
  Forall (ok_effect (before ++ items)) (trace st) ->
  Forall (ok_effect (before ++ items)) (trace (scatter id shouldStrip context items st)).
Proof.
  revert st before.
  induction items as [|item items IH]; intros st before Hlen Hok; [done|].
  assert (Hitem : (before ++ item :: items) !! length (body st) = Some item)
    by (rewrite Hlen; apply list_lookup_middle; done).
  rewrite cons_middle, app_assoc in Hok |- *.
  assert (Hpush : forall s st', body st' = body st ->
            length (body (push s st')) = length (before ++ [item])).
  { intros s st' Hb. simpl. rewrite Hb, !length_app. simpl. lia. }
  simpl. destruct item as [node|ty text].
  - destruct (typeOnly node) eqn:Hty; [by apply IH; [apply Hpush|]|].
    set (pos := length (body st)) in *.
    set (ctx := make_ctx id context node) in *.
    set (st1 := count_call (log [EShouldStrip pos ctx] st)) in *.
    assert (Hok1 : Forall (ok_effect ((before ++ [ImportDeclarationItem node]) ++ items))
                     (trace st1)).
    { simpl. apply Forall_app. split; [done|]. repeat constructor. simpl.
      exists node. by rewrite <- app_assoc, <- cons_middle. }
    rewrite <- app_assoc, <- cons_middle in Hok1.
    pose proof (iter_read_ok _ pos node
                  (syncReads (shouldStrip (calls st) ctx)) st1 Hitem Hty Hok1) as Hok2.
    destruct (iter_read_frame (syncReads (shouldStrip (calls st) ctx))
                pos (Swc.source node) st1) as (Hb & _).
    rewrite cons_middle, app_assoc in Hok2.
    destruct (returned (shouldStrip (calls st) ctx)) as [e|s]; [done|].
    apply IH; [|done]. by apply Hpush.
  - by apply IH; [apply Hpush|].
Qed.

Lemma settle_trace pos st : trace (settle pos st) = trace st.
Proof.
  unfold settle.
  destruct (body st !! pos) as [[item|node [[]|e]|r|e]|]; try done.
  by destruct (rejected st).
Qed.

Lemma gather_ok parsed sched st :
  Forall (ok_effect parsed) (trace st) ->
  Forall (ok_effect parsed) (trace (gather id context parsed sched st)).
Proof.
  revert st. induction sched as [|[pos|pos] sched IH]; intros st Hok; [done| |];
    apply IH; simpl.
  - by rewrite settle_trace.
  - unfold read. destruct (parsed !! pos) as [[node|]|] eqn:Hpos; try done.
    destruct (typeOnly node) eqn:Hty; [done|]. case_decide; [|done].
    by apply read_resolvedTarget_ok.
Qed.

Lemma run_state_ok parsed sched :
  Forall (ok_effect parsed) (trace (run_state id shouldStrip context parsed sched)).
Proof.
  apply gather_ok. apply (scatter_ok parsed init []); [done | constructor].
Qed.

(** *** The resolve cache *)

Lemma resolve_calls_app tr tr' :
  resolve_calls (tr ++ tr') = resolve_calls tr ++ resolve_calls tr'.
Proof. apply omap_app. Qed.

Lemma accessor_reads_app tr tr' :
  accessor_reads (tr ++ tr') = accessor_reads tr ++ accessor_reads tr'.
Proof. apply omap_app. Qed.

Lemma cache_ok_frame st st' :
  resolveCache st' = resolveCache st -> promises st' = promises st ->
  resolve_calls (trace st') = resolve_calls (trace st) ->
  accessor_reads (trace st') = accessor_reads (trace st) ->
  cache_ok st -> cache_ok st'.
Proof.
  intros Hc Hp Hr Ha [H1 H2 H3 H4].
  constructor; rewrite ?Hc, ?Hp, ?Hr, ?Ha; done.
Qed.

Lemma cache_ok_read pos t st :
  cache_ok st -> cache_ok (read_resolvedTarget id context pos t st).
Proof.
  intros [Hlen Hcache Hreads Hcalls].
  unfold read_resolvedTarget, get_resolvedTarget.
  destruct (resolveCache st !! t) as [p|] eqn:Hhit; simpl.
  - constructor; simpl;
      rewrite ?resolve_calls_app, ?accessor_reads_app; simpl;
      rewrite ?app_nil_r; try done.
    + intros t' p' [Hin | Hin%list_elem_of_singleton]%elem_of_app; [auto|].
      by simplify_eq.
    + intros t' Hin. destruct (Hcalls t' Hin) as (p' & Hp').
      exists p'. apply elem_of_app. by left.
  - set (p := length (promises st)).
    assert (Hp : p = length (resolve_calls (trace st))) by done.
    constructor; simpl;
      rewrite ?resolve_calls_app, ?accessor_reads_app; simpl;
      rewrite ?resolve_calls_app, ?accessor_reads_app; simpl;
      rewrite ?app_nil_r.
    + rewrite !length_app. simpl. lia.
    + intros t' p'. destruct (decide (t = t')) as [<-|Hne].
      * rewrite lookup_insert_eq. split.
        -- intros [= <-]. fold p. rewrite Hp. by apply list_lookup_middle.
        -- intros Hl. f_equal. fold p.
           destruct (decide (p' < length (resolve_calls (trace st)))) as [Hlt|Hge].
           ++ rewrite lookup_app_l in Hl by done.
              apply Hcache in Hl. congruence.
           ++ apply lookup_lt_Some in Hl. rewrite length_app in Hl. simpl in Hl. lia.
      * rewrite lookup_insert_ne by done. rewrite Hcache. split.
        -- intros Hl. rewrite lookup_app_l; [done|]. by eapply lookup_lt_Some.
        -- intros Hl.
           destruct (decide (p' < length (resolve_calls (trace st)))) as [Hlt|Hge].
           ++ by rewrite lookup_app_l in Hl.
           ++ rewrite lookup_app_r in Hl by lia.
              destruct (p' - length (resolve_calls (trace st))) as [|k];
                simpl in Hl; [congruence | done].
    + intros t' p' [Hin | Hin%list_elem_of_singleton]%elem_of_app.
      * apply Hreads in Hin. rewrite lookup_insert_ne; [done|]. congruence.
      * injection Hin as -> ->. by rewrite lookup_insert_eq.
    + intros t' [Hin | ->%list_elem_of_singleton]%elem_of_app.
      * destruct (Hcalls t' Hin) as (p' & Hp'). exists p'.
        apply elem_of_app. by left.
      * exists p. apply elem_of_app. right. by apply list_elem_of_singleton.
Qed.

Lemma cache_ok_iter n pos t st :
  cache_ok st -> cache_ok (Nat.iter n (read_resolvedTarget id context pos t) st).
Proof. intros Hok. induction n as [|n IH]; [done|]. by apply cache_ok_read. Qed.

Lemma cache_ok_scatter items st :
  cache_ok st -> cache_ok (scatter id shouldStrip context items st).
Proof.
  revert st. induction items as [|[node|ty text] items IH]; intros st Hok; simpl;
    [done| |].
  - destruct (typeOnly node).
    { apply IH. by apply (cache_ok_frame st). }
    set (pos := length (body st)).
    set (ctx := make_ctx id context node).
    assert (Hok1 : cache_ok (count_call (log [EShouldStrip pos ctx] st))).
    { apply (cache_ok_frame st); simpl;
        rewrite ?resolve_calls_app, ?accessor_reads_app; simpl;
        rewrite ?app_nil_r; done. }
    pose proof (cache_ok_iter (syncReads (shouldStrip (calls st) ctx)) pos
                  (Swc.source node) _ Hok1) as Hok2.
    destruct (returned (shouldStrip (calls st) ctx)) as [e|s].
    + by eapply cache_ok_frame; [..|exact Hok2].
    + apply IH. by eapply cache_ok_frame; [..|exact Hok2].
  - apply IH. by apply (cache_ok_frame st).
Qed.

Lemma cache_ok_settle pos st : cache_ok st -> cache_ok (settle pos st).
Proof.
  apply cache_ok_frame; unfold settle;
    destruct (body st !! pos) as [[item|node [[]|e]|r|e]|]; try done;
    by destruct (rejected st).
Qed.

Lemma cache_ok_gather parsed sched st :
  cache_ok st -> cache_ok (gather id context parsed sched st).
Proof.
  revert st. induction sched as [|[pos|pos] sched IH]; intros st Hok; [done| |];
    apply IH; simpl.
  - by apply cache_ok_settle.
  - unfold read. destruct (parsed !! pos) as [[node|]|]; try done.
    destruct (typeOnly node); [done|]. case_decide; [|done].
    by apply cache_ok_read.
Qed.

Lemma cache_ok_run parsed sched :
  cache_ok (run_state id shouldStrip context parsed sched).
Proof.
  apply cache_ok_gather, cache_ok_scatter.
  constructor; simpl.
  - done.
  - intros t p. rewrite lookup_empty. split; [done|]. by rewrite lookup_nil.
  - intros t p Hin. by apply not_elem_of_nil in Hin.
  - intros t Hin. by apply not_elem_of_nil in Hin.
Qed.

(** The effects of [transform] are the parse, the effects the state
    recorded, and the print when there is one. *)
Lemma transform_effects text sched :
  let tsx := Js.endsWith id ".tsx" in
  (exists e, parse text tsx = inl e
             /\ effects (transform id shouldStrip context text sched) = [EParse text tsx])
  \/ (exists parsed tl,
        parse text tsx = inr parsed
        /\ effects (transform id shouldStrip context text sched)
           = EParse text tsx
               :: trace (run_state id shouldStrip context parsed sched) ++ tl
        /\ (tl = [] \/ exists kept f, tl = [EPrint kept f])).
Proof.
  simpl. unfold transform.
  destruct (parse text (Js.endsWith id ".tsx")) as [e|parsed]; [left; eauto|].
  right. exists parsed. simpl. unfold transform_parsed.
  destruct (thrown (run_state id shouldStrip context parsed sched)).
  { exists []. by rewrite app_nil_r; auto. }
  destruct (promise_all (run_state id shouldStrip context parsed sched))
    as [|e|results].
  1,2: exists []; by rewrite app_nil_r; auto.
  destruct (length (symbols (run_state id shouldStrip context parsed sched)) =? 0).
  - exists []. by rewrite app_nil_r; auto.
  - eexists. split; [done|]. split; [done|]. right. eauto.
Qed.

Lemma transform_resolve_calls text sched :
  resolve_calls (effects (transform id shouldStrip context text sched)) = []
  /\ accessor_reads (effects (transform id shouldStrip context text sched)) = []
  \/ exists parsed,
      resolve_calls (effects (transform id shouldStrip context text sched))
      = resolve_calls (trace (run_state id shouldStrip context parsed sched))
      /\ accessor_reads (effects (transform id shouldStrip context text sched))
         = accessor_reads (trace (run_state id shouldStrip context parsed sched)).
Proof.
  destruct (transform_effects text sched)
    as [(e & _ & ->) | (parsed & tl & _ & -> & Htl)]; [by left|].
  right. exists parsed. rewrite app_comm_cons.
  rewrite resolve_calls_app, accessor_reads_app. simpl.
  destruct Htl as [-> | (kept & f & ->)]; simpl; by rewrite !app_nil_r.
Qed.

(** C6. Within one transform the resolver is called at most once for each
    specifier, however many contexts carry that specifier and however often
    the accessor is read; it is called for a specifier only if the accessor
    of a context with that specifier was read; and all reads for one
    specifier return the same promise. *)
Theorem resolvedTarget_is_lazy_and_memoized text sched :
  NoDup (resolve_calls (effects (transform id shouldStrip context text sched)))
  /\ (forall t,
        t ∈ resolve_calls (effects (transform id shouldStrip context text sched)) ->
        exists p,
          (t, p) ∈ accessor_reads (effects (transform id shouldStrip context text sched)))
  /\ (forall t p q,
        (t, p) ∈ accessor_reads (effects (transform id shouldStrip context text sched)) ->
        (t, q) ∈ accessor_reads (effects (transform id shouldStrip context text sched)) ->
        p = q).
Proof.
  destruct (transform_resolve_calls text sched) as [[-> ->] | (parsed & -> & ->)].
  - split; [constructor|]. split.
    + intros t Hin. by apply not_elem_of_nil in Hin.
    + intros t p q Hin. by apply not_elem_of_nil in Hin.
  - destruct (cache_ok_run parsed sched) as [_ Hcache Hreads Hcalls].
    split; [|split; [done|]].
    + apply NoDup_alt. intros i j t Hi Hj.
      apply Hcache in Hi, Hj. congruence.
    + intros t p q Hp Hq. apply Hreads in Hp, Hq. congruence.
Qed.

(** *** Rejections *)

Lemma settle_rejected_keeps pos st e :
  rejected st = Some e -> rejected (settle pos st) = Some e.
Proof.
  intros Hr. unfold settle.
  destruct (body st !! pos) as [[item|node [[]|e']|r|e']|]; try done.
  by rewrite Hr.
Qed.

Lemma gather_rejected_keeps parsed sched st e :
  rejected st = Some e -> rejected (gather id context parsed sched st) = Some e.
Proof.
  revert st. induction sched as [|[pos|pos] sched IH]; intros st Hr; [done| |];
    apply IH; simpl.
  - by apply settle_rejected_keeps.
  - by destruct (read_frame parsed pos st) as (_ & _ & _ & _ & _ & ->).
Qed.

Lemma settle_other pos pos' st :
  pos <> pos' -> body (settle pos' st) !! pos = body st !! pos.
Proof.
  intros Hne. unfold settle.
  destruct (body st !! pos') as [[item|node [[]|e']|r|e']|]; try done;
    try (simpl; by rewrite list_lookup_insert_ne).
  destruct (rejected st); simpl; by rewrite list_lookup_insert_ne.
Qed.

Lemma settle_waiting_back pos pos' st node s :
  body (settle pos' st) !! pos = Some (Waiting node s) ->
  body st !! pos = Some (Waiting node s).
Proof.
  destruct (decide (pos = pos')) as [->|Hne]; [|by rewrite settle_other].
  unfold settle.
  destruct (body st !! pos') as [[item|nd [[]|e']|r|e']|] eqn:Hpos;
    intros Hs; try congruence;
    assert (Hlt : pos' < length (body st)) by (by eapply lookup_lt_Some).
  - simpl in Hs. by rewrite list_lookup_insert_eq in Hs.
  - simpl in Hs. by rewrite list_lookup_insert_eq in Hs.
  - destruct (rejected st); simpl in Hs; by rewrite list_lookup_insert_eq in Hs.
Qed.

(** A rejection that is delivered makes [Promise.all] reject. *)
Lemma gather_rejects parsed sched st pos node e :
  body st !! pos = Some (Waiting node (Rejects e)) ->
  Settle pos ∈ sched ->
  exists e', rejected (gather id context parsed sched st) = Some e'.
Proof.
  revert st. induction sched as [|ev sched IH]; intros st Hpos Hin.
  - by apply not_elem_of_nil in Hin.
  - apply elem_of_cons in Hin. destruct Hin as [<- | Hin].
    + simpl. unfold settle at 1. rewrite Hpos.
      destruct (rejected st) as [e0|] eqn:Hr.
      * exists e0. by apply gather_rejected_keeps.
      * exists e. by apply gather_rejected_keeps.
    + destruct ev as [pos'|pos']; simpl.
      * destruct (decide (pos = pos')) as [<-|Hne].
        -- unfold settle at 1. rewrite Hpos.
           destruct (rejected st) as [e0|] eqn:Hr.
           ++ exists e0. by apply gather_rejected_keeps.
           ++ exists e. by apply gather_rejected_keeps.
        -- apply IH; [|done]. by rewrite settle_other.
      * apply IH; [|done]. by destruct (read_frame parsed pos' st) as (-> & _).
Qed.

(** The rejection [Promise.all] adopts is the rejection of a predicate's
    promise that was delivered. *)
Lemma gather_rejected_origin parsed sched st e :
  rejected (gather id context parsed sched st) = Some e ->
  rejected st = Some e
  \/ exists pos node,
      body st !! pos = Some (Waiting node (Rejects e)) /\ Settle pos ∈ sched.
Proof.
  revert st. induction sched as [|ev sched IH]; intros st Hr; [by left|].
  simpl in Hr. apply IH in Hr. destruct Hr as [Hr | (pos & node & Hpos & Hin)].
  - destruct ev as [pos'|pos']; simpl in Hr.
    + unfold settle in Hr.
      destruct (body st !! pos') as [[item|nd [[]|e']|r|e']|] eqn:Hpos;
        try (by left).
      destruct (rejected st) eqn:Hr0; simpl in Hr; [left; congruence|].
      right. exists pos', nd. simplify_eq. split; [done | left].
    + left. by destruct (read_frame parsed pos' st) as (_ & _ & _ & _ & _ & <-).
  - right. exists pos, node. split; [|by right].
    destruct ev as [pos'|pos']; simpl in Hpos.
    + by eapply settle_waiting_back.
    + by destruct (read_frame parsed pos' st) as (<- & _).
Qed.

(** *** Completion *)

(** Every promise the loop created settles during [sched]. *)
Definition complete (parsed : list ModuleItem) (sched : list Event) : Prop :=
  forall pos node s,
    body (scatter id shouldStrip context parsed init) !! pos = Some (Waiting node s) ->
    Settle pos ∈ sched.

Lemma settle_not_waiting pos st node s :
  body (settle pos st) !! pos <> Some (Waiting node s).
Proof.
  unfold settle.
  destruct (body st !! pos) as [[item|nd [[]|e']|r|e']|] eqn:Hpos;
    try (rewrite Hpos; congruence);
    assert (Hlt : pos < length (body st)) by (by eapply lookup_lt_Some).
  - simpl. by rewrite list_lookup_insert_eq.
  - simpl. by rewrite list_lookup_insert_eq.
  - destruct (rejected st); simpl; by rewrite list_lookup_insert_eq.
Qed.

Lemma gather_waiting_back parsed sched st pos node s :
  body (gather id context parsed sched st) !! pos = Some (Waiting node s) ->
  body st !! pos = Some (Waiting node s).
Proof.
  revert st. induction sched as [|[pos'|pos'] sched IH]; intros st Hw; [done| |];
    apply IH in Hw; simpl in Hw.
  - by eapply settle_waiting_back.
  - by destruct (read_frame parsed pos' st) as (<- & _).
Qed.

Lemma gather_settles parsed sched st pos node s :
  Settle pos ∈ sched ->
  body (gather id context parsed sched st) !! pos <> Some (Waiting node s).
Proof.
  revert st. induction sched as [|ev sched IH]; intros st Hin Hw.
  - by apply not_elem_of_nil in Hin.
  - apply elem_of_cons in Hin. destruct Hin as [<- | Hin].
    + simpl in Hw. apply gather_waiting_back in Hw.
      by apply settle_not_waiting in Hw.
    + by apply (IH _ Hin Hw).
Qed.

(** A transform whose predicate neither throws nor rejects completes once
    every promise has settled. *)
Lemma run_completes parsed sched :
  thrown (scatter id shouldStrip context parsed init) = None ->
  (forall pos node e,
      body (scatter id shouldStrip context parsed init) !! pos
      <> Some (Waiting node (Rejects e))) ->
  complete parsed sched ->
  exists res, outcome (transform_parsed id shouldStrip context parsed sched)
              = Resolved res.
Proof.
  intros Hth Hnorej Hcomplete. unfold transform_parsed, run_state.
  set (st1 := scatter id shouldStrip context parsed init) in *.
  rewrite gather_thrown. fold st1. rewrite Hth.
  pose proof (scatter_aligned parsed init [] (Forall2_nil_2 _ _ aligned) Hth) as Hal.
  simpl in Hal. fold st1 in Hal.
  destruct (scatter_untouched parsed init) as (Hsym & Htar & Hrej).
  simpl in Hsym, Htar, Hrej. fold st1 in Hsym, Htar, Hrej.
  pose proof (gathered_gather _ parsed sched _ (aligned_gathered _ _ Hal Hsym Htar))
    as [Hev _ _].
  unfold promise_all.
  destruct (rejected (gather id context parsed sched st1)) as [e|] eqn:Hr.
  { apply gather_rejected_origin in Hr.
    destruct Hr as [Hr | (pos & node & Hpos & _)]; [congruence|].
    by destruct (Hnorej pos node e). }
  assert (Hsome : is_Some (mapM slot_value (body (gather id context parsed sched st1)))).
  { apply mapM_is_Some, Forall_lookup. intros pos s Hs.
    destruct (Forall2_lookup_r _ _ _ _ _ Hev Hs) as (s0 & Hs0 & Hevs).
    destruct (Forall2_lookup_r _ _ _ _ _ Hal Hs0) as (item & _ & Hitem).
    inversion Hevs; subst; simpl; try done.
    - destruct Hitem as [item Hc | node st Hty]; [done|].
      destruct (gather_settles parsed sched st1 pos node st
                  (Hcomplete pos node st Hs0) Hs).
    - by destruct (Hnorej pos node e). }
  destruct Hsome as [results ->].
  destruct (length (symbols (gather id context parsed sched st1)) =? 0); eauto.
Qed.

(** What [transform] returns when it completes is decided by the stripped
    names alone: it is null exactly when the imports the predicate decided
    to strip bind no name. *)
Lemma unchanged_iff_no_stripped_symbol text sched res :
  outcome (transform id shouldStrip context text sched) = Resolved res ->
  exists parsed,
    parse text (Js.endsWith id ".tsx") = inr parsed
    /\ (res = None <-> forall n, ~ stripped_symbol parsed n).
Proof.
  intros Hres.
  destruct (transform_resolved text sched res Hres) as (parsed & Hp & _ & Has).
  exists parsed. split; [done|]. destruct res as [r|]; simpl in Has.
  - destruct Has as (_ & _ & (n & Hn) & _). split; [done|].
    intros Hno. by destruct (Hno n).
  - done.
Qed.

(** When the predicate decides "strip" for no import, a transform that
    completes reports "unchanged" and leaves the body as parsed. *)
Lemma unchanged_when_nothing_stripped text sched res parsed :
  parse text (Js.endsWith id ".tsx") = inr parsed ->
  (forall pos,
      decided_strip (body (scatter id shouldStrip context parsed init)) pos = false) ->
  outcome (transform id shouldStrip context text sched) = Resolved res ->
  res = None
  /\ mod_body (transform id shouldStrip context text sched) = Some parsed.
Proof.
  intros Hp Hkeep Hres.
  destruct (transform_resolved text sched res Hres) as (parsed' & Hp' & Hbody & Has).
  rewrite Hp in Hp'. simplify_eq. split.
  - destruct res as [r|]; [|done]. simpl in Has.
    destruct Has as (_ & _ & (n & pos & node & Hpos & _) & _).
    specialize (Hkeep pos). unfold decided_strip in Hkeep. by rewrite Hpos in Hkeep.
  - rewrite Hbody. f_equal. unfold retained, without, compact.
    set (drop := decided_strip (body (scatter id shouldStrip context parsed' init))) in *.
    clearbody drop. clear -Hkeep. revert drop Hkeep.
    induction parsed' as [|x items IH]; intros drop Hkeep; [done|].
    simpl. rewrite Hkeep. simpl. f_equal. apply (IH (drop ∘ S)).
    intros pos. apply Hkeep.
Qed.

(** *** Failure of the predicate *)

(** A call of the predicate threw [e], or the promise it returned was
    rejected with [e] and the rejection has been delivered. *)
Definition failure (parsed : list ModuleItem) (sched : list Event) (e : Js.Error)
    : Prop :=
  thrown (scatter id shouldStrip context parsed init) = Some e
  \/ exists pos node,
      body (scatter id shouldStrip context parsed init) !! pos
        = Some (Waiting node (Rejects e))
      /\ Settle pos ∈ sched.

Lemma transform_parsed_fails parsed sched e0 :
  failure parsed sched e0 ->
  exists e,
    failure parsed sched e
    /\ outcome (transform_parsed id shouldStrip context parsed sched) = Rejected e
    /\ mod_body (transform_parsed id shouldStrip context parsed sched) = Some parsed.
Proof.
  intros Hfail. unfold failure, transform_parsed, run_state in *.
  set (st1 := scatter id shouldStrip context parsed init) in *.
  rewrite gather_thrown. fold st1.
  destruct (thrown st1) as [e|] eqn:Hth.
  { exists e. split; [left; done | done]. }
  destruct Hfail as [Hfail | (pos & node & Hpos & Hin)]; [congruence|].
  destruct (gather_rejects parsed sched st1 pos node e0 Hpos Hin) as (e & Hr).
  unfold promise_all. rewrite Hr. exists e. split; [|done].
  apply gather_rejected_origin in Hr. destruct Hr as [Hr | Hr]; [|by right].
  destruct (scatter_untouched parsed init) as (_ & _ & Hrej).
  simpl in Hrej. fold st1 in Hrej. congruence.
Qed.

(** *** Where the promises come from *)

(** The promises in [body] belong to imports that are not type-only, at the
    position of the import, also when the loop ended early. *)
Lemma scatter_waiting items st before :
  length (body st) = length before ->
  (forall pos node s, body st !! pos = Some (Waiting node s) ->
     (before ++ items) !! pos = Some (ImportDeclarationItem node)
     /\ typeOnly node = false) ->
  forall pos node s,
    body (scatter id shouldStrip context items st) !! pos = Some (Waiting node s) ->
    (before ++ items) !! pos = Some (ImportDeclarationItem node)
    /\ typeOnly node = false.
Proof.
  revert st before.
  induction items as [|item items IH]; intros st before Hlen Hst; [done|].
  assert (Hitem : (before ++ item :: items) !! length (body st) = Some item)
    by (rewrite Hlen; by apply list_lookup_middle).
  assert (Hpush : forall sl st', body st' = body st ->
            (sl = Plain item \/ exists node s, sl = Waiting node s
                                  /\ item = ImportDeclarationItem node
                                  /\ typeOnly node = false) ->
            length (body (push sl st')) = length (before ++ [item])
            /\ forall pos node s,
                 body (push sl st') !! pos = Some (Waiting node s) ->
                 ((before ++ [item]) ++ items) !! pos
                   = Some (ImportDeclarationItem node)
                 /\ typeOnly node = false).
  { intros sl st' Hb Hsl. simpl. rewrite Hb, !length_app. simpl.
    split; [lia|]. intros pos node s Hpos.
    rewrite <- app_assoc, <- cons_middle.
    destruct (decide (pos < length (body st))) as [Hlt|Hge].
    - rewrite lookup_app_l in Hpos by done. by eapply Hst.
    - rewrite lookup_app_r in Hpos by lia.
      destruct (pos - length (body st)) as [|k] eqn:Hk; simpl in Hpos; [|done].
      assert (pos = length (body st)) as -> by lia.
      rewrite Hitem.
      destruct Hsl as [-> | (nd & s' & -> & -> & Hty)]; [done|].
      by simplify_eq. }
  rewrite cons_middle, app_assoc. simpl. destruct item as [node|ty text].
  - destruct (typeOnly node) eqn:Hty.
    { destruct (Hpush (Plain (ImportDeclarationItem node)) st) as [Hl Hp];
        [done | by left |].
      by apply (IH _ (before ++ [ImportDeclarationItem node])). }
    set (pos0 := length (body st)) in *.
    set (ctx := make_ctx id context node) in *.
    set (st1 := count_call (log [EShouldStrip pos0 ctx] st)) in *.
    destruct (iter_read_frame (syncReads (shouldStrip (calls st) ctx))
                pos0 (Swc.source node) st1) as (Hb & _).
    destruct (returned (shouldStrip (calls st) ctx)) as [e|s].
    + simpl. rewrite Hb. simpl. rewrite <- app_assoc, <- cons_middle. apply Hst.
    + destruct (Hpush (Waiting node s)
                  (Nat.iter (syncReads (shouldStrip (calls st) ctx))
                     (read_resolvedTarget id context pos0 (Swc.source node)) st1))
        as [Hl Hp]; [done | right; by exists node, s |].
      by apply (IH _ (before ++ [ImportDeclarationItem node])).
  - destruct (Hpush (Plain (OtherItem ty text)) st) as [Hl Hp]; [done | by left |].
    by apply (IH _ (before ++ [OtherItem ty text])).
Qed.

Lemma waiting_is_candidate parsed pos node s :
  body (scatter id shouldStrip context parsed init) !! pos = Some (Waiting node s) ->
  parsed !! pos = Some (ImportDeclarationItem node) /\ typeOnly node = false.
Proof. by apply (scatter_waiting parsed init []). Qed.

(** The settlement of every promise, and the error of an early exit, are
    what a call of the predicate returned. *)
Lemma scatter_returned items st :
  (forall pos node s, body st !! pos = Some (Waiting node s) ->
     exists k ctx, returned (shouldStrip k ctx) = Returns s) ->
  forall pos node s,
    body (scatter id shouldStrip context items st) !! pos = Some (Waiting node s) ->
    exists k ctx, returned (shouldStrip k ctx) = Returns s.
Proof.
  revert st. induction items as [|item items IH]; intros st Hst; [done|].
  assert (Hpush : forall sl st', body st' = body st ->
            (forall node s, sl = Waiting node s ->
               exists k ctx, returned (shouldStrip k ctx) = Returns s) ->
            forall pos node s,
              body (push sl st') !! pos = Some (Waiting node s) ->
              exists k ctx, returned (shouldStrip k ctx) = Returns s).
  { intros sl st' Hb Hsl pos node s. simpl. rewrite Hb. intros Hpos.
    destruct (decide (pos < length (body st))) as [Hlt|Hge].
    - rewrite lookup_app_l in Hpos by done. by eapply Hst.
    - rewrite lookup_app_r in Hpos by lia.
      destruct (pos - length (body st)) as [|k]; simpl in Hpos; [|done].
      injection Hpos as ->. by eapply Hsl. }
  simpl. destruct item as [node|ty text].
  - destruct (typeOnly node); [by apply IH, Hpush|].
    set (pos0 := length (body st)) in *.
    set (ctx := make_ctx id context node) in *.
    set (st1 := count_call (log [EShouldStrip pos0 ctx] st)) in *.
    destruct (iter_read_frame (syncReads (shouldStrip (calls st) ctx))
                pos0 (Swc.source node) st1) as (Hb & _).
    destruct (returned (shouldStrip (calls st) ctx)) as [e|s] eqn:Hret.
    + simpl. rewrite Hb. apply Hst.
    + apply IH, Hpush; [done|]. intros nd s' [= -> ->]. eauto.
  - by apply IH, Hpush.
Qed.

Lemma scatter_thrown items st e :
  thrown (scatter id shouldStrip context items st) = Some e ->
  thrown st = Some e \/ exists k ctx, returned (shouldStrip k ctx) = Throws e.
Proof.
  revert st. induction items as [|item items IH]; intros st Hth; [by left|].
  simpl in Hth. destruct item as [node|ty text].
  - destruct (typeOnly node); [by apply IH in Hth|].
    set (pos0 := length (body st)) in *.
    set (ctx := make_ctx id context node) in *.
    set (st1 := count_call (log [EShouldStrip pos0 ctx] st)) in *.
    destruct (iter_read_frame (syncReads (shouldStrip (calls st) ctx))
                pos0 (Swc.source node) st1) as (_ & _ & _ & _ & Hthr & _).
    destruct (returned (shouldStrip (calls st) ctx)) as [e'|s] eqn:Hret.
    + simpl in Hth. injection Hth as ->. eauto.
    + apply IH in Hth as [Hth | Hth]; [|by right].
      simpl in Hth. rewrite Hthr in Hth. by left.
  - by apply IH in Hth.
Qed.

(** A transform that parses, whose predicate neither throws nor rejects,
    completes once every promise has settled. *)
Lemma transform_completes text sched parsed :
  parse text (Js.endsWith id ".tsx") = inr parsed ->
  (forall k ctx, exists strip, returned (shouldStrip k ctx) = Returns (Fulfils strip)) ->
  complete parsed sched ->
  exists res, outcome (transform id shouldStrip context text sched) = Resolved res.
Proof.
  intros Hp Hpred Hcomplete. unfold transform. rewrite Hp. simpl.
  apply run_completes; [| |done].
  - destruct (thrown (scatter id shouldStrip context parsed init)) as [e|] eqn:Hth;
      [|done].
    apply scatter_thrown in Hth as [Hth | (k & ctx & Hret)]; [done|].
    destruct (Hpred k ctx) as (strip & Hstrip). congruence.
  - intros pos node e Hpos.
    apply (scatter_returned parsed init) in Hpos as (k & ctx & Hret).
    + destruct (Hpred k ctx) as (strip & Hstrip). congruence.
    + intros pos' node' s'. simpl. by rewrite lookup_nil.
Qed.

(** When the predicate returns false for every import, the transform
    reports "unchanged" once every promise has settled, and the body is as
    parsed. *)
Lemma always_false_is_unchanged text sched parsed :
  parse text (Js.endsWith id ".tsx") = inr parsed ->
  (forall k ctx, returned (shouldStrip k ctx) = Returns (Fulfils false)) ->
  complete parsed sched ->
  outcome (transform id shouldStrip context text sched) = Resolved None
  /\ mod_body (transform id shouldStrip context text sched) = Some parsed.
Proof.
  intros Hp Hpred Hcomplete.
  destruct (transform_completes text sched parsed Hp) as (res & Hres);
    [by eauto | done |].
  destruct (unchanged_when_nothing_stripped text sched res parsed Hp) as [-> Hbody];
    [|done|done].
  intros pos. unfold decided_strip.
  destruct (body _ !! pos) as [[|node [[]|]| |]|] eqn:Hpos; try done.
  apply (scatter_returned parsed init) in Hpos as (k & ctx & Hret).
  - rewrite Hpred in Hret. done.
  - intros pos' node' s'. simpl. by rewrite lookup_nil.
Qed.

End OneFile.
End TransformFacts.


(** ** The bundle verifier *)

Module CheckFacts.
Import Host Check.

(** The code artifacts of a bundle, in the bundle's order. *)
Definition chunks_of (bundle : Bundle) : list OutputChunk :=
  omap (fun entry => match snd entry with
                     | Chunk chunk => Some chunk
                     | Asset _ => None
                     end) bundle.

(** The opening of every message, up to the list of origins. *)
Definition headline (n : string) : string :=
  "Stripped conditional import binding '" +:+ n +:+ "' still in output (".

Section WithHost.
Context {node_path : NodePath} {eslint : Eslint} {trace_mapping : TraceMapping}.

(** The messages one iteration of the loop of [checkChunk] adds, when the
    trace map has not been built yet. *)
Definition emitted (chunk : OutputChunk) (reg : gmap string (list string))
    (root : string) (outputDir : option string) (ref : UndefinedRef) : list string :=
  fst (check_ref chunk reg root outputDir ([], None) ref).

(** The registry's origins of a reference, restricted to the modules of
    the chunk. *)
Definition relevant (chunk : OutputChunk) (reg : gmap string (list string))
    (ref : UndefinedRef) : list string :=
  match reg !! name ref with
  | Some sourceIds => filter (fun id => id ∈ moduleIdsInChunk chunk) sourceIds
  | None => []
  end.

(** The file the source map attributes the reference to, when the chunk has
    a map and the lookup yields a source. *)
Definition localized (chunk : OutputChunk) (outputDir : option string)
    (ref : UndefinedRef) : option string :=
  Js.truthy (fst (locate chunk outputDir None ref)).

(** How an origin is shown. *)
Definition render (root : string) (outputDir : option string) (origin : string)
    : string :=
  match Js.truthy outputDir with
  | Some _ => relativeToRoot origin root
  | None => origin
  end.

(** The unlocalized message as the specification words it: origins
    restricted, deduplicated, sorted, shown root-relative. *)
Definition spec_unlocalized_message (chunk : OutputChunk)
    (reg : gmap string (list string)) (root : string) (outputDir : option string)
    (ref : UndefinedRef) : string :=
  headline (name ref)
    +:+ Js.join ", " (Js.sort (remove_dups (render root outputDir <$> relevant chunk reg ref)))
    +:+ ")".

(** The [traceMap] variable holds nothing or the map built from the chunk. *)
Definition trace_state (chunk : OutputChunk) (outputDir : option string)
    (tm : option TraceMap) : Prop :=
  tm = None
  \/ exists m, chunk_map chunk = Some m
               /\ tm = Some (new_TraceMap m (mapUrl chunk outputDir)).

Lemma locate_cached chunk outputDir tm ref :
  trace_state chunk outputDir tm ->
  fst (locate chunk outputDir tm ref) = fst (locate chunk outputDir None ref)
  /\ trace_state chunk outputDir (snd (locate chunk outputDir tm ref)).
Proof.
  intros Htm. unfold locate.
  destruct (chunk_map chunk) as [m|] eqn:Hm; [|done].
  destruct (line ref) as [l|]; [|done]. destruct (column ref) as [c|]; [|done].
  destruct Htm as [-> | (m' & Hm' & ->)]; simpl.
  - split; [done|]. right. by exists m.
  - rewrite Hm in Hm'. injection Hm' as <-. split; [done|]. right. by exists m.
Qed.

Lemma check_ref_emitted chunk reg root outputDir errors tm ref :
  trace_state chunk outputDir tm ->
  exists tm',
    check_ref chunk reg root outputDir (errors, tm) ref
    = (errors ++ emitted chunk reg root outputDir ref, tm')
    /\ trace_state chunk outputDir tm'.
Proof.
  intros Htm. unfold emitted, check_ref.
  destruct (reg !! name ref) as [sourceIds|];
    [|exists tm; by rewrite app_nil_r].
  destruct (filter _ sourceIds) as [|x xs];
    [exists tm; by rewrite app_nil_r|].
  destruct (locate_cached chunk outputDir tm ref Htm) as [Hfst Hsnd].
  destruct (locate chunk outputDir tm ref) as [src tm'].
  destruct (locate chunk outputDir None ref) as [src0 tm0].
  simpl in *. subst src0. exists tm'. done.
Qed.

Lemma fold_check_ref chunk reg root outputDir refs errors tm :
  trace_state chunk outputDir tm ->
  fst (fold_left (check_ref chunk reg root outputDir) refs (errors, tm))
  = errors ++ concat (emitted chunk reg root outputDir <$> refs).
Proof.
  revert errors tm.
  induction refs as [|ref refs IH]; intros errors tm Htm; cbn [fold_left].
  - simpl. by rewrite app_nil_r.
  - destruct (check_ref_emitted chunk reg root outputDir errors tm ref Htm)
      as (tm' & -> & Htm').
    rewrite IH by done. simpl. by rewrite app_assoc.
Qed.

(** [checkChunk] visits every undefined reference and keeps the messages in
    the order of the references. *)
Lemma checkChunk_emitted chunk reg root outputDir :
  checkChunk chunk reg root outputDir
  = concat (emitted chunk reg root outputDir
              <$> findUndefinedRefs (chunk_code chunk)).
Proof.
  unfold checkChunk.
  destruct (findUndefinedRefs (chunk_code chunk)) as [|ref refs] eqn:Hrefs; [done|].
  rewrite fold_check_ref by (by left). done.
Qed.

Lemma emitted_elem chunk reg root outputDir ref msg :
  ref ∈ findUndefinedRefs (chunk_code chunk) ->
  msg ∈ emitted chunk reg root outputDir ref ->
  msg ∈ checkChunk chunk reg root outputDir.
Proof.
  intros Href Hmsg. rewrite checkChunk_emitted.
  induction Href as [ref refs | ref ref' refs _ IH]; simpl; apply elem_of_app; auto.
Qed.

Lemma emitted_empty_registry chunk root outputDir ref :
  emitted chunk ∅ root outputDir ref = [].
Proof. unfold emitted, check_ref. by rewrite lookup_empty. Qed.

Lemma checkChunk_empty_registry chunk root outputDir :
  checkChunk chunk ∅ root outputDir = [].
Proof.
  rewrite checkChunk_emitted.
  induction (findUndefinedRefs (chunk_code chunk)) as [|ref refs IH]; [done|].
  cbn [fmap list_fmap concat]. by rewrite emitted_empty_registry.
Qed.

Lemma fold_chunks reg root outputDir (bundle : Bundle) errors :
  fold_left
    (fun errors entry =>
       match snd entry with
       | Chunk chunk => errors ++ checkChunk chunk reg root outputDir
       | Asset _ => errors
       end) bundle errors
  = errors ++ concat ((fun chunk => checkChunk chunk reg root outputDir)
                        <$> chunks_of bundle).
Proof.
  revert errors. induction bundle as [|[key [chunk|asset]] bundle IH];
    intros errors; simpl.
  - by rewrite app_nil_r.
  - rewrite IH. by rewrite app_assoc.
  - apply IH.
Qed.

(** [checkBundle] is the concatenation of [checkChunk] over the code
    artifacts, assets skipped, order kept. *)
Lemma checkBundle_chunks bundle reg root outputDir :
  checkBundle bundle reg root outputDir
  = concat ((fun chunk => checkChunk chunk reg root outputDir) <$> chunks_of bundle).
Proof.
  unfold checkBundle. case_decide as Hsize; [|apply (fold_chunks _ _ _ _ [])].
  apply map_size_empty_iff in Hsize. subst reg.
  induction (chunks_of bundle) as [|chunk chunks IH]; [done|].
  cbn [fmap list_fmap concat]. by rewrite checkChunk_empty_registry.
Qed.

(** What an iteration emits for a reference that matches the registry. *)
Lemma emitted_matching chunk reg root outputDir ref :
  relevant chunk reg ref <> [] ->
  emitted chunk reg root outputDir ref
  = [describe (name ref)
       (render root outputDir
          <$> match localized chunk outputDir ref with
              | Some src => [src]
              | None => relevant chunk reg ref
              end)].
Proof.
  unfold emitted, check_ref, relevant, localized, render.
  destruct (reg !! name ref) as [sourceIds|]; [|done].
  destruct (filter _ sourceIds) as [|x xs] eqn:Hf; [done|]. intros _.
  destruct (locate chunk outputDir None ref) as [src tm]. simpl.
  destruct (Js.truthy outputDir); simpl; [done|].
  by rewrite list_fmap_id.
Qed.

(** A reference is localized exactly when the chunk carries a map, the
    reference has a line and a column, and the lookup through the trace map
    yields a source that is not empty. *)
Lemma localized_spec chunk outputDir ref src :
  localized chunk outputDir ref = Some src
  <-> exists m l c,
      chunk_map chunk = Some m /\ line ref = Some l /\ column ref = Some c
      /\ originalPositionFor (new_TraceMap m (mapUrl chunk outputDir)) l c = Some src
      /\ src <> EmptyString.
Proof.
  unfold localized, locate. rewrite JsFacts.truthy_Some. split.
  - intros [Hsrc Hne].
    destruct (chunk_map chunk) as [m|]; [|done].
    destruct (line ref) as [l|]; [|done]. destruct (column ref) as [c|]; [|done].
    exists m, l, c. done.
  - intros (m & l & c & -> & -> & -> & Hsrc & Hne). done.
Qed.

(** C4. For a reference that matches the registry with origins in the
    chunk and that the chunk's source map attributes to a source, the
    message names that one source and nothing else, and it is among the
    messages of the chunk. *)
Theorem localized_message_names_one_file chunk reg root outputDir ref src :
  relevant chunk reg ref <> [] ->
  localized chunk outputDir ref = Some src ->
  emitted chunk reg root outputDir ref
  = [headline (name ref) +:+ render root outputDir src +:+ ")"]
  /\ (ref ∈ findUndefinedRefs (chunk_code chunk) ->
      headline (name ref) +:+ render root outputDir src +:+ ")"
        ∈ checkChunk chunk reg root outputDir).
Proof.
  intros Hrel Hloc.
  assert (Hem : emitted chunk reg root outputDir ref
                = [headline (name ref) +:+ render root outputDir src +:+ ")"]).
  { rewrite emitted_matching by done. rewrite Hloc. simpl.
    unfold describe, headline. by rewrite !JsFacts.append_assoc. }
  split; [done|]. intros Href.
  apply (emitted_elem _ _ _ _ ref); [done|]. rewrite Hem. left.
Qed.

(** C5, as the code has it. For a reference that matches the registry with
    origins in the chunk and that is not localized, the message lists those
    origins, each shown root-relative when an output directory is known,
    sorted and joined by a comma and a space. Duplicates stay. *)
Theorem unlocalized_message_lists_origins chunk reg root outputDir ref :
  relevant chunk reg ref <> [] ->
  localized chunk outputDir ref = None ->
  emitted chunk reg root outputDir ref
  = [headline (name ref)
       +:+ Js.join ", " (Js.sort (render root outputDir <$> relevant chunk reg ref))
       +:+ ")"]
  /\ (ref ∈ findUndefinedRefs (chunk_code chunk) ->
      headline (name ref)
        +:+ Js.join ", " (Js.sort (render root outputDir <$> relevant chunk reg ref))
        +:+ ")"
        ∈ checkChunk chunk reg root outputDir).
Proof.
  intros Hrel Hloc.
  assert (Hem : emitted chunk reg root outputDir ref
                = [headline (name ref)
                     +:+ Js.join ", "
                           (Js.sort (render root outputDir <$> relevant chunk reg ref))
                     +:+ ")"]).
  { rewrite emitted_matching by done. rewrite Hloc.
    unfold describe, headline. by rewrite !JsFacts.append_assoc. }
  split; [done|]. intros Href.
  apply (emitted_elem _ _ _ _ ref); [done|]. rewrite Hem. left.
Qed.

End WithHost.
End CheckFacts.


(** ** The plugin *)

Module PluginFacts.
Import Swc ImportAttributes Host Transform Check Plugin TransformFacts CheckFacts.

Section WithHost.
Context {node_path : NodePath} {swc_core : SwcCore} {resolver : Resolver}
        {number_to_string : NumberToString} {eslint : Eslint}
        {trace_mapping : TraceMapping}.
Variable shouldStrip : ShouldStripFn.
Variable options : option Options.

(** The context the hook passes to [transform]. *)
Definition hook_context (cfg : ResolvedConfig) (env : ConfigEnv) : TransformContext :=
  {| tc_config := cfg; tc_env := env |}.

Lemma record_symbols_other id (syms : list string) reg n :
  n ∉ syms -> fold_left (record_symbol id) syms reg !! n = reg !! n.
Proof.
  revert reg. induction syms as [|x syms IH]; intros reg Hn; [done|].
  apply not_elem_of_cons in Hn as [Hne Hn]. simpl. rewrite IH by done.
  unfold record_symbol. by rewrite lookup_insert_ne.
Qed.

(** What the hook does once config and env are resolved and the extension
    matches. *)
Lemma transform_hook_run text id sched st cfg env :
  cachedConfig st = Some cfg -> cachedEnv st = Some env ->
  matches_extension id = true ->
  transform_hook shouldStrip text id sched st
  = let r := transform id shouldStrip (hook_context cfg env) text sched in
    match outcome r with
    | Pending =>
        {| result := HookPending; after := st; hook_effects := Inner <$> effects r |}
    | Rejected e =>
        {| result := HookRejected e; after := st;
           hook_effects := Inner <$> effects r |}
    | Resolved None =>
        {| result := HookNull; after := st; hook_effects := Inner <$> effects r |}
    | Resolved (Some res) =>
        {| result := HookCode (Transform.code res) (Transform.map res);
           after :=
             set_registry
               (fold_left (record_symbol id) (strippedImportSymbols res)
                  (importSymbolsToSource st)) st;
           hook_effects :=
             (Inner <$> effects r)
               ++ (Log (relativeSource res) <$> strippedImportTargets res) |}
    end.
Proof. intros Hc He Hm. unfold transform_hook. by rewrite Hc, He, Hm. Qed.

(** Whatever the hook does, one of three things holds: it did not call
    [transform]; or [transform] did not return a result; or it did. *)
Lemma transform_hook_cases text id sched st :
  (hook_effects (transform_hook shouldStrip text id sched st) = []
   /\ after (transform_hook shouldStrip text id sched st) = st
   /\ (result (transform_hook shouldStrip text id sched st) = HookNull
       \/ exists msg, result (transform_hook shouldStrip text id sched st)
                      = HookError msg))
  \/ exists cfg env,
      cachedConfig st = Some cfg /\ cachedEnv st = Some env
      /\ matches_extension id = true.
Proof.
  unfold transform_hook.
  destruct (cachedConfig st) as [cfg|]; [|left; eauto].
  destruct (cachedEnv st) as [env|]; [|left; eauto].
  destruct (matches_extension id); [right; eauto | left; eauto].
Qed.

(** C2. When a call of the predicate throws, or the promise it returned is
    rejected, the hook ends with one of those errors: there is no code and
    no map, the registry and the rest of the plugin's state are as before,
    and the body of the parsed module is as parsed. *)
Theorem predicate_failure_aborts_the_file text id sched st cfg env parsed e0 :
  cachedConfig st = Some cfg -> cachedEnv st = Some env ->
  matches_extension id = true ->
  parse text (Js.endsWith id ".tsx") = inr parsed ->
  failure id shouldStrip (hook_context cfg env) parsed sched e0 ->
  exists e,
    failure id shouldStrip (hook_context cfg env) parsed sched e
    /\ result (transform_hook shouldStrip text id sched st) = HookRejected e
    /\ after (transform_hook shouldStrip text id sched st) = st
    /\ outcome (transform id shouldStrip (hook_context cfg env) text sched)
       = Rejected e
    /\ mod_body (transform id shouldStrip (hook_context cfg env) text sched)
       = Some parsed.
Proof.
  intros Hc He Hm Hp Hfail.
  destruct (transform_parsed_fails id shouldStrip (hook_context cfg env)
              parsed sched e0 Hfail) as (e & Hf & Hout & Hbody).
  exists e. split; [done|].
  rewrite (transform_hook_run text id sched st cfg env Hc He Hm).
  unfold transform. rewrite Hp. simpl. rewrite Hout. done.
Qed.

(** C7. A type-only import is never handed to the predicate, is never
    decided "strip", is part of the body that is printed when the hook
    returns code, and no name enters the registry on its account: every
    name whose registry entry the hook changes is bound by an import that
    is not type-only. *)
Theorem type_only_imports_are_left_alone text id sched st parsed :
  parse text (Js.endsWith id ".tsx") = inr parsed ->
  (forall pos ctx,
      Inner (EShouldStrip pos ctx)
        ∈ hook_effects (transform_hook shouldStrip text id sched st) ->
      exists node, parsed !! pos = Some (ImportDeclarationItem node)
                   /\ typeOnly node = false)
  /\ (forall pos node cfg env,
        parsed !! pos = Some (ImportDeclarationItem node) -> typeOnly node = true ->
        cachedConfig st = Some cfg -> cachedEnv st = Some env ->
        decided_strip
          (body (scatter id shouldStrip (hook_context cfg env) parsed init)) pos
        = false
        /\ forall code map,
             result (transform_hook shouldStrip text id sched st) = HookCode code map ->
             (code, map)
             = print (retained id shouldStrip (hook_context cfg env) parsed)
                 (filename id (hook_context cfg env))
             /\ ImportDeclarationItem node
                  ∈ retained id shouldStrip (hook_context cfg env) parsed)
  /\ (forall n,
        importSymbolsToSource (after (transform_hook shouldStrip text id sched st)) !! n
        <> importSymbolsToSource st !! n ->
        exists pos node,
          parsed !! pos = Some (ImportDeclarationItem node)
          /\ typeOnly node = false
          /\ n ∈ names (specifiers node)).
Proof.
  intros Hp.
  destruct (transform_hook_cases text id sched st)
    as [(Heff & Hafter & _) | (cfg & env & Hc & He & Hm)].
  { rewrite Heff, Hafter. split; [|split].
    - intros pos ctx Hin. by apply not_elem_of_nil in Hin.
    - intros pos node cfg env Hpos Hty Hc He. split.
      + unfold decided_strip.
        destruct (body _ !! pos) as [[|nd [[]|]| |]|] eqn:Hslot; try done.
        apply waiting_is_candidate in Hslot as [Hnd Htyn]. congruence.
      + unfold transform_hook. rewrite Hc, He.
        unfold transform_hook in Heff. rewrite Hc, He in Heff.
        destruct (matches_extension id); simpl in *; [|done].
        unfold transform in Heff. rewrite Hp in Heff.
        destruct (outcome _) as [|e|[res|]]; simpl in Heff; done.
    - done. }
  rewrite (transform_hook_run text id sched st cfg env Hc He Hm). simpl.
  set (ctx0 := hook_context cfg env).
  assert (Hcand : forall pos node s,
             body (scatter id shouldStrip ctx0 parsed init) !! pos
               = Some (Waiting node s) ->
             parsed !! pos = Some (ImportDeclarationItem node)
             /\ typeOnly node = false)
    by (intros pos node s; apply waiting_is_candidate).
  assert (Hkeep : forall pos node,
             parsed !! pos = Some (ImportDeclarationItem node) ->
             typeOnly node = true ->
             decided_strip (body (scatter id shouldStrip ctx0 parsed init)) pos
             = false).
  { intros pos node Hpos Hty. unfold decided_strip.
    destruct (body _ !! pos) as [[|nd [[]|]| |]|] eqn:Hslot; try done.
    apply Hcand in Hslot as [Hnd Htyn]. congruence. }
  split; [|split].
  - intros pos ctx Hin.
    assert (Hin' : EShouldStrip pos ctx ∈ effects (transform id shouldStrip ctx0 text sched)).
    { destruct (outcome _) as [|e|[res|]]; simpl in Hin;
        try (apply list_elem_of_fmap in Hin as (e' & [= <-] & He'); exact He').
      apply elem_of_app in Hin as [Hin | Hin];
        apply list_elem_of_fmap in Hin as (e' & Heq & He'); [|done].
      by injection Heq as <-. }
    destruct (transform_effects id shouldStrip ctx0 text sched)
      as [(e & Hpe & _) | (parsed' & tl & Hp' & Heff & Htl)]; [congruence|].
    rewrite Hp in Hp'. injection Hp' as <-. rewrite Heff in Hin'.
    apply elem_of_cons in Hin' as [Hin' | Hin']; [done|].
    apply elem_of_app in Hin' as [Hin' | Hin'].
    + pose proof (run_state_ok id shouldStrip ctx0 parsed sched) as Hok.
      rewrite Forall_forall in Hok. apply Hok in Hin'.
      destruct Hin' as (node & Hpos & Hty & _). eauto.
    + destruct Htl as [-> | (kept & f & ->)];
        [by apply not_elem_of_nil in Hin'|].
      by apply list_elem_of_singleton in Hin'.
  - intros pos node cfg' env' Hpos Hty Hc' He'.
    rewrite Hc in Hc'. rewrite He in He'. simplify_eq. fold ctx0.
    split; [by eapply Hkeep|]. intros code map Hres.
    destruct (outcome (transform id shouldStrip ctx0 text sched))
      as [|e|[res|]] eqn:Hout; simpl in Hres; try done.
    injection Hres as <- <-.
    destruct (transform_resolved id shouldStrip ctx0 text sched _ Hout)
      as (parsed' & Hp' & _ & Has).
    rewrite Hp in Hp'. injection Hp' as <-. simpl in Has.
    destruct Has as (Hprint & _). split; [done|].
    eapply without_keeps; [done|]. by eapply Hkeep.
  - intros n Hn.
    destruct (outcome (transform id shouldStrip ctx0 text sched))
      as [|e|[res|]] eqn:Hout; simpl in Hn; try done.
    destruct (decide (n ∈ strippedImportSymbols res)) as [Hin|Hnin];
      [|by rewrite record_symbols_other in Hn].
    destruct (transform_resolved id shouldStrip ctx0 text sched _ Hout)
      as (parsed' & Hp' & _ & Has).
    rewrite Hp in Hp'. injection Hp' as <-. simpl in Has.
    destruct Has as (_ & _ & _ & Hsyms).
    apply Hsyms in Hin as (pos & node & Hslot & Hnames).
    apply Hcand in Hslot as [Hpos Hty]. eauto.
Qed.

(** C10. For an id that ends in none of the extensions, the hook calls
    nothing (no parse, no predicate), leaves the registry and the rest of
    the state as they are, returns no code, and, once config and env are
    resolved, returns null. *)
Theorem other_extensions_are_skipped text id sched st :
  (forall ext, ext ∈ extensions -> ~ exists stem, id = stem +:+ ext) ->
  hook_effects (transform_hook shouldStrip text id sched st) = []
  /\ after (transform_hook shouldStrip text id sched st) = st
  /\ (forall code map,
        result (transform_hook shouldStrip text id sched st) <> HookCode code map)
  /\ (forall cfg env,
        cachedConfig st = Some cfg -> cachedEnv st = Some env ->
        result (transform_hook shouldStrip text id sched st) = HookNull).
Proof.
  intros Hext.
  assert (Hm : matches_extension id = false).
  { unfold matches_extension. apply not_true_iff_false. intros Hex.
    apply existsb_exists in Hex as (ext & Hin & Hends).
    apply list_elem_of_In in Hin. apply JsFacts.endsWith_spec in Hends.
    by destruct (Hext ext Hin). }
  unfold transform_hook. rewrite Hm.
  destruct (cachedConfig st) as [cfg|], (cachedEnv st) as [env|]; simpl;
    repeat split; try done.
Qed.

(** The registry holds names only once the config is resolved. *)
Lemma call_keeps_registry_empty st h :
  (cachedConfig st = None -> importSymbolsToSource st = ∅) ->
  cachedConfig (call shouldStrip options st h) = None ->
  importSymbolsToSource (call shouldStrip options st h) = ∅.
Proof.
  intros Hst. destruct h as [sm env|cfg| |text id sched]; simpl.
  - unfold config_hook.
    destruct (negb (opt_autoSourceMaps options)); [exact Hst|].
    destruct (_ && _); exact Hst.
  - done.
  - done.
  - unfold transform_hook.
    destruct (cachedConfig st) as [cfg|] eqn:Hc.
    + destruct (cachedEnv st) as [env|]; [|simpl; by rewrite Hc].
      destruct (negb (matches_extension id)); [simpl; by rewrite Hc|].
      destruct (outcome _) as [|e|[res|]]; simpl; by rewrite Hc.
    + simpl. intros _. by apply Hst.
Qed.

Lemma reachable_registry st :
  reachable shouldStrip options st ->
  cachedConfig st = None -> importSymbolsToSource st = ∅.
Proof.
  intros (calls & ->). induction calls as [|h calls IH] using rev_ind; [done|].
  rewrite fold_left_app. simpl. by apply call_keeps_registry_empty.
Qed.

(** C8. The verifier goes through every code artifact, skipping assets,
    and returns the messages of all of them in order: every message of
    every matching reference is in the list. The plugin raises nothing when
    the list is empty and otherwise raises one error, whose message is the
    list joined by newlines. *)
Theorem findings_are_aggregated_into_one_error outputDir bundle st :
  reachable shouldStrip options st ->
  (forall reg root,
      checkBundle bundle reg root outputDir
      = concat ((fun chunk => checkChunk chunk reg root outputDir)
                  <$> chunks_of bundle))
  /\ (forall reg root chunk ref msg,
        chunk ∈ chunks_of bundle ->
        ref ∈ findUndefinedRefs (chunk_code chunk) ->
        msg ∈ emitted chunk reg root outputDir ref ->
        msg ∈ checkBundle bundle reg root outputDir)
  /\ (forall root,
        (forall cfg, cachedConfig st = Some cfg -> root = Host.root cfg) ->
        generateBundle outputDir bundle st
        = match checkBundle bundle (importSymbolsToSource st) root outputDir with
          | [] => None
          | errors => Some (Js.join Js.newline errors)
          end).
Proof.
  intros Hreach. split; [|split].
  - intros reg root. apply checkBundle_chunks.
  - intros reg root chunk ref msg Hchunk Href Hmsg.
    rewrite checkBundle_chunks.
    pose proof (emitted_elem chunk reg root outputDir ref msg Href Hmsg) as Hin.
    induction Hchunk as [chunk chunks | chunk chunk' chunks _ IH]; simpl;
      apply elem_of_app; auto.
  - intros root Hroot. unfold generateBundle.
    destruct (cachedConfig st) as [cfg|] eqn:Hc.
    + rewrite <- (Hroot cfg eq_refl).
      destruct (checkBundle bundle (importSymbolsToSource st) root outputDir)
        as [|msg msgs]; [done|].
      destruct (decide (0 < length (msg :: msgs))) as [|Hn]; [done|].
      simpl in Hn. lia.
    + rewrite (reachable_registry st Hreach Hc).
      unfold checkBundle. by rewrite map_size_empty.
Qed.

End WithHost.
End PluginFacts.


(** ** Scenarios: the theorems at the fixtures *)

Module Scenarios.
Import Swc ImportAttributes Host Transform Check Plugin Fixtures.
#[local] Existing Instances posix swc no_resolver number_to_string eslint first_source.

(** What the transform returns for the fixture with two imports. *)
Definition stripped_index : TransformResult :=
  {| code := "import './util'; if (import.meta.env.MODE === 'development') { debug() }; console.log('Hello', util())";
     map := Some "index.ts";
     strippedImportTargets := ["./devOnly"];
     strippedImportSymbols := ["debug"];
     relativeSource := "index.ts" |}.

(** C1 at that fixture, with the second import settling before the
    first. *)
Lemma retained_statements_keep_source_order_witness :
  outcome (transform "/app/index.ts" strip_dev app_context "multiple-imports"
             [Settle 1; Settle 0]) = Resolved (Some stripped_index)
  /\ exists parsed,
      parse "multiple-imports" (Js.endsWith "/app/index.ts" ".tsx") = inr parsed
      /\ mod_body (transform "/app/index.ts" strip_dev app_context
                     "multiple-imports" [Settle 1; Settle 0])
         = Some (TransformFacts.retained "/app/index.ts" strip_dev app_context parsed)
      /\ sublist (TransformFacts.retained "/app/index.ts" strip_dev app_context parsed)
           parsed
      /\ (forall r, Some stripped_index = Some r ->
            (Transform.code r, Transform.map r)
            = print (TransformFacts.retained "/app/index.ts" strip_dev app_context parsed)
                (TransformFacts.filename "/app/index.ts" app_context))
      /\ (forall sched' res',
            outcome (transform "/app/index.ts" strip_dev app_context
                       "multiple-imports" sched') = Resolved res' ->
            mod_body (transform "/app/index.ts" strip_dev app_context
                        "multiple-imports" sched')
              = mod_body (transform "/app/index.ts" strip_dev app_context
                            "multiple-imports" [Settle 1; Settle 0])
            /\ Transform.code <$> res' = Transform.code <$> Some stripped_index
            /\ Transform.map <$> res' = Transform.map <$> Some stripped_index).
Proof.
  split; [vm_compute; reflexivity|].
  apply (TransformFacts.retained_statements_keep_source_order
           "/app/index.ts" strip_dev app_context "multiple-imports"
           [Settle 1; Settle 0] (Some stripped_index)).
  vm_compute; reflexivity.
Defined.

(** C2 at the same fixture, with a predicate whose promises reject. *)
Lemma predicate_failure_aborts_the_file_witness :
  (cachedConfig configured = Some app_config
   /\ cachedEnv configured = Some production
   /\ matches_extension "/app/index.ts" = true
   /\ parse "multiple-imports" (Js.endsWith "/app/index.ts" ".tsx")
      = inr multiple_imports
   /\ TransformFacts.failure "/app/index.ts" strip_rejects
        (PluginFacts.hook_context app_config production)
        multiple_imports [Settle 1; Settle 0] "boom")
  /\ exists e,
      TransformFacts.failure "/app/index.ts" strip_rejects
        (PluginFacts.hook_context app_config production)
        multiple_imports [Settle 1; Settle 0] e
      /\ result (transform_hook strip_rejects "multiple-imports" "/app/index.ts"
                   [Settle 1; Settle 0] configured) = HookRejected e
      /\ after (transform_hook strip_rejects "multiple-imports" "/app/index.ts"
                  [Settle 1; Settle 0] configured) = configured
      /\ outcome (transform "/app/index.ts" strip_rejects
                    (PluginFacts.hook_context app_config production)
                    "multiple-imports" [Settle 1; Settle 0]) = Rejected e
      /\ mod_body (transform "/app/index.ts" strip_rejects
                     (PluginFacts.hook_context app_config production)
                     "multiple-imports" [Settle 1; Settle 0])
         = Some multiple_imports.
Proof.
  assert (Hfail : TransformFacts.failure "/app/index.ts" strip_rejects
                    (PluginFacts.hook_context app_config production)
                    multiple_imports [Settle 1; Settle 0] "boom").
  { right. exists 0, import_debug. split; [vm_compute; reflexivity|].
    right. left. }
  split; [repeat split; solve [vm_compute; reflexivity | exact Hfail]|].
  apply (PluginFacts.predicate_failure_aborts_the_file strip_rejects
           "multiple-imports" "/app/index.ts" [Settle 1; Settle 0] configured
           app_config production multiple_imports "boom");
    solve [vm_compute; reflexivity | exact Hfail].
Defined.

(** C3 at a file whose only import is a side-effect import with
    [only: 'dev']. The predicate decides "strip", yet the transform returns
    null and the hook reports "unchanged"; next to a named import that is
    stripped too, the same side-effect import is removed. *)
Theorem side_effect_import_alone_is_not_stripped :
  TransformFacts.decided_strip
    (body (scatter "/app/index.ts" strip_dev app_context side_effect_only init)) 0
  = true
  /\ outcome (transform "/app/index.ts" strip_dev app_context "side-effect-only"
                [Settle 0]) = Resolved None
  /\ result (transform_hook strip_dev "side-effect-only" "/app/index.ts"
               [Settle 0] configured) = HookNull
  /\ outcome (transform "/app/index.ts" strip_dev app_context
                "side-effect-and-named" [Settle 0; Settle 1])
     = Resolved (Some {| code := "console.log('Hello')";
                         map := Some "index.ts";
                         strippedImportTargets := ["./devOnly"];
                         strippedImportSymbols := ["debug"];
                         relativeSource := "index.ts" |}).
Proof. repeat split; vm_compute; reflexivity. Qed.

(** C4 at the chunk of a.ts and b.ts with a source map. *)
Lemma localized_message_names_one_file_witness :
  (CheckFacts.relevant chunk_with_map stripped_in_a_and_b stray_ref <> []
   /\ CheckFacts.localized chunk_with_map (Some "/app/dist") stray_ref
      = Some "/app/a.ts")
  /\ CheckFacts.emitted chunk_with_map stripped_in_a_and_b app_root
       (Some "/app/dist") stray_ref
     = ["Stripped conditional import binding 'devOnly' still in output (a.ts)"]
  /\ (stray_ref ∈ findUndefinedRefs (chunk_code chunk_with_map) ->
      "Stripped conditional import binding 'devOnly' still in output (a.ts)"
        ∈ checkChunk chunk_with_map stripped_in_a_and_b app_root (Some "/app/dist")).
Proof.
  assert (Hrel : CheckFacts.relevant chunk_with_map stripped_in_a_and_b stray_ref
                 <> []) by (vm_compute; discriminate).
  assert (Hloc : CheckFacts.localized chunk_with_map (Some "/app/dist") stray_ref
                 = Some "/app/a.ts") by (vm_compute; reflexivity).
  split; [split; [exact Hrel | exact Hloc]|].
  pose proof (CheckFacts.localized_message_names_one_file chunk_with_map
                stripped_in_a_and_b app_root (Some "/app/dist") stray_ref
                "/app/a.ts" Hrel Hloc) as [Hemitted Hin].
  split; [exact Hemitted | exact Hin].
Defined.

(** C5 at the chunk of a.ts and b.ts without a source map. *)
Lemma unlocalized_message_lists_origins_witness :
  (CheckFacts.relevant chunk_without_map stripped_in_a_and_b stray_ref <> []
   /\ CheckFacts.localized chunk_without_map (Some "/app/dist") stray_ref = None)
  /\ CheckFacts.emitted chunk_without_map stripped_in_a_and_b app_root
       (Some "/app/dist") stray_ref
     = ["Stripped conditional import binding 'devOnly' still in output (a.ts, b.ts)"]
  /\ (stray_ref ∈ findUndefinedRefs (chunk_code chunk_without_map) ->
      "Stripped conditional import binding 'devOnly' still in output (a.ts, b.ts)"
        ∈ checkChunk chunk_without_map stripped_in_a_and_b app_root
            (Some "/app/dist")).
Proof.
  assert (Hrel : CheckFacts.relevant chunk_without_map stripped_in_a_and_b stray_ref
                 <> []) by (vm_compute; discriminate).
  assert (Hloc : CheckFacts.localized chunk_without_map (Some "/app/dist") stray_ref
                 = None) by (vm_compute; reflexivity).
  split; [split; [exact Hrel | exact Hloc]|].
  pose proof (CheckFacts.unlocalized_message_lists_origins chunk_without_map
                stripped_in_a_and_b app_root (Some "/app/dist") stray_ref
                Hrel Hloc) as [Hemitted Hin].
  split; [exact Hemitted | exact Hin].
Defined.

(** C5 as stated fails where the registry lists a file twice: the code
    repeats it, the deduplicated message of the specification does not. *)
Lemma unlocalized_message_keeps_duplicates :
  CheckFacts.localized chunk_without_map (Some "/app/dist") stray_ref = None
  /\ CheckFacts.emitted chunk_without_map stripped_twice_in_a app_root
       (Some "/app/dist") stray_ref
     = ["Stripped conditional import binding 'devOnly' still in output (a.ts, a.ts, b.ts)"]
  /\ CheckFacts.spec_unlocalized_message chunk_without_map stripped_twice_in_a
       app_root (Some "/app/dist") stray_ref
     = "Stripped conditional import binding 'devOnly' still in output (a.ts, b.ts)"
  /\ CheckFacts.emitted chunk_without_map stripped_twice_in_a app_root
       (Some "/app/dist") stray_ref
     <> [CheckFacts.spec_unlocalized_message chunk_without_map stripped_twice_in_a
           app_root (Some "/app/dist") stray_ref].
Proof. repeat split; vm_compute; solve [reflexivity | discriminate]. Qed.

(** C6 at a file with two imports of one specifier, whose predicate reads
    the accessor five times in all: one call of the resolver, one promise. *)
Example two_imports_one_resolution :
  let tr := effects (transform "/app/index.ts" strip_by_path app_context
                       "side-effect-and-named"
                       [Read 1; Settle 1; Read 0; Settle 0; Read 0]) in
  TransformFacts.resolve_calls tr = ["./devOnly"]
  /\ TransformFacts.accessor_reads tr
     = [("./devOnly", 0); ("./devOnly", 0); ("./devOnly", 0); ("./devOnly", 0);
        ("./devOnly", 0)].
Proof. vm_compute. split; reflexivity. Qed.

(** C7 at the type-only fixture. *)
Lemma type_only_imports_are_left_alone_witness :
  parse "type-only" (Js.endsWith "/app/index.ts" ".tsx") = inr type_only
  /\ (forall pos ctx,
        Inner (EShouldStrip pos ctx)
          ∈ hook_effects (transform_hook strip_dev "type-only" "/app/index.ts"
                            [Settle 1] configured) ->
        exists node, type_only !! pos = Some (ImportDeclarationItem node)
                     /\ typeOnly node = false)
  /\ (forall pos node cfg env,
        type_only !! pos = Some (ImportDeclarationItem node) -> typeOnly node = true ->
        cachedConfig configured = Some cfg -> cachedEnv configured = Some env ->
        TransformFacts.decided_strip
          (body (scatter "/app/index.ts" strip_dev
                   (PluginFacts.hook_context cfg env) type_only init)) pos
        = false
        /\ forall code map,
             result (transform_hook strip_dev "type-only" "/app/index.ts"
                       [Settle 1] configured) = HookCode code map ->
             (code, map)
             = print (TransformFacts.retained "/app/index.ts" strip_dev
                        (PluginFacts.hook_context cfg env) type_only)
                 (TransformFacts.filename "/app/index.ts"
                    (PluginFacts.hook_context cfg env))
             /\ ImportDeclarationItem node
                  ∈ TransformFacts.retained "/app/index.ts" strip_dev
                      (PluginFacts.hook_context cfg env) type_only)
  /\ (forall n,
        importSymbolsToSource
          (after (transform_hook strip_dev "type-only" "/app/index.ts"
                    [Settle 1] configured)) !! n
        <> importSymbolsToSource configured !! n ->
        exists pos node,
          type_only !! pos = Some (ImportDeclarationItem node)
          /\ typeOnly node = false
          /\ n ∈ TransformFacts.names (specifiers node)).
Proof.
  split; [vm_compute; reflexivity|].
  apply (PluginFacts.type_only_imports_are_left_alone strip_dev
           "type-only" "/app/index.ts" [Settle 1] configured type_only).
  vm_compute; reflexivity.
Defined.

(** The build of a.ts and b.ts, both of which strip [devOnly]. *)
Definition built : PluginState := fold_left (call strip_dev None) build_a_and_b initial.

(** C8 at that build, with an asset and a chunk without a source map. *)
Lemma findings_are_aggregated_into_one_error_witness :
  reachable strip_dev None built
  /\ (forall reg root,
        checkBundle bundle_without_map reg root (Some "/app/dist")
        = concat ((fun chunk => checkChunk chunk reg root (Some "/app/dist"))
                    <$> CheckFacts.chunks_of bundle_without_map))
  /\ (forall reg root chunk ref msg,
        chunk ∈ CheckFacts.chunks_of bundle_without_map ->
        ref ∈ findUndefinedRefs (chunk_code chunk) ->
        msg ∈ CheckFacts.emitted chunk reg root (Some "/app/dist") ref ->
        msg ∈ checkBundle bundle_without_map reg root (Some "/app/dist"))
  /\ (forall root,
        (forall cfg, cachedConfig built = Some cfg -> root = Host.root cfg) ->
        generateBundle (Some "/app/dist") bundle_without_map built
        = match checkBundle bundle_without_map (importSymbolsToSource built) root
                  (Some "/app/dist") with
          | [] => None
          | errors => Some (Js.join Js.newline errors)
          end).
Proof.
  assert (Hreach : reachable strip_dev None built) by (by exists build_a_and_b).
  split; [exact Hreach|].
  apply (PluginFacts.findings_are_aggregated_into_one_error strip_dev None
           (Some "/app/dist") bundle_without_map built Hreach).
Defined.

(** The error of that build, as the test suite expects it. *)
Example build_fails_listing_both_files :
  generateBundle (Some "/app/dist") bundle_without_map built
  = Some "Stripped conditional import binding 'devOnly' still in output (a.ts, b.ts)".
Proof. vm_compute. reflexivity. Qed.

(** C9 as stated fails for an entry whose value is a bare identifier: the
    value is no literal, yet the entry is kept, under the identifier's
    name. *)
Lemma identifier_value_is_kept :
  Forall (fun attr => ImportAttributesFacts.has_literal_value attr = false)
    (getAttrList import_identifier_value)
  /\ getImportAttributes import_identifier_value !! "only" = Some (VString "dev")
  /\ getImportAttributes import_identifier_value <> ∅.
Proof.
  split; [repeat constructor|]. split; [vm_compute; reflexivity|].
  intros Hempty. apply (f_equal (fun m => m !! "only")) in Hempty.
  vm_compute in Hempty. discriminate.
Qed.

(** C9 at the imports of the fixture with two imports, and at an import
    whose attribute value is a bare identifier. *)
Lemma attributes_read_with_then_asserts_witness :
  with_ import_debug = Some only_dev
  /\ getImportAttributes import_debug
     = ImportAttributesFacts.attributes_of (properties only_dev)
  /\ getImportAttributes import_debug !! "only" = Some (VString "dev")
  /\ getImportAttributes import_util = ∅
  /\ getImportAttributes import_identifier_value !! "only" = Some (VString "dev").
Proof.
  destruct (ImportAttributesFacts.attributes_read_with_then_asserts import_debug)
    as (Hwith & _).
  destruct (ImportAttributesFacts.attributes_read_with_then_asserts import_util)
    as (_ & _ & Hnone & _).
  destruct (ImportAttributesFacts.attributes_read_with_then_asserts
              import_identifier_value) as (_ & _ & _ & _ & _ & Hident).
  split; [reflexivity|]. split; [by apply Hwith|].
  split; [vm_compute; reflexivity|]. split; [by apply Hnone|].
  apply (Hident [] (KeyValueProperty (KeyIdentifier "only") (Identifier "dev")) []
           (VString "only") "dev"); try reflexivity; [discriminate|].
  intros later Hin. by apply not_elem_of_nil in Hin.
Defined.

(** A BigInt literal carries a [value] field and is kept; a number that
    is not finite arrives without a value and is passed over, as is a
    regular expression. *)
Definition import_bigint : ImportDeclaration :=
  {| source := "y"; specifiers := [ImportDefaultSpecifier "x"]; typeOnly := false;
     with_ := Some {| properties :=
                        [KeyValueProperty (KeyIdentifier "a") (BigIntLiteral 1);
                         KeyValueProperty (KeyIdentifier "b") (NumericLiteral None);
                         KeyValueProperty (KeyIdentifier "c")
                           (OtherExpression "RegExpLiteral")] |};
     asserts := None |}.

Example bigint_is_kept_overflow_is_dropped :
  getImportAttributes import_bigint !! "a" = Some (VBigInt 1)
  /\ getImportAttributes import_bigint !! "b" = None
  /\ getImportAttributes import_bigint !! "c" = None.
Proof. vm_compute. repeat split; reflexivity. Qed.

(** C10 at a Vue component. *)
Lemma other_extensions_are_skipped_witness :
  (forall ext, ext ∈ extensions -> ~ exists stem, "/app/App.vue" = stem +:+ ext)
  /\ hook_effects (transform_hook strip_dev "<template/>" "/app/App.vue" []
                     configured) = []
  /\ after (transform_hook strip_dev "<template/>" "/app/App.vue" [] configured)
     = configured
  /\ (forall code map,
        result (transform_hook strip_dev "<template/>" "/app/App.vue" []
                  configured) <> HookCode code map)
  /\ (forall cfg env,
        cachedConfig configured = Some cfg -> cachedEnv configured = Some env ->
        result (transform_hook strip_dev "<template/>" "/app/App.vue" []
                  configured) = HookNull).
Proof.
  assert (Hext : forall ext, ext ∈ extensions ->
                             ~ exists stem, "/app/App.vue" = stem +:+ ext).
  { intros ext Hin Hstem. apply JsFacts.endsWith_spec in Hstem.
    unfold extensions in Hin.
    repeat (apply elem_of_cons in Hin as [-> | Hin]; [vm_compute in Hstem; discriminate|]).
    by apply not_elem_of_nil in Hin. }
  split; [exact Hext|].
  apply (PluginFacts.other_extensions_are_skipped strip_dev
           "<template/>" "/app/App.vue" [] configured Hext).
Defined.

(** The extensions the hook lets through, and some it does not. *)
Example extension_filter :
  matches_extension
    <$> ["a.ts"; "a.tsx"; "a.js"; "a.jsx"; "a.mts"; "a.mjs";
         "a.cts"; "a.cjs"; "a.vue"; "a.json"; "a.ts?raw"]
  = [true; true; true; true; true; true; false; false; false; false; false].
Proof. vm_compute. reflexivity. Qed.

End Scenarios.


(** * Further properties of the code *)

(** ** What the attribute mapping holds *)

Module AttributeLaws.
Import Swc ImportAttributes ImportAttributesFacts.

Section WithNumbers.
Context {number_to_string : NumberToString}.

(** X1. Every attribute of the mapping comes from an entry of the clause
    that was read: an entry whose key node gives that property name and
    whose value node gives that value. *)
Theorem attributes_come_from_entries (node : ImportDeclaration) k v :
  getImportAttributes node !! k = Some v ->
  exists attr key,
    attr ∈ getAttrList node /\ getKey attr = Some key
    /\ property_key key = k /\ getVal attr = Some v.
Proof.
  unfold getImportAttributes. intros Hl.
  apply fold_sound in Hl as [Hl | Hl]; [|done].
  by rewrite lookup_empty in Hl.
Qed.

(** X2. When a key is written more than once, the last entry wins: an
    entry with a key and a value that both carry a [value] field that is
    not [null], whose property name is not [__proto__], gives the attribute
    its value unless a later such entry writes the same property. *)
Theorem last_entry_wins (node : ImportDeclaration) before attr after key v :
  getAttrList node = before ++ attr :: after ->
  getKey attr = Some key -> getVal attr = Some v ->
  property_key key <> "__proto__" ->
  (forall later, later ∈ after -> ~ writes (property_key key) later) ->
  getImportAttributes node !! property_key key = Some v.
Proof.
  intros Hlist Hkey Hval Hproto Hafter. unfold getImportAttributes.
  rewrite Hlist. by apply fold_last_write.
Qed.

(** X3. The mapping never has a property named [__proto__]: an entry with
    that key is dropped, whatever its value. *)
Theorem proto_is_never_an_attribute (node : ImportDeclaration) :
  getImportAttributes node !! "__proto__" = None.
Proof. unfold getImportAttributes. by apply fold_no_proto. Qed.

End WithNumbers.
End AttributeLaws.


(** ** How the transform runs *)

Module TransformLaws.
Import Swc ImportAttributes Host Transform TransformFacts.

(** The calls of the predicate among the effects: position and context. *)
Definition predicate_calls (tr : list Effect) : list (nat * ShouldStripContext) :=
  omap (fun e => match e with
                 | EShouldStrip pos ctx => Some (pos, ctx)
                 | _ => None
                 end) tr.

Lemma predicate_calls_app tr tr' :
  predicate_calls (tr ++ tr') = predicate_calls tr ++ predicate_calls tr'.
Proof. apply omap_app. Qed.

(** The calls of the printer among the effects: body and file name. *)
Definition print_calls (tr : list Effect) : list (list ModuleItem * string) :=
  omap (fun e => match e with
                 | EPrint kept filename => Some (kept, filename)
                 | _ => None
                 end) tr.

Lemma set_add_NoDup x (s : list string) : NoDup s -> NoDup (Js.set_add x s).
Proof.
  intros Hs. unfold Js.set_add. case_decide as Hin; [done|].
  apply NoDup_app. split; [done|]. split; [|apply NoDup_singleton].
  intros y Hy ->%list_elem_of_singleton. done.
Qed.

Lemma fold_set_add_NoDup (specs : list ImportSpecifier) (s : list string) :
  NoDup s ->
  NoDup (fold_left (fun s spec => Js.set_add (local_value spec) s) specs s).
Proof.
  revert s. induction specs as [|spec specs IH]; intros s Hs; [done|].
  simpl. by apply IH, set_add_NoDup.
Qed.

Section OneFile.
Context {node_path : NodePath} {swc_core : SwcCore} {resolver : Resolver}
        {number_to_string : NumberToString}.
Variable id : string.
Variable shouldStrip : ShouldStripFn.
Variable context : TransformContext.

(** The call the loop makes for the statement at [pos], if it makes one. *)
Definition call_of (pos : nat) (item : ModuleItem)
    : option (nat * ShouldStripContext) :=
  (fun node => (pos, make_ctx id context node)) <$> candidate item.

(** One call for each import that is not type-only, in source order. *)
Definition expected_calls (parsed : list ModuleItem)
    : list (nat * ShouldStripContext) :=
  omap (fun c => c) (imap call_of parsed).

Lemma read_adds_no_call pos t st :
  predicate_calls (trace (read_resolvedTarget id context pos t st))
  = predicate_calls (trace st).
Proof.
  destruct (read_resolvedTarget_trace id context pos t st) as (p & [-> | ->]);
    rewrite predicate_calls_app; simpl; by rewrite app_nil_r.
Qed.

Lemma iter_read_adds_no_call n pos t st :
  predicate_calls (trace (Nat.iter n (read_resolvedTarget id context pos t) st))
  = predicate_calls (trace st).
Proof.
  induction n as [|n IH]; [done|]. simpl. by rewrite read_adds_no_call.
Qed.

Lemma scatter_calls items st :
  thrown (scatter id shouldStrip context items st) = None ->
  predicate_calls (trace (scatter id shouldStrip context items st))
  = predicate_calls (trace st)
      ++ omap (fun c => c) (imap (fun i => call_of (length (body st) + i)) items).
Proof.
  revert st. induction items as [|item items IH]; intros st Hth.
  - simpl. by rewrite app_nil_r.
  - assert (Hshift : forall st' : State,
              length (body st') = S (length (body st)) ->
              imap (fun i => call_of (length (body st') + i)) items
              = imap ((fun i => call_of (length (body st) + i)) ∘ S) items).
    { intros st' Hlen. apply imap_ext. intros i x _. simpl.
      rewrite Hlen. f_equal. lia. }
    assert (Hlen : forall sl st', body st' = body st ->
              length (body (push sl st')) = S (length (body st))).
    { intros sl st' Hb. simpl. rewrite Hb, length_app. simpl. lia. }
    simpl in Hth |- *. rewrite Nat.add_0_r.
    destruct item as [node|ty text].
    + destruct (typeOnly node) eqn:Hty.
      * assert (Hc : call_of (length (body st)) (ImportDeclarationItem node) = None)
          by (unfold call_of; simpl; by rewrite Hty).
        rewrite (IH _ Hth), (Hshift _ (Hlen _ st eq_refl)), Hc. done.
      * assert (Hc : call_of (length (body st)) (ImportDeclarationItem node)
                     = Some (length (body st), make_ctx id context node))
          by (unfold call_of; simpl; by rewrite Hty).
        rewrite Hc.
        set (pos := length (body st)) in *.
        set (ctx := make_ctx id context node) in *.
        set (st1 := count_call (log [EShouldStrip pos ctx] st)) in *.
        destruct (iter_read_frame id context
                    (syncReads (shouldStrip (calls st) ctx))
                    pos (Swc.source node) st1) as (Hb & _).
        pose proof (iter_read_adds_no_call
                      (syncReads (shouldStrip (calls st) ctx))
                      pos (Swc.source node) st1) as Hcalls.
        destruct (returned (shouldStrip (calls st) ctx)) as [e|s]; [done|].
        rewrite (IH _ Hth), (Hshift _ (Hlen _ _ Hb)).
        cbn [trace push set_body]. rewrite Hcalls.
        cbn [trace st1 count_call log]. rewrite predicate_calls_app.
        rewrite <- app_assoc. done.
    + assert (Hc : call_of (length (body st)) (OtherItem ty text) = None) by done.
      rewrite (IH _ Hth), (Hshift _ (Hlen _ st eq_refl)), Hc. done.
Qed.

Lemma gather_adds_no_call parsed sched st :
  predicate_calls (trace (gather id context parsed sched st))
  = predicate_calls (trace st).
Proof.
  revert st. induction sched as [|[pos|pos] sched IH]; intros st; [done| |];
    unfold gather in *; simpl; rewrite IH.
  - by rewrite settle_trace.
  - unfold read. destruct (parsed !! pos) as [[node|]|]; try done.
    destruct (typeOnly node); [done|]. case_decide; [|done].
    apply read_adds_no_call.
Qed.

Lemma effects_calls text sched parsed :
  parse text (Js.endsWith id ".tsx") = inr parsed ->
  predicate_calls (effects (transform id shouldStrip context text sched))
  = predicate_calls (trace (scatter id shouldStrip context parsed init)).
Proof.
  intros Hp.
  destruct (transform_effects id shouldStrip context text sched)
    as [(e & Hpe & _) | (parsed' & tl & Hp' & -> & Htl)]; [congruence|].
  rewrite Hp in Hp'. injection Hp' as <-.
  rewrite app_comm_cons, predicate_calls_app. simpl.
  unfold run_state. rewrite gather_adds_no_call.
  destruct Htl as [-> | (kept & f & ->)]; simpl; by rewrite app_nil_r.
Qed.

(** X4. When the predicate never throws, it is called once for each import
    that is not type-only, in source order, on the context built from that
    import, before any promise is awaited: the calls do not depend on the
    order in which promises settle. *)
Theorem predicate_called_once_per_import text sched parsed :
  parse text (Js.endsWith id ".tsx") = inr parsed ->
  (forall k ctx e, returned (shouldStrip k ctx) <> Throws e) ->
  predicate_calls (effects (transform id shouldStrip context text sched))
  = expected_calls parsed.
Proof.
  intros Hp Hnothrow. rewrite (effects_calls text sched parsed Hp).
  assert (Hth : thrown (scatter id shouldStrip context parsed init) = None).
  { destruct (thrown _) as [e|] eqn:Hth; [|done].
    apply scatter_thrown in Hth as [Hth | (k & ctx & Hret)]; [done|].
    by destruct (Hnothrow k ctx e). }
  by rewrite (scatter_calls parsed init Hth).
Qed.

Lemma scatter_stops a b st e :
  thrown st = None ->
  thrown (scatter id shouldStrip context a st) = Some e ->
  scatter id shouldStrip context (a ++ b) st = scatter id shouldStrip context a st.
Proof.
  revert st. induction a as [|item a IH]; intros st Hst Hth; [simpl in Hth; congruence|].
  simpl in Hth |- *. destruct item as [node|ty text].
  - destruct (typeOnly node); [by apply IH|].
    set (pos := length (body st)) in *.
    set (ctx := make_ctx id context node) in *.
    set (st1 := count_call (log [EShouldStrip pos ctx] st)) in *.
    destruct (iter_read_frame id context
                (syncReads (shouldStrip (calls st) ctx))
                pos (Swc.source node) st1) as (_ & _ & _ & _ & Hthr & _).
    destruct (returned (shouldStrip (calls st) ctx)) as [e'|s]; [done|].
    apply IH; [|done]. simpl. by rewrite Hthr.
  - by apply IH.
Qed.

(** X5. When a call of the predicate throws, the loop ends there: the
    statements after the import have no part in the run. Their predicates
    are not called, and the transform is rejected with the error thrown,
    whatever happens to the promises created before. *)
Theorem throw_ends_the_loop before after sched e :
  thrown (scatter id shouldStrip context before init) = Some e ->
  scatter id shouldStrip context (before ++ after) init
  = scatter id shouldStrip context before init
  /\ outcome (transform_parsed id shouldStrip context (before ++ after) sched)
     = Rejected e
  /\ predicate_calls
       (effects (transform_parsed id shouldStrip context (before ++ after) sched))
     = predicate_calls (trace (scatter id shouldStrip context before init)).
Proof.
  intros Hth.
  pose proof (scatter_stops before after init e eq_refl Hth) as Hstop.
  split; [done|].
  unfold transform_parsed, run_state. rewrite gather_thrown, Hstop, Hth. simpl.
  split; [done|]. by rewrite gather_adds_no_call.
Qed.

Lemma gather_unsettled parsed sched st pos :
  Settle pos ∉ sched ->
  body (gather id context parsed sched st) !! pos = body st !! pos.
Proof.
  revert st. induction sched as [|ev sched IH]; intros st Hnot; [done|].
  apply not_elem_of_cons in Hnot as [Hne Hnot].
  simpl. rewrite IH by done. destruct ev as [pos'|pos']; simpl.
  - apply settle_other. congruence.
  - by destruct (read_frame id context parsed pos' st) as (-> & _).
Qed.

(** X6. The transform does not complete while a promise it created has not
    settled: it is still pending, or it has been rejected. *)
Theorem unsettled_promise_holds_the_transform parsed sched pos node s :
  body (scatter id shouldStrip context parsed init) !! pos = Some (Waiting node s) ->
  Settle pos ∉ sched ->
  outcome (transform_parsed id shouldStrip context parsed sched) = Pending
  \/ exists e,
      outcome (transform_parsed id shouldStrip context parsed sched) = Rejected e.
Proof.
  intros Hpos Hnot. unfold transform_parsed.
  destruct (thrown _) as [e|]; [right; eauto|].
  unfold promise_all. destruct (rejected _) as [e|]; [right; eauto|].
  destruct (mapM slot_value _) as [results|] eqn:Hm; [|by left].
  apply mapM_Some in Hm. unfold run_state in Hm.
  pose proof (gather_unsettled parsed sched
                (scatter id shouldStrip context parsed init) pos Hnot) as Hsame.
  rewrite Hpos in Hsame.
  destruct (Forall2_lookup_l _ _ _ _ _ Hm Hsame) as (r & _ & Hr). done.
Qed.

(** X7. Of several rejections the first one delivered is the error of the
    transform: when the predicate did not throw and the promise at [pos]
    is rejected with [e] before any other rejection is delivered, the
    transform is rejected with [e]. *)
Theorem first_rejection_wins parsed pre post pos node e :
  thrown (scatter id shouldStrip context parsed init) = None ->
  body (scatter id shouldStrip context parsed init) !! pos
    = Some (Waiting node (Rejects e)) ->
  (forall p nd e',
      Settle p ∈ pre ->
      body (scatter id shouldStrip context parsed init) !! p
      <> Some (Waiting nd (Rejects e'))) ->
  outcome (transform_parsed id shouldStrip context parsed
             (pre ++ Settle pos :: post)) = Rejected e.
Proof.
  intros Hth Hpos Hpre. unfold transform_parsed, run_state.
  set (st1 := scatter id shouldStrip context parsed init) in *.
  rewrite gather_thrown. fold st1. rewrite Hth.
  assert (Hnot : Settle pos ∉ pre) by (intros Hin; by destruct (Hpre pos node e Hin)).
  assert (Hrej : rejected (gather id context parsed pre st1) = None).
  { destruct (rejected _) as [e'|] eqn:Hr; [|done].
    apply gather_rejected_origin in Hr as [Hr | (p & nd & Hp & Hin)].
    - destruct (scatter_untouched id shouldStrip context parsed init) as (_ & _ & Hr0).
      simpl in Hr0. fold st1 in Hr0. congruence.
    - by destruct (Hpre p nd e' Hin). }
  assert (Hslot : body (gather id context parsed pre st1) !! pos
                  = Some (Waiting node (Rejects e)))
    by (by rewrite gather_unsettled).
  unfold gather at 1. rewrite fold_left_app. simpl.
  fold (gather id context parsed pre st1).
  fold (gather id context parsed post
          (settle pos (gather id context parsed pre st1))).
  assert (Hset : rejected (settle pos (gather id context parsed pre st1)) = Some e).
  { unfold settle. rewrite Hslot, Hrej. done. }
  unfold promise_all.
  by rewrite (gather_rejected_keeps id context parsed post _ e Hset).
Qed.

Lemma settle_NoDup pos st :
  NoDup (targets st) -> NoDup (symbols st) ->
  NoDup (targets (settle pos st)) /\ NoDup (symbols (settle pos st)).
Proof.
  intros Ht Hs. unfold settle.
  destruct (body st !! pos) as [[item|node [[]|e]|r|e]|]; try done.
  - simpl. split; [by apply set_add_NoDup | by apply fold_set_add_NoDup].
  - by destruct (rejected st).
Qed.

Lemma gather_NoDup parsed sched st :
  NoDup (targets st) -> NoDup (symbols st) ->
  NoDup (targets (gather id context parsed sched st))
  /\ NoDup (symbols (gather id context parsed sched st)).
Proof.
  revert st. induction sched as [|[pos|pos] sched IH]; intros st Ht Hs; [done| |];
    simpl; apply IH.
  - by apply settle_NoDup.
  - by apply settle_NoDup.
  - by destruct (read_frame id context parsed pos st) as (_ & -> & _).
  - by destruct (read_frame id context parsed pos st) as (_ & _ & -> & _).
Qed.

(** The imports the predicate decided to strip, by position. *)
Lemma decided_strip_waiting parsed pos node :
  body (scatter id shouldStrip context parsed init) !! pos
    = Some (Waiting node (Fulfils true))
  <-> parsed !! pos = Some (ImportDeclarationItem node)
      /\ decided_strip (body (scatter id shouldStrip context parsed init)) pos = true.
Proof.
  unfold decided_strip. split.
  - intros Hw. rewrite Hw. split; [|done].
    by apply waiting_is_candidate in Hw as [? _].
  - intros [Hp Hd].
    destruct (body _ !! pos) as [[|nd [[]|]| |]|] eqn:Hslot; try done.
    apply waiting_is_candidate in Hslot as [Hnd _]. congruence.
Qed.

(** What a run that completes has recorded. *)
Lemma run_recorded parsed sched results :
  thrown (run_state id shouldStrip context parsed sched) = None ->
  promise_all (run_state id shouldStrip context parsed sched) = Resolved results ->
  NoDup (targets (run_state id shouldStrip context parsed sched))
  /\ NoDup (symbols (run_state id shouldStrip context parsed sched))
  /\ forall t,
       t ∈ targets (run_state id shouldStrip context parsed sched)
       <-> exists pos node,
           body (scatter id shouldStrip context parsed init) !! pos
             = Some (Waiting node (Fulfils true))
           /\ t = Swc.source node.
Proof.
  unfold run_state. set (st1 := scatter id shouldStrip context parsed init).
  intros Hth Hall. rewrite gather_thrown in Hth.
  pose proof (scatter_aligned id shouldStrip context parsed init []
                (Forall2_nil_2 _ _ aligned) Hth) as Hal.
  simpl in Hal. fold st1 in Hal.
  destruct (scatter_untouched id shouldStrip context parsed init) as (Hsym & Htar & _).
  simpl in Hsym, Htar. fold st1 in Hsym, Htar.
  destruct (gather_NoDup parsed sched st1) as [Hnt Hns];
    [rewrite Htar; constructor | rewrite Hsym; constructor |].
  split; [done|]. split; [done|].
  pose proof (gathered_gather id context _ parsed sched _
                (aligned_gathered _ _ Hal Hsym Htar)) as [Hev _ Htars].
  apply promise_all_values in Hall.
  intros t. rewrite Htars. unfold stripped_targets. split.
  - intros (pos & node & H0 & _ & Ht). eauto.
  - intros (pos & node & H0 & Ht). exists pos, node. split; [done|]. split; [|done].
    destruct (Forall2_lookup_l _ _ _ _ _ Hev H0) as (s & Hs & Hevs).
    destruct (Forall2_lookup_l _ _ _ _ _ Hall Hs) as (r & _ & Hr).
    inversion Hevs; subst; simpl in Hr; done.
Qed.

Lemma transform_recorded text sched r :
  outcome (transform id shouldStrip context text sched) = Resolved (Some r) ->
  exists parsed,
    parse text (Js.endsWith id ".tsx") = inr parsed
    /\ NoDup (strippedImportTargets r) /\ NoDup (strippedImportSymbols r)
    /\ (forall t,
          t ∈ strippedImportTargets r
          <-> exists pos node,
              body (scatter id shouldStrip context parsed init) !! pos
                = Some (Waiting node (Fulfils true))
              /\ t = Swc.source node)
    /\ (forall n,
          n ∈ strippedImportSymbols r
          <-> exists pos node,
              body (scatter id shouldStrip context parsed init) !! pos
                = Some (Waiting node (Fulfils true))
              /\ n ∈ names (specifiers node)).
Proof.
  intros Hres.
  destruct (transform_resolved id shouldStrip context text sched _ Hres)
    as (parsed & Hp & _ & Has).
  exists parsed. split; [done|]. simpl in Has. destruct Has as (_ & _ & _ & Hsyms).
  unfold transform in Hres. rewrite Hp in Hres. simpl in Hres.
  unfold transform_parsed in Hres.
  destruct (thrown (run_state id shouldStrip context parsed sched)) eqn:Hth;
    [done|].
  destruct (promise_all (run_state id shouldStrip context parsed sched))
    as [|e|results] eqn:Hall; [done..|].
  destruct (run_recorded parsed sched results Hth Hall) as (Hnt & Hns & Htars).
  destruct (length (symbols _) =? 0); [done|].
  simpl in Hres. injection Hres as <-. simpl in *.
  split; [done|]. split; [done|]. split; [exact Htars | exact Hsyms].
Qed.

(** X8. The result of a transform lists each stripped specifier once and
    each stripped name once: the specifiers are exactly the sources of the
    imports the predicate decided to strip, and the names exactly the local
    names those imports bind. *)
Theorem result_records_what_was_stripped text sched r :
  outcome (transform id shouldStrip context text sched) = Resolved (Some r) ->
  exists parsed,
    parse text (Js.endsWith id ".tsx") = inr parsed
    /\ NoDup (strippedImportTargets r) /\ NoDup (strippedImportSymbols r)
    /\ (forall t,
          t ∈ strippedImportTargets r
          <-> exists pos node,
              parsed !! pos = Some (ImportDeclarationItem node)
              /\ decided_strip (body (scatter id shouldStrip context parsed init)) pos
                 = true
              /\ t = Swc.source node)
    /\ (forall n,
          n ∈ strippedImportSymbols r
          <-> exists pos node,
              parsed !! pos = Some (ImportDeclarationItem node)
              /\ decided_strip (body (scatter id shouldStrip context parsed init)) pos
                 = true
              /\ n ∈ names (specifiers node)).
Proof.
  intros Hres.
  destruct (transform_recorded text sched r Hres)
    as (parsed & Hp & Hnt & Hns & Htars & Hsyms).
  exists parsed. repeat split; try done.
  - intros (pos & node & Hw & Ht)%Htars. exists pos, node.
    apply decided_strip_waiting in Hw as [? ?]. done.
  - intros (pos & node & Hpos & Hd & Ht). apply Htars. exists pos, node.
    split; [|done]. by apply decided_strip_waiting.
  - intros (pos & node & Hw & Hn)%Hsyms. exists pos, node.
    apply decided_strip_waiting in Hw as [? ?]. done.
  - intros (pos & node & Hpos & Hd & Hn). apply Hsyms. exists pos, node.
    split; [|done]. by apply decided_strip_waiting.
Qed.

Lemma ok_effects_print_nothing parsed tr :
  Forall (ok_effect id context parsed) tr -> print_calls tr = [].
Proof.
  induction 1 as [|e tr He _ IH]; [done|].
  destruct e; simpl in *; done.
Qed.

(** X22. The printer runs exactly when the transform returns a result that
    is not null. Then it runs once, as the last effect, on the statements
    that are kept and under the file's path relative to the root, and the
    code and the map of the result are what it gives. A file that is left
    unchanged, that does not parse, whose predicate fails or whose promises
    are still pending is never printed. *)
Theorem printed_exactly_when_code_is_returned text sched :
  (forall r,
      outcome (transform id shouldStrip context text sched) = Resolved (Some r) ->
      exists parsed before,
        parse text (Js.endsWith id ".tsx") = inr parsed
        /\ effects (transform id shouldStrip context text sched)
           = before ++ [EPrint (retained id shouldStrip context parsed)
                          (filename id context)]
        /\ print_calls before = []
        /\ (Transform.code r, Transform.map r)
           = print (retained id shouldStrip context parsed) (filename id context))
  /\ ((forall r,
          outcome (transform id shouldStrip context text sched) <> Resolved (Some r)) ->
      print_calls (effects (transform id shouldStrip context text sched)) = []).
Proof.
  unfold transform.
  destruct (parse text (Js.endsWith id ".tsx")) as [e|parsed] eqn:Hp; simpl;
    [done|].
  pose proof (ok_effects_print_nothing parsed _
                (run_state_ok id shouldStrip context parsed sched)) as Hno.
  unfold transform_parsed.
  destruct (thrown (run_state id shouldStrip context parsed sched)) eqn:Hth;
    simpl; [done|].
  destruct (promise_all (run_state id shouldStrip context parsed sched))
    as [|e|results] eqn:Hall; simpl; [done..|].
  destruct (run_resolved id shouldStrip context parsed sched results Hth Hall)
    as [Hkept _].
  fold (compact results). rewrite Hkept. fold (filename id context).
  destruct (length (symbols _) =? 0); simpl; [done|]. split.
  - intros r [= <-]. simpl.
    exists parsed, (EParse text (Js.endsWith id ".tsx")
                      :: trace (run_state id shouldStrip context parsed sched)).
    split; [done|]. split; [done|]. split; [done|].
    by destruct (print _ _).
  - intros Hnone. by destruct (Hnone _ eq_refl).
Qed.

End OneFile.
End TransformLaws.


(** ** What the verifier reports *)

Module VerifierLaws.
Import Host Check CheckFacts.

(** The characters of a string. *)
Fixpoint chars (s : string) : list ascii :=
  match s with
  | EmptyString => []
  | String c rest => c :: chars rest
  end.

Lemma split_at_first_sep sep (n rest : string) :
  sep ∉ chars n ->
  Js.split sep (n +:+ String sep rest) = n :: Js.split sep rest.
Proof.
  induction n as [|c n IH]; intros Hn.
  - change (Js.split sep (String sep rest) = EmptyString :: Js.split sep rest).
    simpl. by rewrite Ascii.eqb_refl.
  - change (Js.split sep (String c (n +:+ String sep rest))
            = String c n :: Js.split sep rest).
    simpl in Hn. apply not_elem_of_cons in Hn as [Hc Hn].
    simpl. destruct (Ascii.eqb_spec c sep) as [->|_]; [done|].
    by rewrite (IH Hn).
Qed.

Lemma split_without_sep sep (s : string) :
  sep ∉ chars s -> Js.split sep s = [s].
Proof.
  induction s as [|c s IH]; intros Hs; [done|].
  simpl in Hs. apply not_elem_of_cons in Hs as [Hc Hs].
  simpl. destruct (Ascii.eqb_spec c sep) as [->|_]; [done|].
  by rewrite (IH Hs).
Qed.

(** X12. The name is read back from a message of the linter: from
    ['<name>' is not defined.], or any text that follows the closing
    apostrophe, [quoted_name] yields the name, when the name holds no
    apostrophe itself; from a message without any apostrophe it yields
    nothing. *)
Theorem quoted_name_reads_the_name :
  (forall n rest : string,
      "'"%char ∉ chars n ->
      quoted_name (String "'"%char (n +:+ String "'"%char rest)) = Some n)
  /\ (forall msg : string, "'"%char ∉ chars msg -> quoted_name msg = None).
Proof.
  split.
  - intros n rest Hn. unfold quoted_name.
    change (Js.split "'"%char (String "'"%char (n +:+ String "'"%char rest)))
      with (EmptyString :: Js.split "'"%char (n +:+ String "'"%char rest)).
    by rewrite split_at_first_sep.
  - intros msg Hmsg. unfold quoted_name. by rewrite split_without_sep.
Qed.

Section WithHost.
Context {node_path : NodePath} {eslint : Eslint} {trace_mapping : TraceMapping}.

(** The message [msg] reports the undefined name [n]. *)
Definition reports (msg : LintMessage) (n : string) : Prop :=
  ruleId msg = Some "no-undef"
  /\ Js.truthy (quoted_name (message msg)) = Some n.

(** [ref] is taken from the first message of [messages] that reports its
    name. *)
Definition first_report (messages : list LintMessage) (ref : UndefinedRef) : Prop :=
  exists i msg,
    messages !! i = Some msg /\ reports msg (name ref)
    /\ line ref = Some (msg_line msg) /\ column ref = Some (msg_column msg)
    /\ forall j msg', j < i -> messages !! j = Some msg' -> ~ reports msg' (name ref).

Lemma first_report_app messages more ref :
  first_report messages ref -> first_report (messages ++ more) ref.
Proof.
  intros (i & msg & Hi & Hrep & Hl & Hc & Hfirst).
  pose proof (lookup_lt_Some _ _ _ Hi) as Hlt.
  exists i, msg. split; [by rewrite lookup_app_l|].
  split; [done|]. split; [done|]. split; [done|].
  intros j msg' Hj Hmsg'. rewrite lookup_app_l in Hmsg' by lia.
  by eapply Hfirst.
Qed.

(** The state of the loop of [findUndefinedRefs] after the messages
    [before]. *)
Record collected (before : list LintMessage) (seen : gset string)
    (refs : list UndefinedRef) : Prop := {
  collected_seen : forall n, n ∈ seen <-> n ∈ name <$> refs;
  collected_NoDup : NoDup (name <$> refs);
  collected_first : forall ref, ref ∈ refs -> first_report before ref;
  collected_all : forall msg n, msg ∈ before -> reports msg n -> n ∈ seen;
}.

Lemma collected_skip before seen refs msg :
  (forall n, ~ reports msg n) ->
  collected before seen refs -> collected (before ++ [msg]) seen refs.
Proof.
  intros Hno [Hseen Hnd Hfirst Hall]. constructor; try done.
  - intros ref Href. by apply first_report_app, Hfirst.
  - intros m n [Hm | ->%list_elem_of_singleton]%elem_of_app Hrep; [by eapply Hall|].
    by destruct (Hno n).
Qed.

Lemma collect_spec messages before seen refs :
  collected before seen refs ->
  exists seen',
    collected (before ++ messages) seen' (collect messages seen refs).
Proof.
  revert before seen refs.
  induction messages as [|msg messages IH]; intros before seen refs Hc.
  - exists seen. by rewrite app_nil_r.
  - rewrite cons_middle, app_assoc. simpl.
    destruct (bool_decide (ruleId msg = Some "no-undef")) eqn:Hrule; simpl.
    + apply bool_decide_eq_true in Hrule.
      destruct (Js.truthy (quoted_name (message msg))) as [n|] eqn:Hname.
      * case_decide as Hin.
        -- apply IH. destruct Hc as [Hseen Hnd Hfirst Hall]. constructor; try done.
           ++ intros ref Href. by apply first_report_app, Hfirst.
           ++ intros m n' [Hm | ->%list_elem_of_singleton]%elem_of_app Hrep;
                [by eapply Hall|].
              destruct Hrep as [_ Hn']. congruence.
        -- apply IH. destruct Hc as [Hseen Hnd Hfirst Hall]. constructor.
           ++ intros n'. rewrite fmap_app, elem_of_app, elem_of_union. simpl.
              rewrite elem_of_singleton, list_elem_of_singleton, Hseen. tauto.
           ++ rewrite fmap_app. apply NoDup_app. split; [done|].
              split; [|apply NoDup_singleton].
              intros n' Hn' ->%list_elem_of_singleton. by apply Hin, Hseen.
           ++ intros ref [Href | ->%list_elem_of_singleton]%elem_of_app.
              ** by apply first_report_app, Hfirst.
              ** exists (length before), msg. simpl.
                 split; [by apply list_lookup_middle|]. split; [done|].
                 split; [done|]. split; [done|].
                 intros j msg' Hj Hmsg' Hrep.
                 rewrite lookup_app_l in Hmsg' by done.
                 apply Hin, (Hall msg'); [|done].
                 by eapply list_elem_of_lookup_2.
           ++ intros m n' [Hm | ->%list_elem_of_singleton]%elem_of_app Hrep.
              ** apply elem_of_union. right. by eapply Hall.
              ** destruct Hrep as [_ Hn']. apply elem_of_union. left.
                 apply elem_of_singleton. congruence.
      * apply IH, collected_skip; [|done]. intros n [_ Hn]. congruence.
    + apply bool_decide_eq_false in Hrule.
      apply IH, collected_skip; [|done]. by intros n [Hr _].
Qed.

Lemma findUndefinedRefs_collected code :
  exists seen, collected (verify code) seen (findUndefinedRefs code).
Proof.
  unfold findUndefinedRefs. apply (collect_spec (verify code) [] ∅ []).
  constructor.
  - intros n. split; [by intros ?%not_elem_of_empty | by intros ?%not_elem_of_nil].
  - constructor.
  - intros ref Href. by apply not_elem_of_nil in Href.
  - intros msg n Hmsg. by apply not_elem_of_nil in Hmsg.
Qed.

(** X9. [findUndefinedRefs] returns one reference for each distinct name:
    no two references have the same name, and no name is empty. *)
Theorem undefined_refs_are_distinct code :
  NoDup (name <$> findUndefinedRefs code)
  /\ Forall (fun ref => name ref <> EmptyString) (findUndefinedRefs code).
Proof.
  destruct (findUndefinedRefs_collected code) as (seen & [_ Hnd Hfirst _]).
  split; [done|]. apply Forall_forall. intros ref Href.
  destruct (Hfirst ref Href) as (i & msg & _ & [_ Hn] & _).
  by apply JsFacts.truthy_Some in Hn as [_ Hne].
Qed.

(** X10. A name is among the references exactly when some message of the
    linter has the rule [no-undef] and quotes that name, not empty, as its
    first quoted word. Messages of other rules and messages that quote
    nothing are passed over. *)
Theorem undefined_refs_cover_the_reports code n :
  n ∈ name <$> findUndefinedRefs code
  <-> exists msg, msg ∈ verify code /\ reports msg n.
Proof.
  destruct (findUndefinedRefs_collected code) as (seen & [Hseen _ Hfirst Hall]).
  split.
  - intros (ref & -> & Href)%list_elem_of_fmap.
    destruct (Hfirst ref Href) as (i & msg & Hi & Hrep & _).
    exists msg. split; [by eapply list_elem_of_lookup_2 | done].
  - intros (msg & Hmsg & Hrep). apply Hseen. by eapply Hall.
Qed.

(** X11. The line and the column of a reference are those of the first
    message that reports its name: later messages for the same name are
    passed over. *)
Theorem undefined_ref_is_the_first_report code ref :
  ref ∈ findUndefinedRefs code -> first_report (verify code) ref.
Proof.
  destruct (findUndefinedRefs_collected code) as (seen & [_ _ Hfirst _]).
  apply Hfirst.
Qed.

Lemma elem_of_concat_inv {A} (x : A) (ls : list (list A)) :
  x ∈ concat ls -> exists l, l ∈ ls /\ x ∈ l.
Proof.
  induction ls as [|l ls IH]; simpl; [by intros ?%not_elem_of_nil|].
  intros [Hx | Hx]%elem_of_app.
  - exists l. split; [left | done].
  - destruct (IH Hx) as (l' & Hl' & Hx'). exists l'. split; [by right | done].
Qed.

Lemma elem_of_concat {A} (x : A) (l : list A) (ls : list (list A)) :
  l ∈ ls -> x ∈ l -> x ∈ concat ls.
Proof.
  intros Hl Hx. induction Hl as [l ls | l l' ls _ IH]; simpl;
    apply elem_of_app; auto.
Qed.

Lemma emitted_unrelated chunk reg root outputDir ref :
  relevant chunk reg ref = [] -> emitted chunk reg root outputDir ref = [].
Proof.
  unfold emitted, check_ref, relevant.
  destruct (reg !! name ref) as [sourceIds|]; [|done].
  by intros ->.
Qed.

(** The origins a message lists before they are sorted and joined. *)
Definition listed (chunk : OutputChunk) (reg : gmap string (list string))
    (root : string) (outputDir : option string) (ref : UndefinedRef) : list string :=
  render root outputDir
    <$> match localized chunk outputDir ref with
        | Some src => [src]
        | None => relevant chunk reg ref
        end.

(** The matching references: in a code artifact of the bundle, undefined,
    and stripped from a module of that artifact. *)
Definition dangling (bundle : Bundle) (reg : gmap string (list string))
    (chunk : OutputChunk) (ref : UndefinedRef) : Prop :=
  chunk ∈ chunks_of bundle
  /\ ref ∈ findUndefinedRefs (chunk_code chunk)
  /\ relevant chunk reg ref <> [].

Lemma checkBundle_elem bundle reg root outputDir msg :
  msg ∈ checkBundle bundle reg root outputDir
  <-> exists chunk ref,
      dangling bundle reg chunk ref
      /\ msg = describe (name ref) (listed chunk reg root outputDir ref).
Proof.
  rewrite checkBundle_chunks. split.
  - intros (msgs & (chunk & -> & Hchunk)%list_elem_of_fmap & Hmsg)%elem_of_concat_inv.
    rewrite checkChunk_emitted in Hmsg.
    apply elem_of_concat_inv in Hmsg
      as (em & (ref & -> & Href)%list_elem_of_fmap & Hmsg).
    exists chunk, ref.
    destruct (decide (relevant chunk reg ref = [])) as [Hrel|Hrel].
    + rewrite emitted_unrelated in Hmsg by done. by apply not_elem_of_nil in Hmsg.
    + rewrite emitted_matching in Hmsg by done.
      apply list_elem_of_singleton in Hmsg. done.
  - intros (chunk & ref & (Hchunk & Href & Hrel) & ->).
    apply (elem_of_concat _ (checkChunk chunk reg root outputDir));
      [by apply (list_elem_of_fmap_2 (fun c => checkChunk c reg root outputDir))|].
    apply (emitted_elem _ _ _ _ ref); [done|].
    rewrite emitted_matching by done. left.
Qed.

(** X13. Every message of the verifier is about a matching reference: an
    undefined reference in a code artifact of the bundle whose name the
    registry holds with an origin among the modules of that artifact. The
    message is the template applied to that name and to the source the map
    gives, or else to those origins. A name the registry does not hold, or
    holds only for modules outside the artifact, gives no message. *)
Theorem messages_are_about_stripped_names bundle reg root outputDir msg :
  msg ∈ checkBundle bundle reg root outputDir ->
  exists chunk ref ids,
    chunk ∈ chunks_of bundle
    /\ ref ∈ findUndefinedRefs (chunk_code chunk)
    /\ reg !! name ref = Some ids
    /\ (exists origin, origin ∈ ids /\ origin ∈ moduleIdsInChunk chunk)
    /\ msg = describe (name ref) (listed chunk reg root outputDir ref).
Proof.
  intros (chunk & ref & (Hchunk & Href & Hrel) & ->)%checkBundle_elem.
  unfold relevant in Hrel.
  destruct (reg !! name ref) as [ids|] eqn:Hreg; [|done].
  exists chunk, ref, ids.
  split; [done|]. split; [done|]. split; [done|]. split.
  - destruct (filter _ ids) as [|origin rest] eqn:Hf; [done|].
    assert (Hin : origin ∈ filter (fun i => i ∈ moduleIdsInChunk chunk) ids)
      by (rewrite Hf; left).
    apply list_elem_of_filter in Hin as [? ?]. eauto.
  - unfold listed, relevant. by rewrite Hreg.
Qed.

(** X23. The messages of a code artifact are one for each matching
    reference, in the order of the references: building the trace map once
    and keeping it for the later references gives what a fresh lookup for
    each reference gives. *)
Theorem chunk_messages_follow_the_references chunk reg root outputDir :
  checkChunk chunk reg root outputDir
  = (fun ref => describe (name ref) (listed chunk reg root outputDir ref))
      <$> filter (fun ref => relevant chunk reg ref <> [])
            (findUndefinedRefs (chunk_code chunk)).
Proof.
  rewrite checkChunk_emitted.
  induction (findUndefinedRefs (chunk_code chunk)) as [|ref refs IH]; [done|].
  cbn [fmap list_fmap concat]. rewrite filter_cons. case_decide as Hrel.
  - rewrite emitted_matching by done. rewrite fmap_cons. simpl.
    f_equal. exact IH.
  - rewrite emitted_unrelated; [exact IH|].
    by destruct (decide (relevant chunk reg ref = [])).
Qed.


End WithHost.
End VerifierLaws.


(** ** The plugin over a build *)

Module LifecycleLaws.
Import Swc ImportAttributes Host Transform Check Plugin.
Import TransformFacts CheckFacts PluginFacts TransformLaws VerifierLaws.

Lemma endsWith_other_suffix (stem p q : string) :
  String.length p = String.length q -> p <> q ->
  Js.endsWith (stem +:+ p) q = false.
Proof.
  intros Hlen Hne. unfold Js.endsWith. rewrite JsFacts.length_append, <- Hlen.
  destruct (Nat.leb_spec (String.length p) (String.length stem + String.length p))
    as [_|]; [|lia].
  replace (String.length stem + String.length p - String.length p)
    with (String.length stem) by lia.
  rewrite JsFacts.substring_append. by apply String.eqb_neq.
Qed.

Lemma matches_extension_spec (id : string) :
  matches_extension id = true
  <-> exists ext stem, ext ∈ extensions /\ id = stem +:+ ext.
Proof.
  unfold matches_extension. rewrite existsb_exists. split.
  - intros (ext & Hin%list_elem_of_In & (stem & ->)%JsFacts.endsWith_spec). eauto.
  - intros (ext & stem & Hin & ->). exists ext.
    split; [by apply list_elem_of_In|]. apply JsFacts.endsWith_spec. eauto.
Qed.

(** Every list of the registry is not empty and holds only ids [P] holds
    of. *)
Definition registry_holds (P : string -> Prop) (reg : gmap string (list string))
    : Prop :=
  forall n ids, reg !! n = Some ids -> ids <> [] /\ Forall P ids.

Lemma record_symbol_holds (P : string -> Prop) id reg n :
  P id -> registry_holds P reg -> registry_holds P (record_symbol id reg n).
Proof.
  intros Hid Hreg n' ids. unfold record_symbol.
  destruct (decide (n = n')) as [<-|Hne].
  - rewrite lookup_insert_eq. intros [= <-]. split.
    + by destruct (default [] (reg !! n)).
    + apply Forall_app. split; [|by repeat constructor].
      destruct (reg !! n) as [old|] eqn:Hold; simpl; [|constructor].
      by apply (Hreg n old).
  - rewrite lookup_insert_ne by done. apply Hreg.
Qed.

Lemma record_symbols_hold (P : string -> Prop) id (syms : list string) reg :
  P id -> registry_holds P reg ->
  registry_holds P (fold_left (record_symbol id) syms reg).
Proof.
  intros Hid. revert reg. induction syms as [|n syms IH]; intros reg Hreg; [done|].
  simpl. by apply IH, record_symbol_holds.
Qed.

Lemma record_symbols_append id (syms : list string) reg n :
  NoDup syms -> n ∈ syms ->
  fold_left (record_symbol id) syms reg !! n
  = Some (default [] (reg !! n) ++ [id]).
Proof.
  revert reg. induction syms as [|x syms IH]; intros reg Hnd Hin;
    [by apply not_elem_of_nil in Hin|].
  apply NoDup_cons in Hnd as [Hx Hnd]. simpl.
  destruct (decide (n = x)) as [->|Hne].
  - rewrite record_symbols_other by done.
    unfold record_symbol. by rewrite lookup_insert_eq.
  - apply elem_of_cons in Hin as [Hin | Hin]; [done|].
    rewrite IH by done. unfold record_symbol.
    by rewrite lookup_insert_ne.
Qed.

Section WithHost.
Context {node_path : NodePath} {swc_core : SwcCore} {resolver : Resolver}
        {number_to_string : NumberToString} {eslint : Eslint}
        {trace_mapping : TraceMapping}.
Variable shouldStrip : ShouldStripFn.
Variable options : option Options.

(** The predicate decided to strip an import of [parsed] that binds [n]. *)
Definition strips (cfg : ResolvedConfig) (env : ConfigEnv) (id : string)
    (parsed : list ModuleItem) (n : string) : Prop :=
  exists pos node,
    parsed !! pos = Some (ImportDeclarationItem node)
    /\ decided_strip
         (body (scatter id shouldStrip (hook_context cfg env) parsed init)) pos
       = true
    /\ n ∈ names (specifiers node).

Lemma strips_stripped_symbol cfg env id parsed n :
  strips cfg env id parsed n
  <-> stripped_symbol id shouldStrip (hook_context cfg env) parsed n.
Proof.
  unfold strips, stripped_symbol. split.
  - intros (pos & node & Hpos & Hd & Hn). exists pos, node.
    split; [|done]. by apply decided_strip_waiting.
  - intros (pos & node & Hw & Hn). exists pos, node.
    apply decided_strip_waiting in Hw as [? ?]. done.
Qed.

(** X14. The build fails exactly when some code artifact has an undefined
    reference to a name that was stripped from one of the modules of that
    artifact. Whether the artifact carries a source map plays no part in
    it. *)
Theorem build_fails_exactly_on_dangling_references outputDir bundle st :
  reachable shouldStrip options st ->
  is_Some (generateBundle outputDir bundle st)
  <-> exists chunk ref, dangling bundle (importSymbolsToSource st) chunk ref.
Proof.
  intros Hreach. unfold generateBundle. split.
  - destruct (cachedConfig st) as [cfg|]; [|by intros [? ?]].
    destruct (checkBundle bundle (importSymbolsToSource st) (root cfg) outputDir)
      as [|msg msgs] eqn:Hcheck; [by intros [? ?]|]. intros _.
    assert (Hmsg : msg ∈ checkBundle bundle (importSymbolsToSource st) (root cfg)
                           outputDir) by (rewrite Hcheck; left).
    apply checkBundle_elem in Hmsg as (chunk & ref & Hd & _). eauto.
  - intros (chunk & ref & Hd).
    destruct (cachedConfig st) as [cfg|] eqn:Hc.
    + assert (Hmsg : describe (name ref)
                       (listed chunk (importSymbolsToSource st) (root cfg)
                          outputDir ref)
                     ∈ checkBundle bundle (importSymbolsToSource st) (root cfg)
                         outputDir)
        by (apply checkBundle_elem; eauto).
      destruct (checkBundle bundle (importSymbolsToSource st) (root cfg) outputDir)
        as [|msg msgs]; [by apply not_elem_of_nil in Hmsg|].
      destruct (decide (0 < length (msg :: msgs))) as [|Hn]; [eauto|].
      simpl in Hn. lia.
    + destruct Hd as (_ & _ & Hrel).
      rewrite (reachable_registry shouldStrip options st Hreach Hc) in Hrel.
      unfold relevant in Hrel. by rewrite lookup_empty in Hrel.
Qed.

(** X15. Whatever hooks the host has called, every list of the registry is
    not empty and every file id in it ends in one of the six extensions of
    the filter: no other module is ever recorded. *)
Theorem registry_holds_filtered_ids st :
  reachable shouldStrip options st ->
  registry_holds
    (fun id => exists ext stem, ext ∈ extensions /\ id = stem +:+ ext)
    (importSymbolsToSource st).
Proof.
  intros (calls & ->).
  induction calls as [|h calls IH] using rev_ind.
  - intros n ids. simpl. by rewrite lookup_empty.
  - rewrite fold_left_app. simpl.
    set (st := fold_left (call shouldStrip options) calls initial) in *.
    destruct h as [sm env|cfg| |text id sched]; simpl.
    + unfold config_hook. destruct (negb (opt_autoSourceMaps options)); [done|].
      by destruct (_ && _).
    + done.
    + intros n ids. by rewrite lookup_empty.
    + unfold transform_hook.
      destruct (cachedConfig st) as [cfg|]; [|done].
      destruct (cachedEnv st) as [env|]; [|done].
      destruct (matches_extension id) eqn:Hm; [|done]. simpl.
      destruct (outcome _) as [|e|[res|]]; try done. simpl.
      apply record_symbols_hold; [|done]. by apply matches_extension_spec.
Qed.

(** X16. With [autoSourceMaps: false] the plugin leaves source maps alone:
    the [config] hook never asks for them, the flag that it did stays
    false, and [writeBundle] removes no file. *)
Theorem autoSourceMaps_off_touches_nothing opts st :
  options = Some opts -> autoSourceMaps opts = Some false ->
  reachable shouldStrip options st ->
  pluginRequestedSourcemap st = false
  /\ (forall sm env st', snd (config_hook options sm env st') = false)
  /\ (forall outputDir bundle, writeBundle outputDir bundle st = []).
Proof.
  intros Hopts Hoff Hreach.
  assert (Hauto : opt_autoSourceMaps options = false).
  { rewrite Hopts. destruct opts as [a s]. simpl in Hoff. by subst a. }
  assert (Hconfig : forall sm env st',
            pluginRequestedSourcemap (fst (config_hook options sm env st'))
            = pluginRequestedSourcemap st'
            /\ snd (config_hook options sm env st') = false).
  { intros sm env st'. unfold config_hook. by rewrite Hauto. }
  assert (Hflag : pluginRequestedSourcemap st = false).
  { destruct Hreach as (calls & ->).
    induction calls as [|h calls IH] using rev_ind; [done|].
    rewrite fold_left_app. simpl.
    set (st := fold_left (call shouldStrip options) calls initial) in *.
    destruct h as [sm env|cfg| |text id sched]; simpl; try done.
    - by destruct (Hconfig sm env st) as [-> _].
    - unfold transform_hook.
      destruct (cachedConfig st) as [cfg|]; [|done].
      destruct (cachedEnv st) as [env|]; [|done].
      destruct (negb (matches_extension id)); [done|].
      by destruct (outcome _) as [|e|[res|]]. }
  split; [done|]. split.
  - intros sm env st'. by destruct (Hconfig sm env st').
  - intros outputDir bundle. unfold writeBundle. by rewrite Hflag.
Qed.

(** The [config] call makes the plugin turn source maps on: the option
    [autoSourceMaps] is not [false], the command is [build], and the user
    has left [build.sourcemap] unset or set it to [false]. *)
Definition requests_maps (h : HookCall) : Prop :=
  match h with
  | CallConfig sm env =>
      opt_autoSourceMaps options = true /\ command env = "build"
      /\ (sm = None \/ sm = Some (SmBool false))
  | _ => False
  end.

(** The flag is set by such a call and by nothing else, and no hook clears
    it. *)
Lemma flag_follows_requests calls :
  pluginRequestedSourcemap (fold_left (call shouldStrip options) calls initial) = true
  <-> Exists requests_maps calls.
Proof.
  induction calls as [|h calls IH] using rev_ind.
  - simpl. split; [done | by intros ?%Exists_nil].
  - rewrite fold_left_app, Exists_app, Exists_cons, Exists_nil, <- IH. simpl.
    set (st := fold_left (call shouldStrip options) calls initial) in *.
    destruct h as [sm env'|cfg| |text id sched]; simpl.
    + unfold config_hook.
      destruct (opt_autoSourceMaps options) eqn:Hauto; simpl.
      * destruct (String.eqb_spec (command env') "build") as [Hb|Hb]; simpl.
        -- destruct sm as [[[]| |]|]; simpl; try tauto.
           all: split; [intros Hst; by left|].
           all: intros [Hst | [(_ & _ & [[=] | [=]]) | []]]; done.
        -- split; [intros Hst; by left|]. intros [Hst | [(_ & ? & _) | []]]; done.
      * split; [intros Hst; by left|]. intros [Hst | [([=] & _) | []]]; done.
    + tauto.
    + tauto.
    + unfold transform_hook.
      destruct (cachedConfig st) as [cfg|]; [|simpl; tauto].
      destruct (cachedEnv st) as [env'|]; [|simpl; tauto].
      destruct (negb (matches_extension id)); [simpl; tauto|].
      destruct (outcome _) as [|e|[res|]]; simpl; tauto.
Qed.

(** X17. Over a whole run of the hooks, [writeBundle] asks to remove a
    path exactly when some [config] call made the plugin turn source maps
    on (no later hook, a new build included, takes that back), the output
    directory is set and not empty, and the path is that directory joined
    with the name of a bundle entry that ends in [.map]: every such entry
    goes, and nothing else. *)
Theorem maps_are_removed_exactly_after_a_request calls outputDir (bundle : Bundle)
    path :
  path ∈ writeBundle outputDir bundle
           (fold_left (call shouldStrip options) calls initial)
  <-> Exists requests_maps calls
      /\ exists dir n,
          Js.truthy outputDir = Some dir
          /\ n ∈ bundle.*1
          /\ (exists stem, n = stem +:+ ".map")
          /\ path = path_join dir n.
Proof.
  rewrite <- flag_follows_requests. unfold writeBundle. split.
  - destruct (pluginRequestedSourcemap _); [|by intros ?%not_elem_of_nil].
    destruct (Js.truthy outputDir) as [dir|]; [|by intros ?%not_elem_of_nil].
    intros (n & -> & [Hmap Hn]%list_elem_of_filter)%list_elem_of_fmap.
    split; [done|]. exists dir, n. split; [done|]. split; [done|].
    split; [by apply JsFacts.endsWith_spec | done].
  - intros (-> & dir & n & -> & Hn & Hstem & ->).
    apply list_elem_of_fmap_2, list_elem_of_filter.
    split; [by apply JsFacts.endsWith_spec | done].
Qed.

(** X18. The parser's [tsx] option follows the id alone: a file whose id
    ends in [.jsx] passes the filter and is parsed with the option off. *)
Theorem jsx_is_parsed_without_tsx text stem sched st cfg env :
  cachedConfig st = Some cfg -> cachedEnv st = Some env ->
  matches_extension (stem +:+ ".jsx") = true
  /\ head (hook_effects (transform_hook shouldStrip text (stem +:+ ".jsx") sched st))
     = Some (Inner (EParse text false)).
Proof.
  intros Hc He.
  assert (Hm : matches_extension (stem +:+ ".jsx") = true).
  { apply matches_extension_spec. exists ".jsx", stem. split; [|done].
    unfold extensions. set_solver. }
  split; [done|].
  rewrite (transform_hook_run shouldStrip text _ sched st cfg env Hc He Hm).
  assert (Htsx : Js.endsWith (stem +:+ ".jsx") ".tsx" = false)
    by (by apply endsWith_other_suffix).
  simpl. unfold transform. rewrite Htsx.
  destruct (parse text false) as [e|parsed]; simpl; [done|].
  by destruct (outcome _) as [|e|[res|]].
Qed.

(** X19. When the hook returns code, the registry gains the file id once
    under each name bound by an import that was stripped, at the end of
    the list that name had, and is unchanged for every other name. *)
Theorem registry_gains_the_file_once text id sched st cfg env parsed code map :
  cachedConfig st = Some cfg -> cachedEnv st = Some env ->
  parse text (Js.endsWith id ".tsx") = inr parsed ->
  result (transform_hook shouldStrip text id sched st) = HookCode code map ->
  forall n,
    (strips cfg env id parsed n ->
     importSymbolsToSource (after (transform_hook shouldStrip text id sched st)) !! n
     = Some (default [] (importSymbolsToSource st !! n) ++ [id]))
    /\ (~ strips cfg env id parsed n ->
        importSymbolsToSource (after (transform_hook shouldStrip text id sched st)) !! n
        = importSymbolsToSource st !! n).
Proof.
  intros Hc He Hp Hres n.
  destruct (transform_hook_cases shouldStrip text id sched st)
    as [(_ & _ & [Hr | (msg & Hr)]) | (cfg' & env' & _ & _ & Hm)];
    [congruence | congruence |].
  rewrite (transform_hook_run shouldStrip text id sched st cfg env Hc He Hm) in Hres |- *.
  simpl in Hres |- *.
  destruct (outcome (transform id shouldStrip (hook_context cfg env) text sched))
    as [|e|[res|]] eqn:Hout; simpl in Hres; try done. simpl.
  destruct (transform_recorded id shouldStrip (hook_context cfg env) text sched res Hout)
    as (parsed' & Hp' & _ & Hnd & _ & Hsyms).
  rewrite Hp in Hp'. injection Hp' as <-.
  assert (Hiff : n ∈ strippedImportSymbols res <-> strips cfg env id parsed n).
  { rewrite Hsyms. symmetry. apply strips_stripped_symbol. }
  split.
  - intros Hn%Hiff. by apply record_symbols_append.
  - intros Hn. apply record_symbols_other. by rewrite Hiff.
Qed.

(** X20. When the predicate returns false for every import, the hook
    returns null once every promise has settled and the plugin's state,
    the registry included, is as before. *)
Theorem keeping_everything_changes_nothing text id sched st cfg env parsed :
  cachedConfig st = Some cfg -> cachedEnv st = Some env ->
  matches_extension id = true ->
  parse text (Js.endsWith id ".tsx") = inr parsed ->
  (forall k ctx, returned (shouldStrip k ctx) = Returns (Fulfils false)) ->
  complete id shouldStrip (hook_context cfg env) parsed sched ->
  result (transform_hook shouldStrip text id sched st) = HookNull
  /\ after (transform_hook shouldStrip text id sched st) = st.
Proof.
  intros Hc He Hm Hp Hfalse Hcomplete.
  rewrite (transform_hook_run shouldStrip text id sched st cfg env Hc He Hm).
  destruct (always_false_is_unchanged id shouldStrip (hook_context cfg env)
              text sched parsed Hp Hfalse Hcomplete) as [Hout _].
  simpl. by rewrite Hout.
Qed.

(** X21. When the predicate neither throws nor rejects and decides to strip
    an import that binds a name, the hook returns code once every promise
    has settled: the print of the statements that are kept. *)
Theorem stripping_returns_the_printed_file text id sched st cfg env parsed n :
  cachedConfig st = Some cfg -> cachedEnv st = Some env ->
  matches_extension id = true ->
  parse text (Js.endsWith id ".tsx") = inr parsed ->
  (forall k ctx, exists strip, returned (shouldStrip k ctx) = Returns (Fulfils strip)) ->
  complete id shouldStrip (hook_context cfg env) parsed sched ->
  strips cfg env id parsed n ->
  exists code map,
    result (transform_hook shouldStrip text id sched st) = HookCode code map
    /\ (code, map)
       = print (retained id shouldStrip (hook_context cfg env) parsed)
           (filename id (hook_context cfg env)).
Proof.
  intros Hc He Hm Hp Hpred Hcomplete Hn.
  rewrite (transform_hook_run shouldStrip text id sched st cfg env Hc He Hm).
  destruct (transform_completes id shouldStrip (hook_context cfg env)
              text sched parsed Hp Hpred Hcomplete) as (res & Hout).
  destruct (transform_resolved id shouldStrip (hook_context cfg env)
              text sched res Hout) as (parsed' & Hp' & _ & Has).
  rewrite Hp in Hp'. injection Hp' as <-.
  simpl. rewrite Hout. destruct res as [r|]; simpl in Has.
  - destruct Has as (Hprint & _). exists (Transform.code r), (Transform.map r).
    done.
  - apply strips_stripped_symbol in Hn. by destruct (Has n).
Qed.

(** X24. When the hook returns code it writes one log line for each
    distinct specifier that was stripped, after everything the transform
    did, each with the file's path relative to the root. *)
Theorem one_log_line_per_stripped_specifier text id sched st cfg env parsed code map :
  cachedConfig st = Some cfg -> cachedEnv st = Some env ->
  parse text (Js.endsWith id ".tsx") = inr parsed ->
  result (transform_hook shouldStrip text id sched st) = HookCode code map ->
  exists logs,
    hook_effects (transform_hook shouldStrip text id sched st)
    = (Inner <$> effects (transform id shouldStrip (hook_context cfg env) text sched))
        ++ logs
    /\ NoDup logs
    /\ forall l,
         l ∈ logs
         <-> exists pos node,
             parsed !! pos = Some (ImportDeclarationItem node)
             /\ decided_strip
                  (body (scatter id shouldStrip (hook_context cfg env) parsed init))
                  pos = true
             /\ l = Log (filename id (hook_context cfg env)) (Swc.source node).
Proof.
  intros Hc He Hp Hres.
  destruct (transform_hook_cases shouldStrip text id sched st)
    as [(_ & _ & [Hr | (msg & Hr)]) | (cfg' & env' & _ & _ & Hm)];
    [congruence | congruence |].
  rewrite (transform_hook_run shouldStrip text id sched st cfg env Hc He Hm) in Hres |- *.
  simpl in Hres |- *.
  destruct (outcome (transform id shouldStrip (hook_context cfg env) text sched))
    as [|e|[res|]] eqn:Hout; simpl in Hres; try done. simpl.
  destruct (transform_recorded id shouldStrip (hook_context cfg env) text sched res Hout)
    as (parsed' & Hp' & Hnd & _ & Htars & _).
  rewrite Hp in Hp'. injection Hp' as <-.
  destruct (transform_resolved id shouldStrip (hook_context cfg env) text sched _ Hout)
    as (parsed' & Hp' & _ & Has).
  rewrite Hp in Hp'. injection Hp' as <-.
  simpl in Has. destruct Has as (_ & Hrel & _).
  eexists. split; [done|]. split.
  - apply NoDup_fmap_2; [|done]. by intros t t' [=].
  - intros l. rewrite list_elem_of_fmap, Hrel. split.
    + intros (t & -> & (pos & node & Hw & ->)%Htars).
      apply decided_strip_waiting in Hw as [? ?]. eauto.
    + intros (pos & node & Hpos & Hd & ->). exists (Swc.source node).
      split; [done|]. apply Htars. exists pos, node.
      split; [|done]. by apply decided_strip_waiting.
Qed.




End WithHost.
End LifecycleLaws.


(** ** The further properties on the fixtures *)

Module MoreScenarios.
Import Swc ImportAttributes Host Transform Check Plugin Fixtures.
#[local] Existing Instances posix swc no_resolver number_to_string eslint first_source.

(** [import x from 'y' with { only: 'test', only: 'dev', mode: 'x' }] *)
Definition only_test : Property :=
  KeyValueProperty (KeyIdentifier "only") (StringLiteral "test").

Definition only_dev_entry : Property :=
  KeyValueProperty (KeyStringLiteral "only") (StringLiteral "dev").

Definition mode_x : Property :=
  KeyValueProperty (KeyIdentifier "mode") (StringLiteral "x").

Definition import_only_twice : ImportDeclaration :=
  {| source := "y"; specifiers := [ImportDefaultSpecifier "x"];
     typeOnly := false;
     with_ := Some {| properties := [only_test; only_dev_entry; mode_x] |};
     asserts := None |}.

(** A predicate that keeps state: its second call throws. *)
Definition strip_throws_second : ShouldStripFn :=
  fun k _ =>
    {| syncReads := 0;
       returned := if k =? 1 then Throws "boom" else Returns (Fulfils true) |}.

(** A predicate whose promises reject, each with an error of its own. *)
Definition strip_rejects_each : ShouldStripFn :=
  fun k _ =>
    {| syncReads := 0;
       returned := Returns (Rejects (if k =? 0 then "first" else "second")) |}.

(** A linter that reports [devOnly] twice, after a message of another
    rule. *)
Definition noisy_linter : Eslint :=
  fun _ =>
    [{| ruleId := Some "no-unused-vars"; message := "'x' is never used.";
        msg_line := 1; msg_column := 7 |};
     {| ruleId := Some "no-undef"; message := "'devOnly' is not defined.";
        msg_line := 3; msg_column := 1 |};
     {| ruleId := Some "no-undef"; message := "'devOnly' is not defined.";
        msg_line := 9; msg_column := 5 |}].

Definition maps_off : Options :=
  {| autoSourceMaps := Some false; applyInServe := None |}.

(** The build of a.ts and b.ts with [autoSourceMaps: false]. *)
Definition built_maps_off : PluginState :=
  fold_left (call strip_dev (Some maps_off)) build_a_and_b initial.

(** A plugin instance that has stripped [debug] from another file. *)
Definition after_other : PluginState :=
  {| pluginRequestedSourcemap := true;
     importSymbolsToSource := {["debug" := ["/app/other.ts"]]};
     cachedConfig := Some app_config; cachedEnv := Some production |}.

(** X1 at the import of the fixture with two imports. *)
Lemma attributes_come_from_entries_witness :
  getImportAttributes import_debug !! "only" = Some (VString "dev")
  /\ exists attr key,
      attr ∈ getAttrList import_debug /\ getKey attr = Some key
      /\ property_key key = "only" /\ getVal attr = Some (VString "dev").
Proof.
  assert (Hl : getImportAttributes import_debug !! "only" = Some (VString "dev"))
    by (vm_compute; reflexivity).
  split; [exact Hl|].
  exact (AttributeLaws.attributes_come_from_entries import_debug "only"
           (VString "dev") Hl).
Defined.

(** X2 at a clause that writes [only] twice. *)
Lemma last_entry_wins_witness :
  (getAttrList import_only_twice = [only_test] ++ only_dev_entry :: [mode_x]
   /\ getKey only_dev_entry = Some (VString "only")
   /\ getVal only_dev_entry = Some (VString "dev")
   /\ property_key (VString "only") <> "__proto__"
   /\ (forall later, later ∈ [mode_x] ->
         ~ ImportAttributesFacts.writes (property_key (VString "only")) later))
  /\ getImportAttributes import_only_twice !! property_key (VString "only")
     = Some (VString "dev").
Proof.
  assert (Hlist : getAttrList import_only_twice
                  = [only_test] ++ only_dev_entry :: [mode_x]) by reflexivity.
  assert (Hkey : getKey only_dev_entry = Some (VString "only")) by reflexivity.
  assert (Hval : getVal only_dev_entry = Some (VString "dev")) by reflexivity.
  assert (Hproto : property_key (VString "only") <> "__proto__") by discriminate.
  assert (Hafter : forall later, later ∈ [mode_x] ->
            ~ ImportAttributesFacts.writes (property_key (VString "only")) later).
  { intros later ->%list_elem_of_singleton (key & v & Hk & _ & Hp).
    injection Hk as <-. discriminate. }
  split; [done|].
  exact (AttributeLaws.last_entry_wins import_only_twice [only_test] only_dev_entry
           [mode_x] (VString "only") (VString "dev") Hlist Hkey Hval Hproto Hafter).
Defined.

(** A later BigInt entry overwrites an earlier string; a later number
    that is not finite does not. *)
Definition import_overwritten : ImportDeclaration :=
  {| source := "y"; specifiers := [ImportDefaultSpecifier "x"]; typeOnly := false;
     with_ := Some {| properties :=
                        [KeyValueProperty (KeyIdentifier "a") (StringLiteral "x");
                         KeyValueProperty (KeyIdentifier "a") (BigIntLiteral 1);
                         KeyValueProperty (KeyIdentifier "b") (StringLiteral "x");
                         KeyValueProperty (KeyIdentifier "b") (NumericLiteral None)] |};
     asserts := None |}.

Example last_readable_entry_wins :
  getImportAttributes import_overwritten !! "a" = Some (VBigInt 1)
  /\ getImportAttributes import_overwritten !! "b" = Some (VString "x").
Proof. vm_compute. split; reflexivity. Qed.

(** X4 at the fixture with two imports, the second import settling
    first. *)
Lemma predicate_called_once_per_import_witness :
  (parse "multiple-imports" (Js.endsWith "/app/index.ts" ".tsx") = inr multiple_imports
   /\ (forall k ctx e, returned (strip_dev k ctx) <> Throws e))
  /\ TransformLaws.predicate_calls
       (effects (transform "/app/index.ts" strip_dev app_context "multiple-imports"
                   [Settle 1; Settle 0]))
     = TransformLaws.expected_calls "/app/index.ts" app_context multiple_imports.
Proof.
  assert (Hp : parse "multiple-imports" (Js.endsWith "/app/index.ts" ".tsx")
               = inr multiple_imports) by (vm_compute; reflexivity).
  assert (Hnothrow : forall k ctx e, returned (strip_dev k ctx) <> Throws e)
    by (intros k ctx e; discriminate).
  split; [done|].
  exact (TransformLaws.predicate_called_once_per_import "/app/index.ts" strip_dev
           app_context "multiple-imports" [Settle 1; Settle 0] multiple_imports
           Hp Hnothrow).
Defined.

(** X5 at the same file, with a predicate whose second call throws. *)
Lemma throw_ends_the_loop_witness :
  thrown (scatter "/app/index.ts" strip_throws_second app_context
            [ImportDeclarationItem import_debug; ImportDeclarationItem import_util]
            init) = Some "boom"
  /\ scatter "/app/index.ts" strip_throws_second app_context
       ([ImportDeclarationItem import_debug; ImportDeclarationItem import_util]
          ++ [guarded_call; hello_util]) init
     = scatter "/app/index.ts" strip_throws_second app_context
         [ImportDeclarationItem import_debug; ImportDeclarationItem import_util] init
  /\ outcome (transform_parsed "/app/index.ts" strip_throws_second app_context
                ([ImportDeclarationItem import_debug;
                  ImportDeclarationItem import_util]
                   ++ [guarded_call; hello_util]) [Settle 0])
     = Rejected "boom"
  /\ TransformLaws.predicate_calls
       (effects (transform_parsed "/app/index.ts" strip_throws_second app_context
                   ([ImportDeclarationItem import_debug;
                     ImportDeclarationItem import_util]
                      ++ [guarded_call; hello_util]) [Settle 0]))
     = TransformLaws.predicate_calls
         (trace (scatter "/app/index.ts" strip_throws_second app_context
                   [ImportDeclarationItem import_debug;
                    ImportDeclarationItem import_util] init)).
Proof.
  assert (Hth : thrown (scatter "/app/index.ts" strip_throws_second app_context
                          [ImportDeclarationItem import_debug;
                           ImportDeclarationItem import_util] init) = Some "boom")
    by (vm_compute; reflexivity).
  split; [exact Hth|].
  exact (TransformLaws.throw_ends_the_loop "/app/index.ts" strip_throws_second
           app_context
           [ImportDeclarationItem import_debug; ImportDeclarationItem import_util]
           [guarded_call; hello_util] [Settle 0] "boom" Hth).
Defined.

(** X6 at the fixture with two imports, when only the first promise has
    settled. *)
Lemma unsettled_promise_holds_the_transform_witness :
  (body (scatter "/app/index.ts" strip_dev app_context multiple_imports init) !! 1
   = Some (Waiting import_util (Fulfils false))
   /\ Settle 1 ∉ [Settle 0; Read 1])
  /\ (outcome (transform_parsed "/app/index.ts" strip_dev app_context
                 multiple_imports [Settle 0; Read 1]) = Pending
      \/ exists e,
          outcome (transform_parsed "/app/index.ts" strip_dev app_context
                     multiple_imports [Settle 0; Read 1]) = Rejected e).
Proof.
  assert (Hpos : body (scatter "/app/index.ts" strip_dev app_context
                         multiple_imports init) !! 1
                 = Some (Waiting import_util (Fulfils false)))
    by (vm_compute; reflexivity).
  assert (Hnot : Settle 1 ∉ [Settle 0; Read 1]).
  { intros [Heq | Hin]%elem_of_cons; [discriminate|].
    apply list_elem_of_singleton in Hin. discriminate. }
  split; [done|].
  exact (TransformLaws.unsettled_promise_holds_the_transform "/app/index.ts"
           strip_dev app_context multiple_imports [Settle 0; Read 1] 1
           import_util (Fulfils false) Hpos Hnot).
Defined.

(** X7 at the same file, both promises rejecting and the second one
    delivered first. *)
Lemma first_rejection_wins_witness :
  (thrown (scatter "/app/index.ts" strip_rejects_each app_context
             multiple_imports init) = None
   /\ body (scatter "/app/index.ts" strip_rejects_each app_context
              multiple_imports init) !! 1
      = Some (Waiting import_util (Rejects "second"))
   /\ (forall p nd e',
         Settle p ∈ [Read 0] ->
         body (scatter "/app/index.ts" strip_rejects_each app_context
                 multiple_imports init) !! p
         <> Some (Waiting nd (Rejects e'))))
  /\ outcome (transform_parsed "/app/index.ts" strip_rejects_each app_context
                multiple_imports ([Read 0] ++ Settle 1 :: [Settle 0]))
     = Rejected "second".
Proof.
  assert (Hth : thrown (scatter "/app/index.ts" strip_rejects_each app_context
                          multiple_imports init) = None)
    by (vm_compute; reflexivity).
  assert (Hpos : body (scatter "/app/index.ts" strip_rejects_each app_context
                         multiple_imports init) !! 1
                 = Some (Waiting import_util (Rejects "second")))
    by (vm_compute; reflexivity).
  assert (Hpre : forall p nd e',
            Settle p ∈ [Read 0] ->
            body (scatter "/app/index.ts" strip_rejects_each app_context
                    multiple_imports init) !! p
            <> Some (Waiting nd (Rejects e'))).
  { intros p nd e' Hin%list_elem_of_singleton. discriminate. }
  split; [done|].
  exact (TransformLaws.first_rejection_wins "/app/index.ts" strip_rejects_each
           app_context multiple_imports [Read 0] [Settle 0] 1 import_util "second"
           Hth Hpos Hpre).
Defined.

(** X8 at the fixture with two imports. *)
Lemma result_records_what_was_stripped_witness :
  outcome (transform "/app/index.ts" strip_dev app_context "multiple-imports"
             [Settle 1; Settle 0]) = Resolved (Some Scenarios.stripped_index)
  /\ exists parsed,
      parse "multiple-imports" (Js.endsWith "/app/index.ts" ".tsx") = inr parsed
      /\ NoDup (strippedImportTargets Scenarios.stripped_index)
      /\ NoDup (strippedImportSymbols Scenarios.stripped_index)
      /\ (forall t,
            t ∈ strippedImportTargets Scenarios.stripped_index
            <-> exists pos node,
                parsed !! pos = Some (ImportDeclarationItem node)
                /\ TransformFacts.decided_strip
                     (body (scatter "/app/index.ts" strip_dev app_context parsed
                              init)) pos = true
                /\ t = Swc.source node)
      /\ (forall n,
            n ∈ strippedImportSymbols Scenarios.stripped_index
            <-> exists pos node,
                parsed !! pos = Some (ImportDeclarationItem node)
                /\ TransformFacts.decided_strip
                     (body (scatter "/app/index.ts" strip_dev app_context parsed
                              init)) pos = true
                /\ n ∈ TransformFacts.names (specifiers node)).
Proof.
  assert (Hres : outcome (transform "/app/index.ts" strip_dev app_context
                            "multiple-imports" [Settle 1; Settle 0])
                 = Resolved (Some Scenarios.stripped_index))
    by (vm_compute; reflexivity).
  split; [exact Hres|].
  exact (TransformLaws.result_records_what_was_stripped "/app/index.ts" strip_dev
           app_context "multiple-imports" [Settle 1; Settle 0]
           Scenarios.stripped_index Hres).
Defined.

(** X22 at the fixture with two imports, and at the same file when the
    predicate keeps everything. *)
Lemma printed_exactly_when_code_is_returned_witness :
  (outcome (transform "/app/index.ts" strip_dev app_context "multiple-imports"
              [Settle 1; Settle 0]) = Resolved (Some Scenarios.stripped_index)
   /\ forall r,
        outcome (transform "/app/index.ts" strip_nothing app_context
                   "multiple-imports" [Settle 1; Settle 0]) <> Resolved (Some r))
  /\ (exists parsed before,
        parse "multiple-imports" (Js.endsWith "/app/index.ts" ".tsx") = inr parsed
        /\ effects (transform "/app/index.ts" strip_dev app_context
                      "multiple-imports" [Settle 1; Settle 0])
           = before ++ [EPrint (TransformFacts.retained "/app/index.ts" strip_dev
                                  app_context parsed)
                          (TransformFacts.filename "/app/index.ts" app_context)]
        /\ TransformLaws.print_calls before = []
        /\ (Transform.code Scenarios.stripped_index,
            Transform.map Scenarios.stripped_index)
           = print (TransformFacts.retained "/app/index.ts" strip_dev app_context
                      parsed)
               (TransformFacts.filename "/app/index.ts" app_context))
  /\ TransformLaws.print_calls
       (effects (transform "/app/index.ts" strip_nothing app_context
                   "multiple-imports" [Settle 1; Settle 0])) = [].
Proof.
  assert (Hres : outcome (transform "/app/index.ts" strip_dev app_context
                            "multiple-imports" [Settle 1; Settle 0])
                 = Resolved (Some Scenarios.stripped_index))
    by (vm_compute; reflexivity).
  assert (Hnull : forall r,
            outcome (transform "/app/index.ts" strip_nothing app_context
                       "multiple-imports" [Settle 1; Settle 0])
            <> Resolved (Some r))
    by (intros r; vm_compute; discriminate).
  split; [done|]. split.
  - exact (proj1 (TransformLaws.printed_exactly_when_code_is_returned
                    "/app/index.ts" strip_dev app_context "multiple-imports"
                    [Settle 1; Settle 0]) Scenarios.stripped_index Hres).
  - exact (proj2 (TransformLaws.printed_exactly_when_code_is_returned
                    "/app/index.ts" strip_nothing app_context "multiple-imports"
                    [Settle 1; Settle 0]) Hnull).
Defined.

(** X12 at the message of the rule [no-undef] and at a message that quotes
    nothing. *)
Lemma quoted_name_reads_the_name_witness :
  quoted_name "'devOnly' is not defined." = Some "devOnly"
  /\ quoted_name "Parsing error: unexpected token" = None.
Proof.
  destruct VerifierLaws.quoted_name_reads_the_name as [Hquoted Hnone].
  split.
  - apply (Hquoted "devOnly" " is not defined."). vm_compute.
    intros Hin. repeat (apply elem_of_cons in Hin as [Heq | Hin]; [discriminate|]).
    by apply not_elem_of_nil in Hin.
  - apply (Hnone "Parsing error: unexpected token"). vm_compute.
    intros Hin. repeat (apply elem_of_cons in Hin as [Heq | Hin]; [discriminate|]).
    by apply not_elem_of_nil in Hin.
Defined.

(** X11 at a linter that reports [devOnly] at line 3 and again at line 9. *)
Lemma undefined_ref_is_the_first_report_witness :
  stray_ref ∈ @findUndefinedRefs noisy_linter "a.js"
  /\ VerifierLaws.first_report (noisy_linter "a.js") stray_ref.
Proof.
  assert (Hin : stray_ref ∈ @findUndefinedRefs noisy_linter "a.js")
    by (vm_compute; left).
  split; [exact Hin|].
  exact (VerifierLaws.undefined_ref_is_the_first_report (eslint := noisy_linter)
           "a.js" stray_ref Hin).
Defined.

(** X13 at the bundle of a.ts and b.ts without a source map. *)
Lemma messages_are_about_stripped_names_witness :
  "Stripped conditional import binding 'devOnly' still in output (a.ts, b.ts)"
    ∈ checkBundle bundle_without_map stripped_in_a_and_b app_root (Some "/app/dist")
  /\ exists chunk ref ids,
      chunk ∈ CheckFacts.chunks_of bundle_without_map
      /\ ref ∈ findUndefinedRefs (chunk_code chunk)
      /\ stripped_in_a_and_b !! name ref = Some ids
      /\ (exists origin, origin ∈ ids /\ origin ∈ moduleIdsInChunk chunk)
      /\ "Stripped conditional import binding 'devOnly' still in output (a.ts, b.ts)"
         = describe (name ref)
             (VerifierLaws.listed chunk stripped_in_a_and_b app_root
                (Some "/app/dist") ref).
Proof.
  assert (Hin : "Stripped conditional import binding 'devOnly' still in output (a.ts, b.ts)"
                  ∈ checkBundle bundle_without_map stripped_in_a_and_b app_root
                      (Some "/app/dist"))
    by (vm_compute; left).
  split; [exact Hin|].
  exact (VerifierLaws.messages_are_about_stripped_names bundle_without_map
           stripped_in_a_and_b app_root (Some "/app/dist") _ Hin).
Defined.

(** X14 at the build of a.ts and b.ts. *)
Lemma build_fails_exactly_on_dangling_references_witness :
  reachable strip_dev None Scenarios.built
  /\ (is_Some (generateBundle (Some "/app/dist") bundle_without_map Scenarios.built)
      <-> exists chunk ref,
          VerifierLaws.dangling bundle_without_map
            (importSymbolsToSource Scenarios.built) chunk ref).
Proof.
  assert (Hreach : reachable strip_dev None Scenarios.built)
    by (by exists build_a_and_b).
  split; [exact Hreach|].
  exact (LifecycleLaws.build_fails_exactly_on_dangling_references strip_dev None
           (Some "/app/dist") bundle_without_map Scenarios.built Hreach).
Defined.

(** X15 at the same build. *)
Lemma registry_holds_filtered_ids_witness :
  reachable strip_dev None Scenarios.built
  /\ LifecycleLaws.registry_holds
       (fun id => exists ext stem, ext ∈ extensions /\ id = stem +:+ ext)
       (importSymbolsToSource Scenarios.built).
Proof.
  assert (Hreach : reachable strip_dev None Scenarios.built)
    by (by exists build_a_and_b).
  split; [exact Hreach|].
  exact (LifecycleLaws.registry_holds_filtered_ids strip_dev None Scenarios.built
           Hreach).
Defined.

(** X16 at the same build with [autoSourceMaps: false]. *)
Lemma autoSourceMaps_off_touches_nothing_witness :
  (Some maps_off = Some maps_off
   /\ autoSourceMaps maps_off = Some false
   /\ reachable strip_dev (Some maps_off) built_maps_off)
  /\ pluginRequestedSourcemap built_maps_off = false
  /\ (forall sm env st', snd (config_hook (Some maps_off) sm env st') = false)
  /\ (forall outputDir bundle, writeBundle outputDir bundle built_maps_off = []).
Proof.
  assert (Hreach : reachable strip_dev (Some maps_off) built_maps_off)
    by (by exists build_a_and_b).
  split; [done|].
  exact (LifecycleLaws.autoSourceMaps_off_touches_nothing strip_dev (Some maps_off)
           maps_off built_maps_off eq_refl eq_refl Hreach).
Defined.

(** X18 at a React component. *)
Lemma jsx_is_parsed_without_tsx_witness :
  (cachedConfig configured = Some app_config
   /\ cachedEnv configured = Some production)
  /\ matches_extension ("/app/App" +:+ ".jsx") = true
  /\ head (hook_effects (transform_hook strip_dev "multiple-imports"
                           ("/app/App" +:+ ".jsx") [Settle 0; Settle 1] configured))
     = Some (Inner (EParse "multiple-imports" false)).
Proof.
  split; [done|].
  exact (LifecycleLaws.jsx_is_parsed_without_tsx strip_dev "multiple-imports"
           "/app/App" [Settle 0; Settle 1] configured app_config production
           eq_refl eq_refl).
Defined.

(** X19 at the fixture with two imports, when [debug] was stripped from
    another file before. *)
Lemma registry_gains_the_file_once_witness :
  (cachedConfig after_other = Some app_config
   /\ cachedEnv after_other = Some production
   /\ parse "multiple-imports" (Js.endsWith "/app/index.ts" ".tsx")
      = inr multiple_imports
   /\ result (transform_hook strip_dev "multiple-imports" "/app/index.ts"
                [Settle 1; Settle 0] after_other)
      = HookCode (Transform.code Scenarios.stripped_index)
          (Transform.map Scenarios.stripped_index))
  /\ forall n,
      (LifecycleLaws.strips strip_dev app_config production "/app/index.ts"
         multiple_imports n ->
       importSymbolsToSource
         (after (transform_hook strip_dev "multiple-imports" "/app/index.ts"
                   [Settle 1; Settle 0] after_other)) !! n
       = Some (default [] (importSymbolsToSource after_other !! n)
                 ++ ["/app/index.ts"]))
      /\ (~ LifecycleLaws.strips strip_dev app_config production "/app/index.ts"
            multiple_imports n ->
          importSymbolsToSource
            (after (transform_hook strip_dev "multiple-imports" "/app/index.ts"
                      [Settle 1; Settle 0] after_other)) !! n
          = importSymbolsToSource after_other !! n).
Proof.
  assert (Hp : parse "multiple-imports" (Js.endsWith "/app/index.ts" ".tsx")
               = inr multiple_imports) by (vm_compute; reflexivity).
  assert (Hres : result (transform_hook strip_dev "multiple-imports" "/app/index.ts"
                           [Settle 1; Settle 0] after_other)
                 = HookCode (Transform.code Scenarios.stripped_index)
                     (Transform.map Scenarios.stripped_index))
    by (vm_compute; reflexivity).
  split; [done|].
  exact (LifecycleLaws.registry_gains_the_file_once strip_dev "multiple-imports"
           "/app/index.ts" [Settle 1; Settle 0] after_other app_config production
           multiple_imports _ _ eq_refl eq_refl Hp Hres).
Defined.

(** The registry after that call. *)
Example debug_is_recorded_after_the_other_file :
  importSymbolsToSource
    (after (transform_hook strip_dev "multiple-imports" "/app/index.ts"
              [Settle 1; Settle 0] after_other)) !! "debug"
  = Some ["/app/other.ts"; "/app/index.ts"].
Proof. vm_compute. reflexivity. Qed.

(** X20 at the fixture with two imports and a predicate that keeps
    everything. *)
Lemma keeping_everything_changes_nothing_witness :
  (cachedConfig configured = Some app_config
   /\ cachedEnv configured = Some production
   /\ matches_extension "/app/index.ts" = true
   /\ parse "multiple-imports" (Js.endsWith "/app/index.ts" ".tsx")
      = inr multiple_imports
   /\ (forall k ctx, returned (strip_nothing k ctx) = Returns (Fulfils false))
   /\ TransformFacts.complete "/app/index.ts" strip_nothing
        (PluginFacts.hook_context app_config production) multiple_imports
        [Settle 1; Settle 0])
  /\ result (transform_hook strip_nothing "multiple-imports" "/app/index.ts"
               [Settle 1; Settle 0] configured) = HookNull
  /\ after (transform_hook strip_nothing "multiple-imports" "/app/index.ts"
              [Settle 1; Settle 0] configured) = configured.
Proof.
  assert (Hm : matches_extension "/app/index.ts" = true) by (vm_compute; reflexivity).
  assert (Hp : parse "multiple-imports" (Js.endsWith "/app/index.ts" ".tsx")
               = inr multiple_imports) by (vm_compute; reflexivity).
  assert (Hfalse : forall k ctx,
            returned (strip_nothing k ctx) = Returns (Fulfils false))
    by reflexivity.
  assert (Hcomplete : TransformFacts.complete "/app/index.ts" strip_nothing
                        (PluginFacts.hook_context app_config production)
                        multiple_imports [Settle 1; Settle 0]).
  { intros pos node s Hpos.
    destruct pos as [|[|[|[|pos]]]]; vm_compute in Hpos; try discriminate;
      [right; left | left]. }
  split; [done|].
  exact (LifecycleLaws.keeping_everything_changes_nothing strip_nothing
           "multiple-imports" "/app/index.ts" [Settle 1; Settle 0] configured
           app_config production multiple_imports eq_refl eq_refl Hm Hp Hfalse
           Hcomplete).
Defined.

(** X21 at the fixture with two imports. *)
Lemma stripping_returns_the_printed_file_witness :
  (cachedConfig configured = Some app_config
   /\ cachedEnv configured = Some production
   /\ matches_extension "/app/index.ts" = true
   /\ parse "multiple-imports" (Js.endsWith "/app/index.ts" ".tsx")
      = inr multiple_imports
   /\ (forall k ctx, exists strip,
         returned (strip_dev k ctx) = Returns (Fulfils strip))
   /\ TransformFacts.complete "/app/index.ts" strip_dev
        (PluginFacts.hook_context app_config production) multiple_imports
        [Settle 1; Settle 0]
   /\ LifecycleLaws.strips strip_dev app_config production "/app/index.ts"
        multiple_imports "debug")
  /\ exists code map,
      result (transform_hook strip_dev "multiple-imports" "/app/index.ts"
                [Settle 1; Settle 0] configured) = HookCode code map
      /\ (code, map)
         = print (TransformFacts.retained "/app/index.ts" strip_dev
                    (PluginFacts.hook_context app_config production)
                    multiple_imports)
             (TransformFacts.filename "/app/index.ts"
                (PluginFacts.hook_context app_config production)).
Proof.
  assert (Hm : matches_extension "/app/index.ts" = true) by (vm_compute; reflexivity).
  assert (Hp : parse "multiple-imports" (Js.endsWith "/app/index.ts" ".tsx")
               = inr multiple_imports) by (vm_compute; reflexivity).
  assert (Hpred : forall k ctx, exists strip,
            returned (strip_dev k ctx) = Returns (Fulfils strip))
    by (intros k ctx; eexists; reflexivity).
  assert (Hcomplete : TransformFacts.complete "/app/index.ts" strip_dev
                        (PluginFacts.hook_context app_config production)
                        multiple_imports [Settle 1; Settle 0]).
  { intros pos node s Hpos.
    destruct pos as [|[|[|[|pos]]]]; vm_compute in Hpos; try discriminate;
      [right; left | left]. }
  assert (Hstrips : LifecycleLaws.strips strip_dev app_config production
                      "/app/index.ts" multiple_imports "debug").
  { exists 0, import_debug. split; [reflexivity|].
    split; [vm_compute; reflexivity | vm_compute; left]. }
  split; [done|].
  exact (LifecycleLaws.stripping_returns_the_printed_file strip_dev
           "multiple-imports" "/app/index.ts" [Settle 1; Settle 0] configured
           app_config production multiple_imports "debug" eq_refl eq_refl Hm Hp
           Hpred Hcomplete Hstrips).
Defined.

(** X24 at the fixture with two imports. *)
Lemma one_log_line_per_stripped_specifier_witness :
  (cachedConfig configured = Some app_config
   /\ cachedEnv configured = Some production
   /\ parse "multiple-imports" (Js.endsWith "/app/index.ts" ".tsx")
      = inr multiple_imports
   /\ result (transform_hook strip_dev "multiple-imports" "/app/index.ts"
                [Settle 1; Settle 0] configured)
      = HookCode (Transform.code Scenarios.stripped_index)
          (Transform.map Scenarios.stripped_index))
  /\ exists logs,
      hook_effects (transform_hook strip_dev "multiple-imports" "/app/index.ts"
                      [Settle 1; Settle 0] configured)
      = (Inner <$> effects (transform "/app/index.ts" strip_dev
                              (PluginFacts.hook_context app_config production)
                              "multiple-imports" [Settle 1; Settle 0]))
          ++ logs
      /\ NoDup logs
      /\ forall l,
           l ∈ logs
           <-> exists pos node,
               multiple_imports !! pos = Some (ImportDeclarationItem node)
               /\ TransformFacts.decided_strip
                    (body (scatter "/app/index.ts" strip_dev
                             (PluginFacts.hook_context app_config production)
                             multiple_imports init)) pos = true
               /\ l = Log (TransformFacts.filename "/app/index.ts"
                             (PluginFacts.hook_context app_config production))
                        (Swc.source node).
Proof.
  assert (Hp : parse "multiple-imports" (Js.endsWith "/app/index.ts" ".tsx")
               = inr multiple_imports) by (vm_compute; reflexivity).
  assert (Hres : result (transform_hook strip_dev "multiple-imports" "/app/index.ts"
                           [Settle 1; Settle 0] configured)
                 = HookCode (Transform.code Scenarios.stripped_index)
                     (Transform.map Scenarios.stripped_index))
    by (vm_compute; reflexivity).
  split; [done|].
  exact (LifecycleLaws.one_log_line_per_stripped_specifier strip_dev
           "multiple-imports" "/app/index.ts" [Settle 1; Settle 0] configured
           app_config production multiple_imports _ _ eq_refl eq_refl Hp Hres).
Defined.

(** The log of that call. *)
Example the_stripped_specifier_is_logged :
  hook_effects (transform_hook strip_dev "multiple-imports" "/app/index.ts"
                  [Settle 1; Settle 0] configured)
  = (Inner <$> effects (transform "/app/index.ts" strip_dev app_context
                          "multiple-imports" [Settle 1; Settle 0]))
      ++ [Log "index.ts" "./devOnly"].
Proof. vm_compute. reflexivity. Qed.


Definition bundle_with_map_file : Bundle :=
  [("index.js", Chunk chunk_with_map);
   ("index.js.map", Asset {| asset_fileName := "index.js.map";
                             asset_source := "{}" |})].


(** X17 at the build of a.ts and b.ts: its [config] call made the plugin
    turn source maps on, so the map file goes. *)
Lemma maps_are_removed_exactly_after_a_request_witness :
  Exists (LifecycleLaws.requests_maps None) build_a_and_b
  /\ "/app/dist/index.js.map"
       ∈ writeBundle (Some "/app/dist") bundle_with_map_file
           (fold_left (call strip_dev None) build_a_and_b initial).
Proof.
  assert (Hreq : Exists (LifecycleLaws.requests_maps None) build_a_and_b).
  { apply Exists_cons_hd. split; [reflexivity|]. split; [reflexivity | by left]. }
  split; [exact Hreq|].
  apply (LifecycleLaws.maps_are_removed_exactly_after_a_request strip_dev None
           build_a_and_b (Some "/app/dist") bundle_with_map_file).
  split; [exact Hreq|].
  exists "/app/dist", "index.js.map". split; [reflexivity|].
  split; [vm_compute; right; left|]. split; [by exists "index.js" | reflexivity].
Defined.

(** Without the user's setting the plugin turns source maps on and removes
    the map file it caused. *)
Example own_source_maps_are_removed :
  writeBundle (Some "/app/dist") bundle_with_map_file Scenarios.built
  = ["/app/dist/index.js.map"].
Proof. vm_compute. reflexivity. Qed.

End MoreScenarios.
